(** * Twins generator: scenario enumeration, sharding and chunked output

    A shallow embedding of [generator.py] (class [Generator] and
    [JSONFormat]) and of the command-line script [cli.py], together with
    the properties of the enumeration engine.

    Python integers are unbounded, so they are embedded as [Z]; Python lists
    are [list], except the partitions and blocks that [make_partitions]
    updates in place, which are objects of a store; exceptions are an
    explicit outcome.  The file is organised as
    the source is: Python primitives first, then the combinatorics helper
    [S], the partition enumerator [make_partitions], the two composition
    steps, the sharding and chunking helpers and finally the orchestrating
    [print] and [run]. *)

From stdpp Require Import gmap strings list fin_maps pretty.
From Stdlib Require Import ZArith Lia.

Open Scope Z_scope.

(** ** Outcomes of Python code *)

Inductive exn :=
  | TypeError | ValueError | AssertionError | IndexError | OSError
  | OverflowError.

(** [Diverge] is what a fuel-bounded recursion answers when the fuel runs
    out; no Python exception is mapped to it. *)
Inductive result (A : Type) :=
  | Ok (a : A)
  | Raise (e : exn)
  | Diverge.
Arguments Ok {A} a.
Arguments Raise {A} e.
Arguments Diverge {A}.

(** Sequencing: an exception (or divergence) aborts what follows.  With
    these two instances stdpp's [x ← m; k] and [m;; k] notations apply. *)
#[global] Instance result_bind : MBind result := λ A B k m,
  match m with
  | Ok a => k a
  | Raise e => Raise e
  | Diverge => Diverge
  end.

#[global] Instance result_ret : MRet result := λ A a, Ok a.

Definition assert (b : bool) : result unit :=
  if b then Ok () else Raise AssertionError.

(** ** Python primitives used by the generator *)

(** [len(l)] *)
Definition len {A} (l : list A) : Z := Z.of_nat (length l).

(** [range(n)]: the integers [0, 1, ..., n-1]; empty when [n <= 0]. *)
Definition range (n : Z) : list Z := Z.of_nat <$> seq 0 (Z.to_nat n).

(** [sum(l)] on a list of integers. *)
Definition sum (l : list Z) : Z := foldr Z.add 0 l.

(** [math.factorial], imported as [f] by the source.  It raises on
    negative arguments; every call in [S] is on a value of [0..k]. *)
Fixpoint fact (n : nat) : Z :=
  match n with
  | O => 1
  | S m => Z.of_nat (S m) * fact m
  end.

Definition factorial (z : Z) : Z := fact (Z.to_nat z).

(** [l[i]] and [l[i] = x]; a negative index counts from the end. *)
Definition getitem {A} (l : list A) (i : Z) : result A :=
  let j := if i <? 0 then i + len l else i in
  if j <? 0 then Raise IndexError
  else match l !! Z.to_nat j with
       | Some x => Ok x
       | None => Raise IndexError
       end.

Definition setitem {A} (l : list A) (i : Z) (x : A) : result (list A) :=
  let j := if i <? 0 then i + len l else i in
  if (0 <=? j) && (j <? len l) then Ok (<[Z.to_nat j := x]> l)
  else Raise IndexError.

(** [l[:n]]; a negative bound counts from the end. *)
Definition slice_to {A} (l : list A) (n : Z) : list A :=
  if n <? 0 then take (Z.to_nat (len l + n)) l else take (Z.to_nat n) l.

(** [enumerate(l)] *)
Definition enumerate {A} (l : list A) : list (Z * A) :=
  imap (λ i x, (Z.of_nat i, x)) l.

(** A [for x in l: body] loop whose body updates the loop variables [st];
    the monad carries what the body may do besides (raise, write). *)
Fixpoint for_ {M : Type → Type} `{!MBind M, !MRet M} {A St}
    (l : list A) (body : A → St → M St) (st : St) : M St :=
  match l with
  | [] => mret st
  | x :: l' => st' ← body x st; for_ l' body st'
  end.

(** *** Dynamically typed arguments

    The constructor and [run] check the type of their arguments at run
    time, so these arrive as Python values.  [bool] is a subclass of [int]:
    [isinstance(True, int)] holds and [True] counts as [1]. *)
Inductive pyval :=
  | VInt (z : Z)
  | VBool (b : bool)
  | VStr (s : string)
  | VOther.   (* any other object: a float, None, a list, ... *)

Definition isinstance_int (v : pyval) : bool :=
  match v with VInt _ | VBool _ => true | _ => false end.

Definition isinstance_str (v : pyval) : bool :=
  match v with VStr _ => true | _ => false end.

Definition isinstance_bool (v : pyval) : bool :=
  match v with VBool _ => true | _ => false end.

Definition int_of (v : pyval) : Z :=
  match v with VInt z => z | VBool b => if b then 1 else 0 | _ => 0 end.

Definition str_of (v : pyval) : string :=
  match v with VStr s => s | _ => "" end.

Definition bool_of (v : pyval) : bool :=
  match v with VBool b => b | _ => false end.

(** *** Library iterators

    [itertools.product(pool, repeat=r)]: the pool is read once into a
    tuple, then the [r]-fold Cartesian power is produced with the last
    position varying fastest.  A negative [repeat] is a [ValueError]. *)
Fixpoint product_pow {A} (pool : list A) (r : nat) : list (list A) :=
  match r with
  | O => [[]]
  | S r' => x ← pool; t ← product_pow pool r'; [x :: t]
  end.

Definition product {A} (pool : list A) (repeat : Z) : result (list (list A)) :=
  if repeat <? 0 then Raise ValueError
  else Ok (product_pow pool (Z.to_nat repeat)).

(** [itertools.islice(l, start, None, step)] for [step >= 1]: the elements
    at positions [start], [start + step], [start + 2 * step], ...  *)
Fixpoint every_nth {A} (skip gap : nat) (l : list A) : list A :=
  match l with
  | [] => []
  | x :: l' =>
      match skip with
      | O => x :: every_nth gap gap l'
      | S skip' => every_nth skip' gap l'
      end
  end.

Definition islice {A} (l : list A) (start step : nat) : list A :=
  every_nth start (step - 1) l.

(** Modelled from the spec: [more_itertools.distribute] is imported by the
    source and is not part of it.  The Sharder contract (element [i] of the
    input lands in sub-sequence [i mod M]) is realised as the library does
    it: child [index] of [n] is [islice(it, index, None, n)] over its own
    [tee] of the input; [n < 1] is a [ValueError]. *)
Definition distribute {A} (n : Z) (iterable : list A) : result (list (list A)) :=
  if n <? 1 then Raise ValueError
  else Ok ((λ index, islice iterable index (Z.to_nat n))
             <$> seq 0 (Z.to_nat n)).

(** Modelled from the spec: [more_itertools.ichunked] is imported by the
    source and is not part of it.  The ChunkedWriter contract (consecutive
    elements grouped into chunks of exactly [n] elements, the final chunk
    may be smaller, nothing for an exhausted input) is realised as the
    library does it: while an item is left, yield the next [n] items.  With
    [n = 0] and an item left that loop never ends; a negative [n] is
    refused by [islice]. *)
Fixpoint chunks_of {A} (fuel n : nat) (l : list A) : list (list A) :=
  match fuel, l with
  | O, _ | _, [] => []
  | S fuel', _ :: _ => take n l :: chunks_of fuel' n (drop n l)
  end.

Definition ichunked {A} (iterable : list A) (n : Z) : result (list (list A)) :=
  if n <? 0 then (if bool_decide (iterable = []) then Ok [] else Raise ValueError)
  else if (n =? 0) && negb (bool_decide (iterable = [])) then Diverge
  else Ok (chunks_of (length iterable) (Z.to_nat n) iterable).

(** ** The generator: data model *)

(** A block is a list of node indices, a partition a list of blocks, a
    scenario a [(leader, partition)] tuple and a testcase one scenario per
    round. *)
Abbreviation block := (list Z) (only parsing).
Abbreviation partition := (list (list Z)) (only parsing).
Abbreviation scenario := (Z * list (list Z))%type (only parsing).
Abbreviation testcase := (list (Z * list (list Z))) (only parsing).

(** ** The world: log, file system, processes *)

(** The records of the [generator] logger, one constructor per kind of
    call; the formatted text is kept only where it is a constant. *)
Inductive log_record :=
  | LogError (e : exn) (message : string)
  | LogWarning (message : string)
  | LogInfoRepr (nodes partitions rounds : Z) (folder : string)
                (machine machines : Z)
  | LogInfoGenerating (testcases_length : Z)
  | LogDebug (call : nat)   (* the debug calls of [run], in source order *)
  | LogInfoFinished.

(** The object handed to [json.dumps] by [JSONFormat.make].  The
    serialisation to text is not modelled: a file holds the objects that
    were dumped and written to it, in order. *)
Record scenario_json := {
  round_leaders : gmap Z (list Z);
  round_partitions : gmap Z partition;
}.

Record json := {
  num_of_nodes : Z;
  num_of_twins : Z;
  scenarios : list scenario_json;
}.

(** A path is what [os.path.join(folder, filename)] denotes: a file name
    inside a folder. *)
Definition join (folder filename : string) : string * string :=
  (folder, filename).

(** The file system: the existing directories, the content of the files,
    the paths that cannot be opened for writing (no permission, a
    directory of that name, ...) and the trace of the calls to [open]. *)
Record filesystem := {
  dirs : gset string;
  files : gmap (string * string) (list json);
  denied : gset (string * string);
  opened : list (string * string);
}.

Record world := {
  log : list log_record;
  fs : filesystem;
}.

(** Code with effects on a state [St], which may raise. *)
Definition prog (St A : Type) : Type := St → result A * St.

#[global] Instance prog_bind {St} : MBind (prog St) := λ A B k m st,
  match m st with
  | (Ok a, st') => k a st'
  | (Raise e, st') => (Raise e, st')
  | (Diverge, st') => (Diverge, st')
  end.

#[global] Instance prog_ret {St} : MRet (prog St) := λ A a st, (Ok a, st).

Definition lift {St A} (r : result A) : prog St A := λ st, (r, st).

Definition raise {St A} (e : exn) : prog St A := lift (Raise e).

(** Run code that acts on a component [T] of the state. *)
Definition zoom {St T A} (get : St → T) (set : T → St → St)
    (m : prog T A) : prog St A := λ st,
  let '(r, t) := m (get st) in (r, set t st).

(** [with enter() as x: body]: [exit] runs however [body] ends. *)
Definition with_ {St D A} (enter : prog St D) (exit : D → prog St unit)
    (body : D → prog St A) : prog St A :=
  d ← enter;
  ((λ st, let '(r, st') := body d st in (exit d;; lift r) st') : prog St A).

Definition set_log (l : list log_record) (w : world) : world :=
  {| log := l; fs := fs w |}.

Definition set_fs (x : filesystem) (w : world) : world :=
  {| log := log w; fs := x |}.

Definition logger (r : log_record) : prog world unit := λ w,
  (Ok (), set_log (log w ++ [r]) w).

(** [with open(path, 'a') as f: f.write(data)] *)
Definition open_append (path : string * string) (data : json)
    : prog filesystem unit := λ x,
  let x := {| dirs := dirs x; files := files x; denied := denied x;
              opened := opened x ++ [path] |} in
  if bool_decide (path.1 ∈ dirs x) && negb (bool_decide (path ∈ denied x))
  then (Ok (), {| dirs := dirs x;
                  files := <[path := default [] (files x !! path) ++ [data]]>
                             (files x);
                  denied := denied x; opened := opened x |})
  else (Raise OSError, x).

(** [TemporaryDirectory()] as a context manager: entering creates a
    directory that did not exist, leaving removes it with its content. *)
Definition TemporaryDirectory_enter : prog filesystem string := λ x,
  let directory := fresh (dirs x) in
  (Ok directory, {| dirs := {[directory]} ∪ dirs x; files := files x;
                    denied := denied x; opened := opened x |}).

Definition TemporaryDirectory_exit (directory : string)
    : prog filesystem unit := λ x,
  (Ok (), {| dirs := dirs x ∖ {[directory]};
             files := filter (λ kv, kv.1.1 ≠ directory) (files x);
             denied := denied x; opened := opened x |}).

(** A [multiprocessing.Process]: [start] runs the target in a child
    process; an exception there ends the child with exit code 1 and is not
    seen by the parent, [join] waits for the child and returns nothing.
    The children of [print] write to pairwise distinct files (the process
    id is part of the name) and share nothing else, so they are run here
    one after the other, in the order they are started. *)
Record Process := {
  exitcode : option Z;   (* [None]: the child never ends *)
}.

Definition Process_start (target : prog filesystem unit)
    : prog filesystem Process := λ x,
  match target x with
  | (Ok _, x') => (Ok {| exitcode := Some 0 |}, x')
  | (Raise _, x') => (Ok {| exitcode := Some 1 |}, x')
  | (Diverge, x') => (Ok {| exitcode := None |}, x')
  end.

Definition Process_join (p : Process) : result unit :=
  match exitcode p with
  | Some _ => Ok ()
  | None => Diverge
  end.

(** [int(n ** (1 / r))], an argument of three debug messages of [run],
    for [n >= 0] and [r >= 1] (which the constructor guarantees).  The
    integer is converted to a float first, which raises from
    [2^1024 - 2^970] on; the value only feeds the message text. *)
Definition float_root (n r : Z) : result unit :=
  if 2 ^ 1024 - 2 ^ 970 <=? n then Raise OverflowError else Ok ().

(** ** The store of list objects

    [stirling2] builds its result by mutating list objects in place
    ([append], [+=]) and by [deepcopy]; whether two names denote the same
    object decides what a mutation changes.  The partitions and their
    blocks are therefore objects of a store, named by their location;
    integers are immutable and stay values.  Each list of partitions
    ([s_n1_k1], [tmp], [k_s_n1_k]) is held by one local variable only and
    is kept as a value: a list of references to partitions. *)
Abbreviation loc := nat (only parsing).

Inductive obj :=
  | Block (items : list Z)     (* a list of node indices *)
  | Part (blocks : list nat).  (* a list of references to blocks *)

Abbreviation heap := (list obj) (only parsing).

(** A new object; its location is one no object has. *)
Definition alloc (o : obj) : prog heap loc := λ h,
  (Ok (length h), h ++ [o]).

(** Reading an object as a block or as a partition.  A reference always
    denotes an object of the expected kind in the code modelled; the
    other cases are kept as a [TypeError]. *)
Definition load_block (l : loc) : prog heap (list Z) := λ h,
  match h !! l with
  | Some (Block items) => (Ok items, h)
  | _ => (Raise TypeError, h)
  end.

Definition load_part (l : loc) : prog heap (list loc) := λ h,
  match h !! l with
  | Some (Part blocks) => (Ok blocks, h)
  | _ => (Raise TypeError, h)
  end.

(** Mutation in place: the object at [l] becomes [o], for every name
    that refers to it. *)
Definition store (l : loc) (o : obj) : prog heap unit := λ h,
  (Ok (), <[l := o]> h).

(** [p.append(b)] on a partition. *)
Definition list_append (p b : loc) : prog heap unit :=
  blocks ← load_part p; store p (Part (blocks ++ [b])).

(** [p[j]] and [p[j] = b] on a partition. *)
Definition list_getitem (p : loc) (j : Z) : prog heap loc :=
  blocks ← load_part p; lift (getitem blocks j).

Definition list_setitem (p : loc) (j : Z) (b : loc) : prog heap unit :=
  blocks ← load_part p;
  blocks ← lift (setitem blocks j b);
  store p (Part blocks).

(** [b += items] on a block: [list.__iadd__] extends [b] in place. *)
Definition list_iadd (b : loc) (more : list Z) : prog heap unit :=
  items ← load_block b; store b (Block (items ++ more)).

(** [copy.deepcopy] of a list of partitions.  The memo maps every object
    already copied to its copy, so an object reached twice is copied
    once: the copy shares exactly what the original shares.  (The library
    enters a list in the memo before it copies its elements, which matters
    for cyclic structures only; a block holds integers.) *)
Definition deepcopy_block (b : loc) (memo : gmap nat nat)
    : prog heap (loc * gmap nat nat) :=
  match memo !! b with
  | Some b' => mret (b', memo)
  | None =>
      items ← load_block b;
      b' ← alloc (Block items);
      mret (b', <[b := b']> memo)
  end.

Definition deepcopy_part (p : loc) (memo : gmap nat nat)
    : prog heap (loc * gmap nat nat) :=
  match memo !! p with
  | Some p' => mret (p', memo)
  | None =>
      blocks ← load_part p;
      ym ← for_ blocks (λ b ym,
        bm ← deepcopy_block b ym.2; mret (ym.1 ++ [bm.1], bm.2)) ([], memo);
      p' ← alloc (Part ym.1);
      mret (p', <[p := p']> ym.2)
  end.

Definition deepcopy (l : list loc) : prog heap (list loc) :=
  ym ← for_ l (λ p ym,
    pm ← deepcopy_part p ym.2; mret (ym.1 ++ [pm.1], pm.2)) ([], ∅);
  mret ym.1.

(** The value a reference to a partition stands for, and the values of a
    list of such references. *)
Definition read_part (p : loc) : prog heap partition :=
  blocks ← load_part p;
  for_ blocks (λ b acc, items ← load_block b; mret (acc ++ [items])) [].

Definition read_parts (l : list loc) : prog heap (list partition) :=
  for_ l (λ p acc, q ← read_part p; mret (acc ++ [q])) [].

(** Proof devices for the closed form: binomial coefficients by Pascal's
    rule, finite sums, and the Stirling numbers of the second kind by their
    standard recurrence (the number of ways to split [n] labelled items
    into [k] non-empty unlabelled blocks). *)
Fixpoint binom (n k : nat) : Z :=
  match n, k with
  | _, O => 1
  | O, S _ => 0
  | S n', S k' => binom n' k' + binom n' (S k')
  end.

Fixpoint sumZ (g : nat → Z) (m : nat) : Z :=
  match m with
  | O => 0
  | S m' => sumZ g m' + g m'
  end.

Definition altsum (k : nat) (w : nat → Z) : Z :=
  sumZ (λ i, (-1) ^ Z.of_nat i * binom k i * w i) (S k).

Definition alt (n k : nat) : Z :=
  altsum k (λ i, (Z.of_nat k - Z.of_nat i) ^ Z.of_nat n).

Fixpoint stirling (n k : nat) : nat :=
  match n, k with
  | O, O => 1
  | O, S _ => 0
  | S _, O => 0
  | S n', S k' => (S k' * stirling n' (S k') + stirling n' k')%nat
  end.

Module Generator.

(** The attributes set by [__init__]; [logger] is the process-wide log of
    the world below. *)
Record Generator := {
  number_of_nodes : Z;
  number_of_partitions : Z;
  number_of_rounds : Z;
  folder_path : string;
  machine_index : Z;
  number_of_machines : Z;
  filter : testcase → bool;
  f : Z;
  nodes : list Z;
}.

(** [self.folder_path = path] *)
Definition set_folder_path (self : Generator) (path : string) : Generator :=
  {| number_of_nodes := number_of_nodes self;
     number_of_partitions := number_of_partitions self;
     number_of_rounds := number_of_rounds self;
     folder_path := path;
     machine_index := machine_index self;
     number_of_machines := number_of_machines self;
     filter := filter self;
     f := f self;
     nodes := nodes self |}.

(** [target_nodes]: [self.nodes[:self.f]] *)
Definition target_nodes (self : Generator) : list Z :=
  slice_to (nodes self) (f self).

(** [get_twin] *)
Definition get_twin (self : Generator) (node : Z) : result Z :=
  assert (bool_decide (node ∈ target_nodes self));;
  getitem (nodes self) (number_of_nodes self + node).

(** The recursive helper of [make_partitions], on the store.  It returns
    the references of the partitions of its result. *)
Fixpoint stirling2 (fuel : nat) (n k : Z) : prog heap (list loc) :=
  match fuel with
  | O => lift Diverge
  | S fuel =>
      lift (assert ((0 <? n) && (0 <? k)));;
      if k =? 1 then
        b ← alloc (Block (range n));
        p ← alloc (Part [b]);
        mret [p]
      else if k =? n then
        blocks ← for_ (range n) (λ x blocks,
          b ← alloc (Block [x]); mret (blocks ++ [b])) [];
        p ← alloc (Part blocks);
        mret [p]
      else
        s_n1_k1 ← stirling2 fuel (n - 1) (k - 1);
        for_ (range (len s_n1_k1)) (λ i _,
          p ← lift (getitem s_n1_k1 i);
          b ← alloc (Block [n - 1]);
          list_append p b) ();;
        tmp ← stirling2 fuel (n - 1) k;
        k_s_n1_k ← for_ (range k) (λ _ k_s_n1_k,
          copy ← deepcopy tmp; mret (k_s_n1_k ++ copy)) [];
        for_ (range (len tmp * k)) (λ i _,
          p ← lift (getitem k_s_n1_k i);
          b ← list_getitem p (i / len tmp);
          list_iadd b [n - 1];;
          list_setitem p (i / len tmp) b) ();;
        mret (s_n1_k1 ++ k_s_n1_k)
  end.

(** [make_partitions]: the recursion on an empty store, and the value of
    what it returns (nothing mutates the partitions afterwards).  Every
    call of [stirling2] either fails its assertion or recurses on
    [n - 1], so [n + 1] levels are enough. *)
Definition make_partitions (self : Generator) : result (list partition) :=
  ((partitions ← stirling2 (S (Z.to_nat (len (nodes self))))
                    (len (nodes self)) (number_of_partitions self);
    read_parts partitions) []).1.

(** [combine_partitions_with_leaders] *)
Definition combine_partitions_with_leaders (self : Generator)
    (partitions : list partition) : list scenario :=
  partition ← partitions; leader ← target_nodes self; [(leader, partition)].

(** [combine_scenarios_with_rounds] *)
Definition combine_scenarios_with_rounds (self : Generator)
    (scenarios : list scenario) : result (list testcase) :=
  product scenarios (number_of_rounds self).

(** The list built by the comprehension of [S]. *)
Definition S_terms (n k : Z) : list Z :=
  (λ i, (-1) ^ i * (factorial k / factorial i / factorial (k - i))
        * (k - i) ^ n) <$> range (k + 1).

(** [S]: the closed form of the Stirling numbers of the second kind.  The
    two [isinstance] assertions hold by typing. *)
Definition S (n k : Z) : result Z :=
  assert ((0 <? n) && (0 <? k) && (k <=? n));;
  Ok (sum (S_terms n k) / factorial k).

(** [testcases_length] *)
Definition testcases_length (self : Generator) : result Z :=
  total ← S (len (nodes self)) (number_of_partitions self);
  let total := total * len (target_nodes self) in
  let total := total ^ number_of_rounds self in
  Ok total.

(** *** Output format *)

Module JSONFormat.

(** [JSONFormat._format_scenario] *)
Definition _format_scenario (generator : Generator) (testcase : testcase)
    : result (gmap Z (list Z) * gmap Z partition) :=
  for_ (enumerate testcase)
    (λ '(round_number, scenario) '(round_leaders, round_partitions),
      let '(leader, partition) := scenario in
      let leaders := [leader] in
      leaders ← (if bool_decide (leader ∈ target_nodes generator)
                 then twin ← get_twin generator leader; Ok (leaders ++ [twin])
                 else Ok leaders);
      Ok (<[round_number + 1 := leaders]> round_leaders,
          <[round_number + 1 := partition]> round_partitions))
    (∅, ∅).

(** [JSONFormat.make] *)
Definition make (generator : Generator) (testcases : list testcase)
    (filter : testcase → bool) : result json :=
  scenarios ← for_ testcases (λ testcase scenarios,
    if filter testcase then
      xy ← _format_scenario generator testcase;
      Ok (scenarios ++ [{| round_leaders := xy.1; round_partitions := xy.2 |}])
    else Ok scenarios) [];
  Ok {| num_of_nodes := number_of_nodes generator;
        num_of_twins := f generator;
        scenarios := scenarios |}.

End JSONFormat.

(** *** Writing and orchestration *)

(** [_print]: the work of one worker process. *)
Definition _print (self : Generator) (testcases : list testcase)
    (process_id : Z) (dryrun : bool) (testcases_per_file : Z)
    : prog filesystem unit :=
  chunks ← lift (ichunked testcases testcases_per_file);
  for_ (enumerate chunks) (λ '(i, chunk) _,
    let basename :=
      "testcase-" +:+ pretty (machine_index self) +:+ "-" +:+ pretty process_id in
    let filename :=
      if dryrun then "tmp-" +:+ basename else basename +:+ "-" +:+ pretty i in
    data ← lift (JSONFormat.make self chunk (filter self));
    open_append (join (folder_path self) filename) data) ().

(** [print]: one process per worker, started in turn, then all joined.
    The exit codes of the processes are not read. *)
Definition print (self : Generator) (testcases : list testcase)
    (dryrun : bool) (workers : Z) (testcases_per_file : Z)
    : prog filesystem unit :=
  chunks ← lift (distribute workers testcases);
  jobs ← for_ (range workers) (λ i jobs,
    chunk ← lift (getitem chunks i);
    p ← Process_start (_print self chunk i dryrun testcases_per_file);
    mret (jobs ++ [p])) [];
  for_ jobs (λ p _, lift (Process_join p)) ().

Definition get_self : prog (Generator * world) Generator := λ st,
  (Ok st.1, st).

Definition set_self (self : Generator) : prog (Generator * world) unit :=
  λ st, (Ok (), (self, st.2)).

Definition in_world {A} (m : prog world A) : prog (Generator * world) A :=
  zoom snd (λ w st, (st.1, w)) m.

Definition in_fs {A} (m : prog filesystem A) : prog (Generator * world) A :=
  in_world (zoom fs set_fs m).

(** [run]: the state is the instance [self] and the world.  The
    arguments of the debug messages are evaluated whatever the log level. *)
Definition run (dryrun workers testcases_per_file : pyval)
    : prog (Generator * world) unit :=
  let ok := isinstance_bool dryrun in
  let ok := ok && isinstance_int workers in
  let ok := ok && isinstance_int testcases_per_file in
  if negb ok then
    let message := "Bad input types." in
    in_world (logger (LogError TypeError message));;
    raise TypeError
  else
  let ok := ok && (0 <? int_of workers) in
  let ok := ok && (0 <? int_of testcases_per_file) in
  if negb ok then
    let message := "Bad input values." in
    in_world (logger (LogError ValueError message));;
    raise ValueError
  else
  let dryrun := bool_of dryrun in
  let workers := int_of workers in
  let testcases_per_file := int_of testcases_per_file in
  self ← get_self;
  n ← lift (testcases_length self);
  in_world (logger (LogInfoGenerating n));;
  (* Make partitions *)
  in_world (logger (LogDebug 1));;
  partitions ← lift (make_partitions self);
  lift (S (len (nodes self)) (number_of_partitions self));;
  in_world (logger (LogDebug 2));;
  (* Combine partitions with leaders *)
  lift (S (len (nodes self)) (number_of_partitions self));;
  in_world (logger (LogDebug 3));;
  let scenarios := combine_partitions_with_leaders self partitions in
  lift (S (len (nodes self)) (number_of_partitions self));;
  lift (n ← testcases_length self; float_root n (number_of_rounds self));;
  in_world (logger (LogDebug 4));;
  (* Combine the partition-leader scenarios from above with rounds *)
  lift (n ← testcases_length self; float_root n (number_of_rounds self));;
  in_world (logger (LogDebug 5));;
  testcases ← lift (combine_scenarios_with_rounds self scenarios);
  lift (n ← testcases_length self; float_root n (number_of_rounds self));;
  lift (testcases_length self);;
  in_world (logger (LogDebug 6));;
  (* Print the resulting testcases to files *)
  in_world (logger (LogDebug 7));;
  testcases ← lift (distribute (number_of_machines self) testcases);
  with_ (if dryrun then in_fs (d ← TemporaryDirectory_enter; mret (Some d))
         else mret None)
        (λ directory, match directory with
                      | Some d => in_fs (TemporaryDirectory_exit d)
                      | None => mret ()
                      end)
        (λ directory,
          set_self (match directory with
                    | Some d => set_folder_path self d
                    | None => self
                    end);;
          self ← get_self;
          shard ← lift (getitem testcases (machine_index self - 1));
          in_fs (print self shard dryrun workers testcases_per_file));;
  in_world (logger LogInfoFinished).

(** [__init__]: the constructor, from the arguments as the caller passes
    them ([filter] is [None] or a predicate). *)
Definition __init__ (number_of_nodes number_of_partitions number_of_rounds : pyval)
    (filter : option (testcase → bool))
    (folder_path machine_index number_of_machines : pyval)
    : prog world Generator :=
  let ok := isinstance_int number_of_nodes in
  let ok := ok && isinstance_int number_of_partitions in
  let ok := ok && isinstance_int number_of_rounds in
  let ok := ok && isinstance_str folder_path in
  let ok := ok && isinstance_int machine_index in
  let ok := ok && isinstance_int number_of_machines in
  if negb ok then
    let message := "Bad input types." in
    logger (LogError TypeError message);;
    raise TypeError
  else
  let ok := ok && (0 <? int_of number_of_nodes) in
  let ok := ok && (0 <? int_of number_of_partitions) in
  let ok := ok && (0 <? int_of number_of_rounds) in
  let ok := ok && (0 <? int_of machine_index) in
  let ok := ok && (int_of machine_index <=? int_of number_of_machines) in
  if negb ok then
    let message := "Bad input values." in
    logger (LogError ValueError message);;
    raise ValueError
  else
  let f := (int_of number_of_nodes - 1) / 3 in
  let self := {|
    number_of_nodes := int_of number_of_nodes;
    number_of_partitions := int_of number_of_partitions;
    number_of_rounds := int_of number_of_rounds;
    folder_path := str_of folder_path;
    machine_index := int_of machine_index;
    number_of_machines := int_of number_of_machines;
    filter := default (λ t, negb (bool_decide (t = []))) filter;
    f := f;
    nodes := range (int_of number_of_nodes + f) |} in
  if len (nodes self) <? Generator.number_of_partitions self then
    let message :=
      "There should be at least as many nodes as partitions. Input: "
      +:+ pretty (len (nodes self)) +:+ " nodes and "
      +:+ pretty (Generator.number_of_partitions self) +:+ " partitions." in
    logger (LogError ValueError message);;
    raise ValueError
  else
  n ← lift (testcases_length self);
  (if 1000000000 <? n
   then logger (LogWarning
     "Running the generator with these configurations will generate more than 1 billion testcases.")
   else mret ());;
  logger (LogInfoRepr (Generator.number_of_nodes self)
            (Generator.number_of_partitions self)
            (Generator.number_of_rounds self) (Generator.folder_path self)
            (Generator.machine_index self) (Generator.number_of_machines self));;
  mret self.

End Generator.

(** ** Proof devices for the enumeration

    The two ways the recurrence extends a partition of [0..n-1], the list
    the loops of [stirling2] compute, and a partition seen as a set of
    sets. *)

Definition new_block (x : Z) (p : partition) : partition := p ++ [[x]].

Definition extend_block (x : Z) (j : nat) (p : partition) : partition :=
  alter (λ b, b ++ [x]) j p.

Fixpoint parts (n k : nat) : list partition :=
  match n with
  | O => []
  | S n' =>
      if (k =? 1)%nat then [[range (Z.of_nat n)]]
      else if (k =? n)%nat then [(λ x, [x]) <$> range (Z.of_nat n)]
      else (new_block (Z.of_nat n') <$> parts n' (k - 1))
           ++ (j ← seq 0 k; extend_block (Z.of_nat n') j <$> parts n' k)
  end.

Definition sos (p : partition) : gset (gset Z) :=
  list_to_set ((list_to_set <$> p) : list (gset Z)).

(** Remove [x] from every block and drop the block that becomes empty. *)
Definition strip (x : Z) (P : gset (gset Z)) : gset (gset Z) :=
  set_map (λ B : gset Z, B ∖ {[x]}) P ∖ {[∅]}.

(** The invariant of the recursion: [k] non-empty blocks that list
    [0..n-1] once each. *)
Definition good (n k : nat) (p : partition) : Prop :=
  length p = k ∧ Forall (λ b, b ≠ []) p ∧ concat p ≡ₚ range (Z.of_nat n).

(** What the claim asks of one partition of [{0, ..., n-1}] into [k]
    blocks. *)
Definition is_partition (n k : Z) (p : partition) : Prop :=
  len p = k
  ∧ Forall (λ b, b ≠ []) p
  ∧ (∀ i j b b', p !! i = Some b → p !! j = Some b' → i ≠ j →
       ∀ x, x ∈ b → x ∉ b')
  ∧ NoDup (concat p)
  ∧ (∀ x, x ∈ concat p ↔ 0 <= x < n).

(** ** Proof devices for the store

    The shape of a list of partitions in the store: the location of each
    partition with, for each of its blocks, the block's location and
    items.  [separated] says that the store holds this shape, that no
    location occurs twice in it (no object is shared) and that all its
    locations are at least [lo] (allocated by the call at hand). *)
Abbreviation entry := (nat * list (nat * list Z))%type (only parsing).

Definition entry_locs (e : entry) : list nat := e.1 :: e.2.*1.

Definition locs (sh : list entry) : list nat := sh ≫= entry_locs.

Definition entry_ok (h : heap) (e : entry) : Prop :=
  h !! e.1 = Some (Part e.2.*1)
  ∧ Forall (λ bi : nat * list Z, h !! bi.1 = Some (Block bi.2)) e.2.

Definition refs (sh : list entry) : list nat := sh.*1.

Definition vals (sh : list entry) : list partition := (λ e, e.2.*2) <$> sh.

Definition separated (lo : nat) (h : heap) (sh : list entry) : Prop :=
  Forall (entry_ok h) sh ∧ NoDup (locs sh) ∧ Forall (λ l, lo ≤ l)%nat (locs sh).

(** The store grew and kept what it had below [lo]. *)
Definition frame (lo : nat) (h h' : heap) : Prop :=
  (length h ≤ length h')%nat ∧ ∀ l, (l < lo)%nat → h' !! l = h !! l.

(** ** Fixtures and invariants *)

(** What the constructor establishes of the instance it returns. *)
Definition wf (self : Generator.Generator) : Prop :=
  0 < Generator.number_of_nodes self
  ∧ 0 < Generator.number_of_partitions self
  ∧ 0 < Generator.number_of_rounds self
  ∧ 0 < Generator.machine_index self <= Generator.number_of_machines self
  ∧ Generator.f self = (Generator.number_of_nodes self - 1) / 3
  ∧ Generator.nodes self
    = range (Generator.number_of_nodes self + Generator.f self)
  ∧ Generator.number_of_partitions self <= len (Generator.nodes self).

(** The instance [__init__] builds from arguments of the right types. *)
Definition mk_self (number_of_nodes number_of_partitions number_of_rounds : pyval)
    (filter : option (testcase → bool))
    (folder_path machine_index number_of_machines : pyval)
    : Generator.Generator := {|
  Generator.number_of_nodes := int_of number_of_nodes;
  Generator.number_of_partitions := int_of number_of_partitions;
  Generator.number_of_rounds := int_of number_of_rounds;
  Generator.folder_path := str_of folder_path;
  Generator.machine_index := int_of machine_index;
  Generator.number_of_machines := int_of number_of_machines;
  Generator.filter := default (λ t, negb (bool_decide (t = []))) filter;
  Generator.f := (int_of number_of_nodes - 1) / 3;
  Generator.nodes :=
    range (int_of number_of_nodes + (int_of number_of_nodes - 1) / 3) |}.

(** The two checks of [__init__], as the source accumulates them. *)
Definition init_types_ok (nn k r fp mi nm : pyval) : bool :=
  isinstance_int nn && isinstance_int k && isinstance_int r
  && isinstance_str fp && isinstance_int mi && isinstance_int nm.

Definition init_values_ok (nn k r mi nm : pyval) : bool :=
  (0 <? int_of nn) && (0 <? int_of k) && (0 <? int_of r)
  && (0 <? int_of mi) && (int_of mi <=? int_of nm).

(** The state a failed check leaves: one error record, nothing else. *)
Definition logged (e : exn) (message : string) (w : world) : world :=
  set_log (log w ++ [LogError e message]) w.

(** A folder every file of which can be opened for appending. *)
Definition writable (x : filesystem) (folder : string) : Prop :=
  folder ∈ dirs x ∧ ∀ name, (folder, name) ∉ denied x.

(** The file chunk [i] of worker [process_id] is written to. *)
Definition chunk_path (self : Generator.Generator) (process_id : Z)
    (dryrun : bool) (i : Z) : string * string :=
  join (Generator.folder_path self)
    (if dryrun
     then "tmp-" +:+ ("testcase-" +:+ pretty (Generator.machine_index self)
                      +:+ "-" +:+ pretty process_id)
     else ("testcase-" +:+ pretty (Generator.machine_index self)
           +:+ "-" +:+ pretty process_id) +:+ "-" +:+ pretty i).

(** What the workers leave behind: every worker's [_print] is run on its
    shard, in the order of the worker ids, whatever the earlier ones
    returned. *)
Definition run_workers (self : Generator.Generator)
    (shards : list (list testcase)) (dryrun : bool) (testcases_per_file : Z)
    (x : filesystem) : filesystem :=
  foldl (λ x (ic : Z * list testcase),
           (Generator._print self ic.2 ic.1 dryrun testcases_per_file x).2)
        x (enumerate shards).

(** The exit code of worker [process_id] started on [x]. *)
Definition worker_exitcode (self : Generator.Generator)
    (shard : list testcase) (process_id : Z) (dryrun : bool)
    (testcases_per_file : Z) (x : filesystem) : option Z :=
  match Process_start
          (Generator._print self shard process_id dryrun testcases_per_file) x
  with
  | (Ok p, _) => exitcode p
  | _ => None
  end.

(** The testcases of the whole space, the share of this machine and the
    shares of its workers, as [run] computes them. *)
Definition pipeline (self : Generator.Generator) : list testcase :=
  product_pow
    (Generator.combine_partitions_with_leaders self
       (parts (length (Generator.nodes self))
              (Z.to_nat (Generator.number_of_partitions self))))
    (Z.to_nat (Generator.number_of_rounds self)).

Definition machine_shard (self : Generator.Generator) : list testcase :=
  islice (pipeline self) (Z.to_nat (Generator.machine_index self - 1))
         (Z.to_nat (Generator.number_of_machines self)).

Definition worker_shards (self : Generator.Generator) (workers : Z)
    : list (list testcase) :=
  (λ index, islice (machine_shard self) index (Z.to_nat workers))
    <$> seq 0 (Z.to_nat workers).

(** The records a complete [run] logs, and the file system it leaves. *)
Definition run_log (n : Z) : list log_record :=
  [LogInfoGenerating n; LogDebug 1; LogDebug 2; LogDebug 3; LogDebug 4;
   LogDebug 5; LogDebug 6; LogDebug 7; LogInfoFinished].

Definition run_fs (self : Generator.Generator) (dryrun : bool)
    (workers testcases_per_file : Z) (x : filesystem) : filesystem :=
  if dryrun then
    let directory := fresh (dirs x) in
    (TemporaryDirectory_exit directory
       (run_workers (Generator.set_folder_path self directory)
          (worker_shards self workers) true testcases_per_file
          (TemporaryDirectory_enter x).2)).2
  else run_workers self (worker_shards self workers) false testcases_per_file x.

(** What a piece of writer code may do to the file system: open files of
    one folder, and write to them only if that folder exists. *)
Definition touches_only (folder : string) (x x' : filesystem) : Prop :=
  dirs x' = dirs x ∧ denied x' = denied x
  ∧ (∃ new, opened x' = opened x ++ new ∧ Forall (λ p, p.1 = folder) new)
  ∧ (folder ∉ dirs x → files x' = files x).

(** A world with the current directory and nothing else. *)
Definition fs0 : filesystem :=
  {| dirs := {["./"]}; files := ∅; denied := ∅; opened := [] |}.

Definition w0 : world := {| log := []; fs := fs0 |}.

(** The fixture of the repository's tests: [Generator(4, 2, 3)]. *)
Definition gen : Generator.Generator := {|
  Generator.number_of_nodes := 4;
  Generator.number_of_partitions := 2;
  Generator.number_of_rounds := 3;
  Generator.folder_path := "./";
  Generator.machine_index := 1;
  Generator.number_of_machines := 1;
  Generator.filter := λ t, negb (bool_decide (t = []));
  Generator.f := 1;
  Generator.nodes := [0; 1; 2; 3; 4] |}.

(** [Generator(4, 2, 1)], and a file system where the first file of
    worker 0 cannot be opened. *)
Definition gen1 : Generator.Generator := {|
  Generator.number_of_nodes := 4;
  Generator.number_of_partitions := 2;
  Generator.number_of_rounds := 1;
  Generator.folder_path := "./";
  Generator.machine_index := 1;
  Generator.number_of_machines := 1;
  Generator.filter := λ t, negb (bool_decide (t = []));
  Generator.f := 1;
  Generator.nodes := [0; 1; 2; 3; 4] |}.

Definition fs_denied : filesystem :=
  {| dirs := {["./"]}; files := ∅;
     denied := {[("./", "testcase-1-0-0")]}; opened := [] |}.

(** ** Fixtures and proof devices for the further properties *)

(** A list in strictly increasing order; a partition in canonical form:
    every block increasing, and the blocks in increasing order of their
    first node. *)
Definition increasing (l : list Z) : Prop :=
  ∀ i j x y, (i < j)%nat → l !! i = Some x → l !! j = Some y → x < y.

Definition canonical (p : partition) : Prop :=
  Forall increasing p ∧ increasing (omap head p).

(** The leaders [_format_scenario] lists for a round: the leader, and
    its twin when the leader is a target node. *)
Definition leaders_of (self : Generator.Generator) (leader : Z) : list Z :=
  if bool_decide (leader ∈ Generator.target_nodes self)
  then [leader; Generator.number_of_nodes self + leader]
  else [leader].

(** The files after the documents [pds] were appended, in order, each to
    the file at its path ([open(path, 'a')] creates the file when it does
    not exist and keeps what it holds when it does). *)
Definition appended (pds : list ((string * string) * json))
    (fl : gmap (string * string) (list json))
    : gmap (string * string) (list json) :=
  foldl (λ fl pd, <[pd.1 := default [] (fl !! pd.1) ++ [pd.2]]> fl) fl pds.

(** The paths worker [process_id] opens for [n] chunks, in order. *)
Definition chunk_paths (self : Generator.Generator) (process_id : Z)
    (dryrun : bool) (n : nat) : list (string * string) :=
  (λ i : nat, chunk_path self process_id dryrun (Z.of_nat i)) <$> seq 0 n.

(** A path [open] accepts for appending: its folder exists and nothing
    denies the file. *)
Definition openable (x : filesystem) (path : string * string) : Prop :=
  path.1 ∈ dirs x ∧ path ∉ denied x.

(** The character [-] (code 45), and a string without it. *)
Definition dash : Ascii.ascii := Ascii.ascii_of_nat 45.

Fixpoint dashless (s : string) : bool :=
  match s with
  | EmptyString => true
  | String c s' => negb (Ascii.eqb c dash) && dashless s'
  end.

(** Every file lies in an existing directory. *)
Definition fs_wf (x : filesystem) : Prop :=
  ∀ p, is_Some (files x !! p) → p.1 ∈ dirs x.

(** The files outside [folder] are as they were. *)
Definition same_outside (folder : string) (x x' : filesystem) : Prop :=
  ∀ p, p.1 ≠ folder → files x' !! p = files x !! p.

(** [Generator(4, 2, 263)]: the forecast [15 ^ 263] no longer fits a
    float. *)
Definition gen_huge : Generator.Generator := {|
  Generator.number_of_nodes := 4;
  Generator.number_of_partitions := 2;
  Generator.number_of_rounds := 263;
  Generator.folder_path := "./";
  Generator.machine_index := 1;
  Generator.number_of_machines := 1;
  Generator.filter := λ t, negb (bool_decide (t = []));
  Generator.f := 1;
  Generator.nodes := [0; 1; 2; 3; 4] |}.

(** ** The command line ([cli.py])

    The script parses its arguments, checks them, configures the log
    level and then builds a generator and runs it. *)
Module cli.

(** What [parser.parse_args()] returns.  [--nodes], [--partitions] and
    [--rounds] have no default and are [None] when absent; the integer
    options are converted by [type=int]. *)
Record Namespace := {
  nodes : option Z;
  partitions : option Z;
  rounds : option Z;
  testcases_per_file : Z;
  path : string;
  index : Z;
  machines : Z;
  workers : Z;
  verb : bool;
  dryrun : bool;
}.

(** The calls of [parser.error] of the script, in source order; each
    prints the usage with its message and exits with status 2. *)
Inductive usage_error :=
  | MustBeSupplied        (* nodes, rounds and partitions must be supplied *)
  | MustBePositive        (* nodes, rounds and partitions must be positive *)
  | BadTestcasesPerFile
  | BadMachine            (* invalid machine index or number of machines *)
  | BadWorkers.

(** How the script ends. *)
Inductive outcome :=
  | Usage (e : usage_error)   (* [parser.error]: exit status 2 *)
  | Traceback (e : exn)       (* an exception nothing catches: status 1 *)
  | Returned                  (* the end of the script: status 0 *)
  | Hangs.

(** The section [# Sanitize]: the first check that fails, if any. *)
Definition sanitize (args : Namespace) : option usage_error :=
  match nodes args, partitions args, rounds args with
  | Some n, Some k, Some r =>
      if (n <=? 0) || (k <=? 0) || (r <=? 0) then Some MustBePositive
      else if testcases_per_file args <=? 0 then Some BadTestcasesPerFile
      else if (index args <=? 0) || (machines args <? index args)
      then Some BadMachine
      else if workers args <=? 0 then Some BadWorkers
      else None
  | _, _, _ => Some MustBeSupplied
  end.

(** The body of the script after [parse_args].  Past the checks the
    three counts are integers ([default] is never used on [None]).
    [logging.basicConfig] sets which records are printed; the log of the
    world holds the calls made to the logger, whatever the level. *)
Definition main (args : Namespace) (w : world) : outcome * world :=
  match sanitize args with
  | Some e => (Usage e, w)
  | None =>
      match
        Generator.__init__
          (VInt (default 0 (nodes args)))
          (VInt (default 0 (partitions args)))
          (VInt (default 0 (rounds args)))
          None (VStr (path args)) (VInt (index args)) (VInt (machines args)) w
      with
      | (Ok generator, w) =>
          match
            Generator.run (VBool (dryrun args)) (VInt (workers args))
              (VInt (testcases_per_file args)) (generator, w)
          with
          | (Ok _, st) => (Returned, st.2)
          | (Raise e, st) => (Traceback e, st.2)
          | (Diverge, st) => (Hangs, st.2)
          end
      | (Raise e, w) => (Traceback e, w)
      | (Diverge, w) => (Hangs, w)
      end
  end.

End cli.

(** The arguments of the usage example of the script:
    [--nodes 4 --partitions 2 --rounds 4 --workers 16 -dryrun]. *)
Definition example_args : cli.Namespace := {|
  cli.nodes := Some 4;
  cli.partitions := Some 2;
  cli.rounds := Some 4;
  cli.testcases_per_file := 100;
  cli.path := "./";
  cli.index := 1;
  cli.machines := 1;
  cli.workers := 16;
  cli.verb := false;
  cli.dryrun := true |}.

(** The document [_print] writes for a chunk ([JSONFormat.make] returns
    for every instance the constructor built). *)
Definition document (self : Generator.Generator) (chunk : list testcase)
    : json :=
  match Generator.JSONFormat.make self chunk (Generator.filter self) with
  | Ok data => data
  | _ => {| num_of_nodes := 0; num_of_twins := 0; scenarios := [] |}
  end.

(** The chunks of a shard. *)
Definition chunks (testcases_per_file : Z) (shard : list testcase)
    : list (list testcase) :=
  chunks_of (length shard) (Z.to_nat testcases_per_file) shard.

(** What worker [process_id] appends, in order: the path and the document
    of each chunk of its shard; and what the workers numbered from [a] on
    append, one worker after the other. *)
Definition written_by (self : Generator.Generator) (process_id : Z)
    (dryrun : bool) (testcases_per_file : Z) (shard : list testcase)
    : list ((string * string) * json) :=
  zip (chunk_paths self process_id dryrun
         (length (chunks testcases_per_file shard)))
      (document self <$> chunks testcases_per_file shard).

Fixpoint all_written (self : Generator.Generator) (dryrun : bool)
    (testcases_per_file : Z) (a : nat) (shards : list (list testcase))
    : list ((string * string) * json) :=
  match shards with
  | [] => []
  | shard :: shards =>
      written_by self (Z.of_nat a) dryrun testcases_per_file shard
      ++ all_written self dryrun testcases_per_file (S a) shards
  end.

(** * Properties *)

(** The expected value of the repository's [test_make_partitions]:
    [Generator(4, 2, 8)] has five nodes. *)
Example make_partitions_5_2 :
  Generator.make_partitions gen = Ok [
        [[0; 1; 2; 3]; [4]];
        [[0; 1; 2; 4]; [3]];
        [[0; 1; 3; 4]; [2]];
        [[0; 2; 3; 4]; [1]];
        [[0; 3; 4]; [1; 2]];
        [[0; 1; 4]; [2; 3]];
        [[0; 2; 4]; [1; 3]];
        [[0; 4]; [1; 2; 3]];
        [[0; 1; 2]; [3; 4]];
        [[0; 1; 3]; [2; 4]];
        [[0; 2; 3]; [1; 4]];
        [[0; 3]; [1; 2; 4]];
        [[0; 1]; [2; 3; 4]];
        [[0; 2]; [1; 3; 4]];
        [[0]; [1; 2; 3; 4]]].
Proof. vm_compute. reflexivity. Qed.

(** ** The closed form is the Stirling number *)

Module CombinatoricsFacts.

Lemma sumZ_ext g h m :
  (∀ i, (i < m)%nat → g i = h i) → sumZ g m = sumZ h m.
Proof.
  induction m as [|m IH]; intros E; simpl; [done|].
  rewrite IH, E by (intros; try apply E; lia). done.
Qed.

Lemma sumZ_plus g h m : sumZ (λ i, g i + h i) m = sumZ g m + sumZ h m.
Proof. induction m as [|m IH]; simpl; lia. Qed.

Lemma sumZ_scale c g m : sumZ (λ i, c * g i) m = c * sumZ g m.
Proof. induction m as [|m IH]; simpl; lia. Qed.

Lemma sumZ_S g m : sumZ g (S m) = sumZ g m + g m.
Proof. done. Qed.

Lemma sumZ_head g m : sumZ g (S m) = g O + sumZ (λ i, g (S i)) m.
Proof. induction m as [|m IH]; [simpl; lia|]. simpl in *. lia. Qed.

Lemma binom_gt n k : (n < k)%nat → binom n k = 0.
Proof.
  revert k. induction n as [|n IH]; intros [|k] H; simpl; try lia.
  rewrite !IH by lia. lia.
Qed.

Lemma binom_diag n : binom n n = 1.
Proof. induction n as [|n IH]; simpl; [done|]. rewrite IH, binom_gt by lia. lia. Qed.

Lemma binom_nonneg n k : 0 <= binom n k.
Proof. revert k. induction n as [|n IH]; intros [|k]; simpl; try lia.
  specialize (IH k) as H1. specialize (IH (S k)) as H2. lia. Qed.

Lemma binom_0 n : binom n 0 = 1.
Proof. by destruct n. Qed.

Lemma binom_pascal n k :
  binom (S n) (S k) = binom n k + binom n (S k).
Proof. done. Qed.

(** Absorption: [(n+1-i) * C(n+1,i) = (n+1) * C(n,i)]. *)
Lemma binom_absorb n i :
  (Z.of_nat n + 1 - Z.of_nat i) * binom (S n) i
  = (Z.of_nat n + 1) * binom n i.
Proof.
  revert i. induction n as [|n IH]; intros [|i].
  - simpl. lia.
  - destruct i; simpl; lia.
  - simpl. lia.
  - pose proof (IH i) as H1. pose proof (IH (S i)) as H2.
    rewrite (binom_pascal (S n) i).
    rewrite (binom_pascal n i) in H2 |- *.
    rewrite !Nat2Z.inj_succ in *. nia.
Qed.

(** [k! = C(k,i) * i! * (k-i)!], so the two floor divisions of the source
    are exact and give the binomial coefficient. *)
Lemma fact_pos n : 0 < fact n.
Proof. induction n as [|n IH]; simpl fact; lia. Qed.

Lemma fact_S n : fact (S n) = Z.of_nat (S n) * fact n.
Proof. done. Qed.

Lemma binom_fact k i :
  (i ≤ k)%nat → fact k = binom k i * fact i * fact (k - i).
Proof.
  revert i. induction k as [|k IH]; intros i Hi.
  - assert (i = O) by lia. subst. simpl. lia.
  - destruct (decide (i = S k)) as [->|Hne].
    + rewrite binom_diag, Nat.sub_diag. simpl fact at 3. lia.
    + pose proof (binom_absorb k i) as Ha.
      replace (S k - i)%nat with (S (k - i)) by lia.
      rewrite !fact_S, (IH i) by lia.
      rewrite !Nat2Z.inj_succ, Nat2Z.inj_sub by lia.
      transitivity ((Z.of_nat k + 1) * binom k i * (fact i * fact (k - i)));
        [ring|].
      rewrite <- Ha. ring.
Qed.

Lemma binom_div k i :
  (i ≤ k)%nat → fact k / fact i / fact (k - i) = binom k i.
Proof.
  intros Hi. pose proof (fact_pos i). pose proof (fact_pos (k - i)).
  rewrite (binom_fact k i Hi).
  replace (binom k i * fact i * fact (k - i))
    with (binom k i * fact (k - i) * fact i) by lia.
  rewrite Z.div_mul by lia. rewrite Z.div_mul by lia. done.
Qed.

Lemma pow_m1_S i : (-1) ^ Z.of_nat (S i) = - (-1) ^ Z.of_nat i.
Proof. rewrite Nat2Z.inj_succ, Z.pow_succ_r by lia. lia. Qed.

Lemma altsum_full k w :
  sumZ (λ i, (-1) ^ Z.of_nat i * binom k i * w i) (S (S k))
  = altsum k w.
Proof.
  unfold altsum. rewrite (sumZ_S _ (S k)), binom_gt by lia. lia.
Qed.

(** Pascal's rule, summed: the heart of both the vanishing of the plain
    alternating sum and the recurrence of [alt]. *)
Lemma altsum_step k w :
  altsum (S k) w = altsum k w - altsum k (λ i, w (S i)).
Proof.
  rewrite <- (altsum_full k w). unfold altsum at 1 2.
  rewrite (sumZ_head _ (S k)).
  rewrite (sumZ_head (λ i, (-1) ^ Z.of_nat i * binom k i * w i)).
  rewrite (sumZ_ext _ (λ i,
    (-1) * ((-1) ^ Z.of_nat i * binom k i * w (S i))
    + (-1) ^ Z.of_nat (S i) * binom k (S i)
      * w (S i)) (S k)).
  2:{ intros i _. rewrite binom_pascal, pow_m1_S. ring. }
  rewrite sumZ_plus, sumZ_scale, !binom_0. lia.
Qed.

Lemma altsum_one k : altsum (S k) (λ _, 1) = 0.
Proof. rewrite altsum_step. lia. Qed.

Lemma alt_step n k :
  alt (S n) (S k)
  = (Z.of_nat k + 1) * (alt n (S k) + alt n k).
Proof.
  set (w := λ i : nat, (Z.of_nat (S k) - Z.of_nat i) ^ Z.of_nat n).
  assert (alt n (S k) = altsum (S k) w) as -> by done.
  assert (alt n k = altsum k (λ i, w (S i))) as ->.
  { unfold alt, altsum. apply sumZ_ext. intros i _. unfold w.
    do 2 f_equal. lia. }
  rewrite altsum_step.
  replace (altsum k w - altsum k (λ i, w (S i))
           + altsum k (λ i, w (S i))) with (altsum k w) by lia.
  rewrite <- altsum_full, <- sumZ_scale.
  unfold alt, altsum. apply sumZ_ext. intros i _. unfold w.
  rewrite (Nat2Z.inj_succ n), Z.pow_succ_r by lia.
  pose proof (binom_absorb k i) as Ha. rewrite Nat2Z.inj_succ.
  transitivity ((-1) ^ Z.of_nat i
    * ((Z.of_nat k + 1 - Z.of_nat i) * binom (S k) i)
    * (Z.succ (Z.of_nat k) - Z.of_nat i) ^ Z.of_nat n).
  { replace (Z.succ (Z.of_nat k)) with (Z.of_nat k + 1) by lia. ring. }
  rewrite Ha. ring.
Qed.

Lemma stirling_SS n k :
  stirling (S n) (S k)
  = (S k * stirling n (S k) + stirling n k)%nat.
Proof. done. Qed.

(** The alternating sum is [k!] times the Stirling number. *)
Lemma alt_stirling n k : alt n k = fact k * Z.of_nat (stirling n k).
Proof.
  revert k. induction n as [|n IH]; intros [|k].
  - done.
  - change (alt 0 (S k)) with (altsum (S k) (λ _, 1)).
    rewrite altsum_one. simpl. lia.
  - unfold alt, altsum. simpl sumZ. rewrite Z.pow_0_l by lia. simpl. lia.
  - rewrite alt_step, !IH, stirling_SS, !fact_S.
    rewrite Nat2Z.inj_add, Nat2Z.inj_mul, !Nat2Z.inj_succ. ring.
Qed.

Lemma sum_app l1 l2 : sum (l1 ++ l2) = sum l1 + sum l2.
Proof. induction l1 as [|x l1 IH]; simpl; lia. Qed.

Lemma sum_range g (m : nat) :
  sum (g <$> range (Z.of_nat m)) = sumZ (λ i, g (Z.of_nat i)) m.
Proof.
  unfold range. rewrite Nat2Z.id.
  induction m as [|m IH]; [done|].
  rewrite seq_S, !fmap_app, sum_app, IH. simpl. lia.
Qed.

Lemma S_terms_sum n k :
  1 <= k <= n →
  sum (Generator.S_terms n k) = alt (Z.to_nat n) (Z.to_nat k).
Proof.
  intros H. unfold Generator.S_terms.
  replace (k + 1) with (Z.of_nat (S (Z.to_nat k))) by lia.
  rewrite sum_range. unfold alt, altsum. apply sumZ_ext. intros i Hi.
  unfold factorial. rewrite Nat2Z.id, Z2Nat.inj_sub, Nat2Z.id by lia.
  rewrite binom_div by lia. rewrite !Z2Nat.id by lia. done.
Qed.

Lemma S_assert n k :
  1 <= k <= n → (0 <? n) && (0 <? k) && (k <=? n) = true.
Proof. intros H. rewrite !andb_true_iff, !Z.ltb_lt, Z.leb_le. lia. Qed.

(** The closed form returns the Stirling number. *)
Lemma S_stirling n k :
  1 <= k <= n →
  Generator.S n k = Ok (Z.of_nat (stirling (Z.to_nat n) (Z.to_nat k))).
Proof.
  intros H. unfold Generator.S. rewrite S_assert by done. simpl.
  rewrite S_terms_sum, alt_stirling by done. unfold factorial.
  pose proof (fact_pos (Z.to_nat k)).
  rewrite Z.mul_comm, Z.div_mul by lia. done.
Qed.

End CombinatoricsFacts.

(** ** The loops of [stirling2] *)

Module LoopFacts.

Lemma bind_Ok {A B} (a : A) (k : A → result B) : (Ok a ≫= k) = k a.
Proof. done. Qed.

Lemma range_nat (m : nat) : range (Z.of_nat m) = Z.of_nat <$> seq 0 m.
Proof. unfold range. by rewrite Nat2Z.id. Qed.

Lemma range_len {A} (l : list A) : range (len l) = Z.of_nat <$> seq 0 (length l).
Proof. apply range_nat. Qed.

Lemma length_range (m : nat) : length (range (Z.of_nat m)) = m.
Proof. rewrite range_nat, length_fmap. apply length_seq. Qed.

Lemma range_S (m : nat) :
  range (Z.of_nat (S m)) = range (Z.of_nat m) ++ [Z.of_nat m].
Proof. rewrite !range_nat, seq_S, fmap_app. done. Qed.

Lemma elem_of_range (m : nat) x : x ∈ range (Z.of_nat m) ↔ 0 <= x < Z.of_nat m.
Proof.
  rewrite range_nat, list_elem_of_fmap. split.
  - intros (i & -> & Hi). apply elem_of_seq in Hi. lia.
  - intros H. exists (Z.to_nat x). split; [lia|]. apply elem_of_seq. lia.
Qed.

Lemma NoDup_range (m : nat) : NoDup (range (Z.of_nat m)).
Proof.
  rewrite range_nat. apply NoDup_fmap_2; [|apply NoDup_seq].
  intros i j. lia.
Qed.

Lemma getitem_nat {A} (l : list A) (i : nat) x :
  l !! i = Some x → getitem l (Z.of_nat i) = Ok x.
Proof.
  intros H. unfold getitem.
  assert ((Z.of_nat i <? 0) = false) as E by (apply Z.ltb_ge; lia).
  rewrite E; simpl; rewrite E. by rewrite Nat2Z.id, H.
Qed.

Lemma setitem_nat {A} (l : list A) (i : nat) x :
  (i < length l)%nat → setitem l (Z.of_nat i) x = Ok (<[i := x]> l).
Proof.
  intros H. unfold setitem, len.
  assert ((Z.of_nat i <? 0) = false) as E by (apply Z.ltb_ge; lia).
  rewrite E; simpl.
  replace ((0 <=? Z.of_nat i) && (Z.of_nat i <? Z.of_nat (length l)))
    with true by (symmetry; apply andb_true_iff; lia).
  by rewrite Nat2Z.id.
Qed.

(** Indexing the [k] copies by [i] and extending block [i / len] is the
    same as extending block [j] of every element of copy [j]. *)
Lemma imap_copies {A} (g : nat → A → A) (t : list A) k a :
  imap (λ i, g ((a * length t + i) / length t)%nat) (concat (replicate k t))
  = (j ← seq a k; g j <$> t).
Proof.
  revert a. induction k as [|k IH]; intros a; [done|].
  simpl replicate. simpl concat. rewrite imap_app. simpl seq.
  change ((a :: seq (S a) k) ≫= (λ j, g j <$> t))
    with ((g a <$> t) ++ (seq (S a) k ≫= (λ j, g j <$> t))).
  f_equal.
  - rewrite <- imap_const. apply imap_ext. intros i x Hi.
    apply lookup_lt_Some in Hi. unfold const. f_equal.
    rewrite Nat.div_add_l by lia. rewrite Nat.div_small by lia. lia.
  - rewrite <- IH. apply imap_ext. intros i x _. simpl. do 2 f_equal. lia.
Qed.

Lemma prog_bind_Ok {St A B} (m : prog St A) (k : A → prog St B) x a x' :
  m x = (Ok a, x') → (m ≫= k) x = k a x'.
Proof. intros H. unfold mbind, prog_bind. by rewrite H. Qed.

End LoopFacts.

(** ** The enumeration of partitions *)

Module EnumerationFacts.
Import CombinatoricsFacts LoopFacts.

Lemma concat_singletons {A} (l : list A) : concat ((λ x, [x]) <$> l) = l.
Proof. induction l as [|x l IH]; simpl; by f_equal. Qed.

Lemma concat_extend_block x j (p : partition) :
  (j < length p)%nat → concat (extend_block x j p) ≡ₚ concat p ++ [x].
Proof.
  unfold extend_block. revert j. induction p as [|b p IH]; intros j Hj.
  - simpl in Hj. lia.
  - destruct j as [|j]; simpl.
    + rewrite <- !app_assoc. apply Permutation_app_head.
      apply Permutation_app_comm.
    + rewrite <- app_assoc. apply Permutation_app_head. apply IH.
      simpl in Hj. lia.
Qed.

Lemma good_new_block n k q :
  good n k q → good (S n) (S k) (new_block (Z.of_nat n) q).
Proof.
  intros (Hl & Hne & Hp). unfold new_block. split; [|split].
  - rewrite length_app. simpl. lia.
  - apply Forall_app. split; [done|]. by repeat constructor.
  - rewrite concat_app, range_S, Hp. simpl. done.
Qed.

Lemma good_extend_block n k q j :
  (j < k)%nat → good n k q → good (S n) k (extend_block (Z.of_nat n) j q).
Proof.
  intros Hj (Hl & Hne & Hp). split; [|split].
  - unfold extend_block. by rewrite length_alter.
  - unfold extend_block. apply Forall_alter; [done|].
    intros b _ _. by destruct b.
  - rewrite concat_extend_block, range_S, Hp by lia. done.
Qed.

Lemma parts_good n k : (1 ≤ k ≤ n)%nat → Forall (good n k) (parts n k).
Proof.
  revert k. induction n as [|n IH]; intros k Hk; [lia|].
  simpl parts. destruct (Nat.eqb_spec k 1) as [->|Hk1].
  { repeat constructor. rewrite range_S. by destruct (range (Z.of_nat n)).
    simpl. by rewrite app_nil_r. }
  destruct (Nat.eqb_spec k (S n)) as [->|Hkn].
  { repeat constructor.
    - by rewrite length_fmap, length_range.
    - apply Forall_fmap, Forall_forall. done.
    - by rewrite concat_singletons. }
  apply Forall_app. split.
  - apply Forall_fmap. eapply Forall_impl; [apply (IH (k - 1)%nat); lia|].
    intros q Hq. simpl. replace k with (S (k - 1)) at 1 by lia.
    by apply good_new_block.
  - apply Forall_bind, Forall_forall. intros j Hj. apply elem_of_seq in Hj.
    simpl. apply Forall_fmap. eapply Forall_impl; [apply (IH k); lia|].
    intros q Hq. simpl. apply good_extend_block; [lia|done].
Qed.

Lemma stirling_gt n k : (n < k)%nat → stirling n k = O.
Proof.
  revert k. induction n as [|n IH]; intros [|k] H; simpl; try lia.
  rewrite !IH by lia. lia.
Qed.

Lemma stirling_diag n : stirling n n = 1%nat.
Proof.
  induction n as [|n IH]; [done|]. simpl. rewrite IH, stirling_gt by lia. lia.
Qed.

Lemma stirling_1 n : stirling (S n) 1 = 1%nat.
Proof. induction n as [|n IH]; [done|]. simpl in *. rewrite IH. by destruct n. Qed.

Lemma length_bind_const {A B} (g : A → list B) (l : list A) m :
  (∀ x, x ∈ l → length (g x) = m) → length (l ≫= g) = (length l * m)%nat.
Proof.
  induction l as [|x l IH]; intros H; [done|].
  change ((x :: l) ≫= g) with (g x ++ (l ≫= g)).
  rewrite length_app, IH, H; [simpl; lia|by left|].
  intros y Hy. apply H. by right.
Qed.

(** The enumeration has as many partitions as the recurrence counts. *)
Lemma parts_length n k : (1 ≤ k ≤ n)%nat → length (parts n k) = stirling n k.
Proof.
  revert k. induction n as [|n IH]; intros k Hk; [lia|].
  simpl parts. destruct (Nat.eqb_spec k 1) as [->|Hk1].
  { by rewrite stirling_1. }
  destruct (Nat.eqb_spec k (S n)) as [->|Hkn].
  { by rewrite stirling_diag. }
  destruct k as [|k]; [lia|].
  rewrite length_app, length_fmap, stirling_SS.
  rewrite (length_bind_const _ _ (length (parts n (S k)))).
  2:{ intros j _. by rewrite length_fmap. }
  rewrite length_seq, !IH by lia.
  replace (S k - 1)%nat with k by lia. lia.
Qed.

(** *** Partitions as sets of sets *)

Lemma elem_of_sos (B : gset Z) p :
  B ∈ sos p ↔ ∃ b, b ∈ p ∧ B = list_to_set b.
Proof.
  unfold sos. rewrite elem_of_list_to_set, list_elem_of_fmap. naive_solver.
Qed.

Lemma elem_of_strip (B : gset Z) x P :
  B ∈ strip x P ↔ B ≠ ∅ ∧ ∃ C, C ∈ P ∧ B = C ∖ {[x]}.
Proof.
  unfold strip. rewrite elem_of_difference, elem_of_map, elem_of_singleton.
  naive_solver.
Qed.

(** [strip] undoes an extension as soon as the blocks correspond. *)
Lemma strip_sos x (p q : partition) :
  Forall (λ b, b ≠ []) q →
  (∀ b', b' ∈ p → list_to_set b' ∖ {[x]} = (∅ : gset Z)
                  ∨ ∃ b, b ∈ q ∧ list_to_set b' ∖ {[x]} =@{gset Z} list_to_set b) →
  (∀ b, b ∈ q → ∃ b', b' ∈ p ∧ list_to_set b' ∖ {[x]} =@{gset Z} list_to_set b) →
  strip x (sos p) = sos q.
Proof.
  intros Hne Hpq Hqp. apply set_eq. intros B.
  rewrite elem_of_strip, elem_of_sos. split.
  - intros (HB & C & (b' & Hb' & ->)%elem_of_sos & ->).
    destruct (Hpq b' Hb') as [E|(b & Hb & E)]; [done|]. eauto.
  - intros (b & Hb & ->). split.
    + rewrite Forall_forall in Hne. specialize (Hne b Hb).
      destruct b as [|y b]; [done|]. set_solver.
    + destruct (Hqp b Hb) as (b' & Hb' & E).
      exists (list_to_set b'). split; [|done]. apply elem_of_sos. eauto.
Qed.

Lemma good_lt n k q b y : good n k q → b ∈ q → y ∈ b → 0 <= y < Z.of_nat n.
Proof.
  intros (_ & _ & Hp) Hb Hy. apply elem_of_range. rewrite <- Hp.
  apply list_elem_of_In, in_concat. exists b. by rewrite <- !list_elem_of_In.
Qed.

Lemma good_fresh n k q b : good n k q → b ∈ q → Z.of_nat n ∉ b.
Proof. intros Hq Hb Hn. pose proof (good_lt _ _ _ _ _ Hq Hb Hn). lia. Qed.

Lemma good_nonempty n k q b : good n k q → b ∈ q → ∃ y, y ∈ b ∧ y ≠ Z.of_nat n.
Proof.
  intros Hq Hb. pose proof Hq as (_ & Hne & _).
  rewrite Forall_forall in Hne. specialize (Hne b Hb).
  destruct b as [|y b]; [done|]. exists y.
  assert (y ∈ y :: b) as Hy by left.
  pose proof (good_lt _ _ _ _ _ Hq Hb Hy). split; [done|lia].
Qed.

(** The blocks of an extended partition, by index. *)
Lemma lookup_extend_block x j (q : partition) i b' :
  extend_block x j q !! i = Some b' ↔
  ∃ b, q !! i = Some b ∧ b' = if decide (i = j) then b ++ [x] else b.
Proof.
  unfold extend_block. destruct (decide (i = j)) as [->|Hij].
  - rewrite list_lookup_alter, decide_True by done.
    destruct (q !! j) as [b0|]; simpl; split.
    + intros [= <-]. eauto.
    + by intros (b & [= <-] & ->).
    + done.
    + by intros (b & [=] & _).
  - rewrite list_lookup_alter_ne by done. split; [eauto|].
    by intros (b & -> & ->).
Qed.

Lemma strip_new_block n k q :
  good n k q →
  strip (Z.of_nat n) (sos (new_block (Z.of_nat n) q)) = sos q.
Proof.
  intros Hq. apply strip_sos; [apply Hq|..].
  - intros b' [Hb'| ->%list_elem_of_singleton]%elem_of_app.
    + right. exists b'. split; [done|].
      pose proof (good_fresh _ _ _ _ Hq Hb'). set_solver.
    + left. set_solver.
  - intros b Hb. exists b. split; [apply elem_of_app; by left|].
    pose proof (good_fresh _ _ _ _ Hq Hb). set_solver.
Qed.

Lemma strip_extend_block n k q j :
  good n k q →
  strip (Z.of_nat n) (sos (extend_block (Z.of_nat n) j q)) = sos q.
Proof.
  intros Hq. apply strip_sos; [apply Hq|..].
  - intros b' (i & Hi)%list_elem_of_lookup_1.
    apply lookup_extend_block in Hi as (b & Hb & ->).
    apply list_elem_of_lookup_2 in Hb. right. exists b. split; [done|].
    pose proof (good_fresh _ _ _ _ Hq Hb). case_decide; set_solver.
  - intros b Hb. pose proof Hb as (i & Hi)%list_elem_of_lookup_1.
    exists (if decide (i = j) then b ++ [Z.of_nat n] else b). split.
    + apply (list_elem_of_lookup_2 _ i), lookup_extend_block. eauto.
    + pose proof (good_fresh _ _ _ _ Hq Hb). case_decide; set_solver.
Qed.

(** Blocks that list every index once do not share an element. *)
Lemma NoDup_concat_lookup {A} (q : list (list A)) i j b b' y :
  NoDup (concat q) → q !! i = Some b → q !! j = Some b' →
  y ∈ b → y ∈ b' → i = j.
Proof.
  revert i j. induction q as [|c q IH]; intros i j Hnd Hi Hj Hy Hy'; [done|].
  simpl in Hnd. apply NoDup_app in Hnd as (_ & Hd & Hq).
  assert (∀ m d, q !! m = Some d → y ∈ d → y ∈ concat q) as Hin.
  { intros m d Hm Hd'. apply list_elem_of_In, in_concat. exists d.
    rewrite <- !list_elem_of_In. eauto using list_elem_of_lookup_2. }
  destruct i as [|i], j as [|j]; simplify_eq/=; [done|..].
  - exfalso. eapply Hd; eauto.
  - exfalso. eapply Hd; eauto.
  - f_equal. eauto.
Qed.

Lemma good_NoDup n k q : good n k q → NoDup (concat q).
Proof. intros (_ & _ & Hp). rewrite Hp. apply NoDup_range. Qed.

(** A new singleton block and an extended block never give the same set
    of sets. *)
Lemma sos_new_extend n k1 k2 q1 q2 j :
  good n k1 q1 → good n k2 q2 →
  sos (new_block (Z.of_nat n) q1) ≠ sos (extend_block (Z.of_nat n) j q2).
Proof.
  intros H1 H2 E.
  assert ({[Z.of_nat n]} ∈ sos (new_block (Z.of_nat n) q1)) as Hin.
  { apply elem_of_sos. exists [Z.of_nat n]. split; [|set_solver].
    apply elem_of_app. right. by left. }
  rewrite E in Hin. apply elem_of_sos in Hin as (b' & Hb' & Eb).
  apply list_elem_of_lookup_1 in Hb' as (i & Hi).
  apply lookup_extend_block in Hi as (b & Hb & ->).
  apply list_elem_of_lookup_2 in Hb.
  destruct (good_nonempty _ _ _ _ H2 Hb) as (y & Hy & Hne).
  assert (y ∈ ({[Z.of_nat n]} : gset Z)) as Hy'.
  { rewrite Eb. case_decide; set_solver. }
  set_solver.
Qed.

(** Extending two different blocks of a partition gives different sets
    of sets. *)
Lemma sos_extend_inj n k q j1 j2 :
  good n k q → (j1 < k)%nat → (j2 < k)%nat →
  sos (extend_block (Z.of_nat n) j1 q) = sos (extend_block (Z.of_nat n) j2 q) →
  j1 = j2.
Proof.
  intros Hq Hj1 Hj2 E. pose proof Hq as (Hl & _ & _).
  destruct (lookup_lt_is_Some_2 q j1) as [b1 Hb1]; [lia|].
  assert (list_to_set (b1 ++ [Z.of_nat n])
          ∈ sos (extend_block (Z.of_nat n) j1 q)) as Hin.
  { apply elem_of_sos. exists (b1 ++ [Z.of_nat n]). split; [|done].
    apply (list_elem_of_lookup_2 _ j1), lookup_extend_block.
    exists b1. by rewrite decide_True. }
  rewrite E in Hin. apply elem_of_sos in Hin as (b' & Hb' & Eb).
  apply list_elem_of_lookup_1 in Hb' as (i & Hi).
  apply lookup_extend_block in Hi as (b2 & Hb2 & ->).
  pose proof (list_elem_of_lookup_2 _ _ _ Hb1) as Hm1.
  pose proof (list_elem_of_lookup_2 _ _ _ Hb2) as Hm2.
  pose proof (good_fresh _ _ _ _ Hq Hm2) as Hf2.
  destruct (good_nonempty _ _ _ _ Hq Hm1) as (y & Hy & Hne).
  destruct (decide (i = j2)) as [->|Hij].
  - apply (NoDup_concat_lookup q j1 j2 b1 b2 y);
      [by eapply good_NoDup|done..|].
    assert (y ∈ (list_to_set (b2 ++ [Z.of_nat n]) : gset Z)) as Hy'
      by (rewrite <- Eb; set_solver).
    set_solver.
  - exfalso. apply Hf2.
    assert (Z.of_nat n ∈ (list_to_set b2 : gset Z)) as Hy'
      by (rewrite <- Eb; set_solver).
    set_solver.
Qed.

Lemma NoDup_fmap_elem_inj {A B} `{EqDecision B} (g : A → B) (l : list A) x y :
  NoDup (g <$> l) → x ∈ l → y ∈ l → g x = g y → x = y.
Proof.
  intros Hnd (i & Hi)%list_elem_of_lookup_1 (j & Hj)%list_elem_of_lookup_1 E.
  assert (i = j) as ->; [|congruence].
  eapply (NoDup_lookup (g <$> l) i j (g x)); [done|..].
  - by rewrite list_lookup_fmap, Hi.
  - by rewrite list_lookup_fmap, Hj, E.
Qed.

Lemma fmap_bind {A B C} (g : B → C) (h : A → list B) (l : list A) :
  g <$> (l ≫= h) = l ≫= (λ x, g <$> h x).
Proof.
  induction l as [|x l IH]; [done|].
  rewrite !bind_cons, fmap_app. by f_equal.
Qed.

(** No two partitions of the enumeration are the same set of sets. *)
Lemma parts_distinct n k : (1 ≤ k ≤ n)%nat → NoDup (sos <$> parts n k).
Proof.
  revert k. induction n as [|n IH]; intros k Hk; [lia|].
  cbn [parts]. destruct (Nat.eqb_spec k 1) as [->|Hk1].
  { apply NoDup_singleton. }
  destruct (Nat.eqb_spec k (S n)) as [->|Hkn].
  { apply NoDup_singleton. }
  pose proof (parts_good n (k - 1) ltac:(lia)) as G1.
  pose proof (parts_good n k ltac:(lia)) as G2.
  rewrite Forall_forall in G1, G2.
  rewrite fmap_app. apply NoDup_app. split; [|split].
  - apply (NoDup_fmap_1 (strip (Z.of_nat n))).
    rewrite <- !list_fmap_compose.
    rewrite (list_fmap_ext _ sos (parts n (k - 1))); [apply IH; lia|].
    intros i q Hq%list_elem_of_lookup_2. simpl.
    eapply strip_new_block; eauto.
  - intros X (p1 & -> & (q1 & -> & Hq1)%list_elem_of_fmap)%list_elem_of_fmap
             (p2 & E & (j & (q2 & -> & Hq2)%list_elem_of_fmap & Hj)%list_elem_of_bind)%list_elem_of_fmap.
    by eapply (sos_new_extend n (k - 1) k q1 q2 j); eauto.
  - rewrite fmap_bind. apply NoDup_bind; [| |apply NoDup_seq].
    + intros j1 j2 X Hj1%elem_of_seq Hj2%elem_of_seq
        (p1 & -> & (q1 & -> & Hq1)%list_elem_of_fmap)%list_elem_of_fmap
        (p2 & E & (q2 & -> & Hq2)%list_elem_of_fmap)%list_elem_of_fmap.
      assert (q1 = q2) as ->.
      { apply (NoDup_fmap_elem_inj sos (parts n k)); [apply IH; lia|done..|].
        rewrite <- (strip_extend_block n k q1 j1), <- (strip_extend_block n k q2 j2)
          by eauto. by rewrite E. }
      eapply (sos_extend_inj n k q2); eauto; lia.
    + intros j Hj. rewrite <- list_fmap_compose.
      apply (NoDup_fmap_1 (strip (Z.of_nat n))).
      rewrite <- !list_fmap_compose.
      rewrite (list_fmap_ext _ sos (parts n k)); [apply IH; lia|].
      intros i q Hq%list_elem_of_lookup_2. simpl.
      eapply strip_extend_block; eauto.
Qed.

Lemma good_is_partition (n k : nat) p :
  good n k p → is_partition (Z.of_nat n) (Z.of_nat k) p.
Proof.
  intros Hp. pose proof Hp as (Hl & Hne & Hperm).
  pose proof (good_NoDup _ _ _ Hp) as Hnd.
  split; [unfold len; lia|]. split; [done|]. split; [|split; [done|]].
  - intros i j b b' Hi Hj Hij x Hx Hx'. apply Hij.
    by apply (NoDup_concat_lookup p i j b b' x).
  - intros x. by rewrite Hperm, elem_of_range.
Qed.

End EnumerationFacts.


(** ** The store: partitions as objects *)

Module StoreFacts.
Import LoopFacts EnumerationFacts.

Lemma load_part_ok (h : heap) p blocks :
  h !! p = Some (Part blocks) → load_part p h = (Ok blocks, h).
Proof. intros H. unfold load_part. by rewrite H. Qed.

Lemma load_block_ok (h : heap) b items :
  h !! b = Some (Block items) → load_block b h = (Ok items, h).
Proof. intros H. unfold load_block. by rewrite H. Qed.

(** *** Frames *)

Lemma frame_refl lo h : frame lo h h.
Proof. done. Qed.

Lemma frame_trans lo h1 h2 h3 :
  frame lo h1 h2 → frame lo h2 h3 → frame lo h1 h3.
Proof.
  intros [Hl1 H1] [Hl2 H2]. split; [lia|].
  intros l Hl. by rewrite H2, H1.
Qed.

Lemma frame_weaken lo lo' h h' : (lo ≤ lo')%nat → frame lo' h h' → frame lo h h'.
Proof. intros Hlo [Hl H]. split; [done|]. intros l ?. apply H. lia. Qed.

Lemma frame_alloc lo (h : heap) o : (lo ≤ length h)%nat → frame lo h (h ++ [o]).
Proof.
  intros Hlo. split; [rewrite length_app; lia|].
  intros l Hl. apply lookup_app_l. lia.
Qed.

Lemma frame_app lo (h new : heap) : (lo ≤ length h)%nat → frame lo h (h ++ new).
Proof.
  intros Hlo. split; [rewrite length_app; lia|].
  intros l Hl. apply lookup_app_l. lia.
Qed.

Lemma frame_store lo (h : heap) l o : (lo ≤ l)%nat → frame lo h (<[l := o]> h).
Proof.
  intros Hlo. split; [by rewrite length_insert|].
  intros l' Hl'. apply list_lookup_insert_ne. lia.
Qed.

(** *** Entries *)

Lemma entry_ok_agree (h h' : heap) e :
  entry_ok h e → (∀ l, l ∈ entry_locs e → h' !! l = h !! l) → entry_ok h' e.
Proof.
  intros [Hp Hb] Hagree. split.
  - rewrite Hagree; [done|]. by left.
  - rewrite Forall_forall in Hb |- *. intros bi Hbi.
    rewrite Hagree; [by apply Hb|]. right.
    apply list_elem_of_fmap. by exists bi.
Qed.

Lemma entry_ok_lt (h : heap) e l :
  entry_ok h e → l ∈ entry_locs e → (l < length h)%nat.
Proof.
  intros [Hp Hb] [->|(bi & -> & Hbi)%list_elem_of_fmap]%elem_of_cons.
  - by eapply lookup_lt_Some.
  - rewrite Forall_forall in Hb. eapply lookup_lt_Some. by apply Hb.
Qed.

Lemma entry_ok_frame lo (h h' : heap) e :
  entry_ok h e → frame lo h h' → (length h ≤ lo)%nat → entry_ok h' e.
Proof.
  intros He [_ Hf] Hlo. apply (entry_ok_agree h); [done|].
  intros l Hl. apply Hf. pose proof (entry_ok_lt h e l He Hl). lia.
Qed.

Lemma entry_ok_store (h : heap) e l o :
  entry_ok h e → l ∉ entry_locs e → entry_ok (<[l := o]> h) e.
Proof.
  intros He Hl. apply (entry_ok_agree h); [done|].
  intros l' Hl'. apply list_lookup_insert_ne. by intros ->.
Qed.

Lemma elem_of_locs l (sh : list entry) :
  l ∈ locs sh ↔ ∃ e, e ∈ sh ∧ l ∈ entry_locs e.
Proof. unfold locs. rewrite list_elem_of_bind. naive_solver. Qed.

Lemma locs_app (sh1 sh2 : list entry) : locs (sh1 ++ sh2) = locs sh1 ++ locs sh2.
Proof. apply bind_app. Qed.

Lemma locs_cons e (sh : list entry) : locs (e :: sh) = entry_locs e ++ locs sh.
Proof. done. Qed.

Lemma separated_lt lo (h : heap) sh l :
  separated lo h sh → l ∈ locs sh → (lo ≤ l < length h)%nat.
Proof.
  intros (Hok & _ & Hlo) Hl. split.
  - rewrite Forall_forall in Hlo. by apply Hlo.
  - apply elem_of_locs in Hl as (e & He & Hl).
    rewrite Forall_forall in Hok. by eapply entry_ok_lt; [apply Hok|].
Qed.

Lemma separated_weaken lo lo' (h : heap) sh :
  (lo ≤ lo')%nat → separated lo' h sh → separated lo h sh.
Proof.
  intros Hlo (Hok & Hnd & Hb). split; [done|]. split; [done|].
  eapply Forall_impl; [apply Hb|]. simpl. lia.
Qed.

Lemma separated_frame lo lo' (h h' : heap) sh :
  separated lo h sh → frame lo' h h' → (length h ≤ lo')%nat →
  separated lo h' sh.
Proof.
  intros (Hok & Hnd & Hb) Hf Hlo. split; [|done].
  eapply Forall_impl; [apply Hok|]. intros e He.
  by eapply entry_ok_frame.
Qed.

(** Two shapes, the second allocated after the first, are separated
    together. *)
Lemma separated_frame_below lo lo' (h h' : heap) sh :
  separated lo h sh → frame lo' h h' →
  Forall (λ l, l < lo')%nat (locs sh) → separated lo h' sh.
Proof.
  intros (Hok & Hnd & Hb) [_ Hf] Hlt. split; [|done].
  rewrite Forall_forall in Hok. rewrite Forall_forall in Hlt.
  apply Forall_forall. intros e He.
  apply (entry_ok_agree h); [by apply Hok|].
  intros l Hl. apply Hf, Hlt, elem_of_locs. by exists e.
Qed.

Lemma separated_app lo (h : heap) sh1 sh2 mid :
  separated lo h sh1 → separated mid h sh2 → (lo ≤ mid)%nat →
  Forall (λ l, l < mid)%nat (locs sh1) →
  separated lo h (sh1 ++ sh2).
Proof.
  intros (Hok1 & Hnd1 & Hb1) (Hok2 & Hnd2 & Hb2) Hlo Hlt.
  split; [by apply Forall_app|]. rewrite locs_app. split.
  - apply NoDup_app. split; [done|]. split; [|done].
    intros l Hl1 Hl2. rewrite Forall_forall in Hlt, Hb2.
    specialize (Hlt l Hl1). specialize (Hb2 l Hl2). simpl in *. lia.
  - apply Forall_app. split; [done|].
    eapply Forall_impl; [apply Hb2|]. simpl. lia.
Qed.

(** Reading a shape back gives its values. *)
Lemma read_blocks_ok (h : heap) (bl : list (nat * list Z)) acc :
  Forall (λ bi : nat * list Z, h !! bi.1 = Some (Block bi.2)) bl →
  for_ bl.*1 (λ b acc, items ← load_block b; mret (acc ++ [items])) acc h
  = (Ok (acc ++ bl.*2), h).
Proof.
  revert acc. induction bl as [|[b items] bl IH]; intros acc Hbl.
  - simpl. by rewrite app_nil_r.
  - apply Forall_cons in Hbl as [Hb Hbl]. cbn [fmap list_fmap for_ fst snd].
    erewrite prog_bind_Ok.
    2:{ erewrite prog_bind_Ok; [|by apply load_block_ok]. reflexivity. }
    rewrite IH by done. by rewrite <- app_assoc.
Qed.

Lemma read_part_ok (h : heap) e :
  entry_ok h e → read_part e.1 h = (Ok e.2.*2, h).
Proof.
  intros [Hp Hb]. unfold read_part.
  erewrite prog_bind_Ok; [|by apply load_part_ok].
  by apply (read_blocks_ok h e.2 []).
Qed.

Lemma read_parts_ok (h : heap) sh acc :
  Forall (entry_ok h) sh →
  for_ (refs sh) (λ p acc, q ← read_part p; mret (acc ++ [q])) acc h
  = (Ok (acc ++ vals sh), h).
Proof.
  revert acc. induction sh as [|e sh IH]; intros acc Hsh.
  - simpl. by rewrite app_nil_r.
  - apply Forall_cons in Hsh as [He Hsh]. cbn [refs vals fmap list_fmap for_].
    erewrite prog_bind_Ok.
    2:{ erewrite prog_bind_Ok; [|by apply read_part_ok]. reflexivity. }
    fold (refs sh). rewrite IH by done. by rewrite <- app_assoc.
Qed.


(** *** Changing one entry of a separated shape *)

Lemma locs_middle (done todo : list entry) e :
  locs (done ++ e :: todo) = locs done ++ entry_locs e ++ locs todo.
Proof. by rewrite locs_app, locs_cons. Qed.

Lemma NoDup_locs_middle (done todo : list entry) e l :
  NoDup (locs (done ++ e :: todo)) → l ∈ locs (done ++ todo) →
  l ∉ entry_locs e.
Proof.
  rewrite locs_middle, locs_app.
  intros (_ & Hd & (_ & Ht & _)%NoDup_app)%NoDup_app [Hl|Hl]%elem_of_app He.
  - apply (Hd l Hl). apply elem_of_app. by left.
  - by apply (Ht l He).
Qed.

Lemma separated_update lo (h h1 : heap) done e e' todo :
  separated lo h (done ++ e :: todo) →
  (∀ l, l ∈ locs (done ++ todo) → h1 !! l = h !! l) →
  entry_ok h1 e' →
  (∀ l, l ∈ entry_locs e' → l ∈ entry_locs e ∨ (length h ≤ l)%nat) →
  NoDup (entry_locs e') → Forall (λ l, lo ≤ l)%nat (entry_locs e') →
  separated lo h1 (done ++ e' :: todo).
Proof.
  intros (Hok & Hnd & Hb) Hagree He' Hlocs Hnd' Hb'.
  assert (∀ l, l ∈ locs (done ++ todo) → (l < length h)%nat) as Hlt.
  { intros l (e0 & He0 & Hl)%elem_of_locs. rewrite Forall_forall in Hok.
    apply (entry_ok_lt h e0); [|done]. apply Hok.
    apply elem_of_app in He0 as [?|?]; apply elem_of_app; [by left|].
    right. by right. }
  split; [|split].
  - apply Forall_app in Hok as [Hd Ht]. apply Forall_cons in Ht as [_ Ht].
    apply Forall_app. split; [|constructor; [done|]].
    + rewrite Forall_forall in Hd |- *. intros e0 He0.
      apply (entry_ok_agree h); [by apply Hd|]. intros l Hl. apply Hagree.
      apply elem_of_locs. exists e0. split; [|done]. apply elem_of_app. by left.
    + rewrite Forall_forall in Ht |- *. intros e0 He0.
      apply (entry_ok_agree h); [by apply Ht|]. intros l Hl. apply Hagree.
      apply elem_of_locs. exists e0. split; [|done]. apply elem_of_app. by right.
  - pose proof Hnd as Hnd0. rewrite locs_middle in Hnd |- *.
    apply NoDup_app in Hnd as (Hnd1 & Hd1 & (Hnd2 & Hd2 & Hnd3)%NoDup_app).
    apply NoDup_app. split; [done|]. split.
    + intros l Hl [Hl'|Hl']%elem_of_app.
      * destruct (Hlocs l Hl') as [Hle|Hge].
        -- apply (Hd1 l Hl). apply elem_of_app. by left.
        -- assert (l < length h)%nat; [|lia]. apply Hlt.
           rewrite locs_app. apply elem_of_app. by left.
      * apply (Hd1 l Hl). apply elem_of_app. by right.
    + apply NoDup_app. split; [done|]. split; [|done].
      intros l Hl' Hl. destruct (Hlocs l Hl') as [Hle|Hge].
      * by apply (Hd2 l Hle).
      * assert (l < length h)%nat; [|lia]. apply Hlt.
        rewrite locs_app. apply elem_of_app. by right.
  - rewrite locs_middle in Hb |- *.
    apply Forall_app in Hb as [Hb1 (_ & Hb3)%Forall_app].
    apply Forall_app. split; [done|]. by apply Forall_app.
Qed.

Lemma vals_cons e (sh : list entry) : vals (e :: sh) = e.2.*2 :: vals sh.
Proof. done. Qed.

Lemma refs_lookup_middle (done todo : list entry) e :
  refs (done ++ e :: todo) !! length done = Some e.1.
Proof.
  unfold refs. rewrite list_lookup_fmap, list_lookup_middle; done.
Qed.

(** *** The loop that appends a new block to every partition *)

Lemma append_loop x (l : list nat) todo : ∀ done (h : heap) lo,
  l = refs (done ++ todo) → separated lo h (done ++ todo) →
  ∃ h' todo',
    for_ (Z.of_nat <$> seq (length done) (length todo)) (λ i _,
      p ← lift (getitem l i);
      b ← alloc (Block [x]);
      list_append p b) () h = (Ok (), h')
    ∧ frame lo h h' ∧ separated lo h' (done ++ todo')
    ∧ refs todo' = refs todo ∧ vals todo' = new_block x <$> vals todo.
Proof.
  induction todo as [|[p bl] todo IH]; intros done h lo Hl Hsep.
  - exists h, []. split; [done|]. split; [apply frame_refl|]. done.
  - set (b := length h). set (e' := (p, bl ++ [(b, [x])]) : entry).
    set (h1 := <[p := Part (bl.*1 ++ [b])]> (h ++ [Block [x]])).
    pose proof Hsep as (Hok & Hnd & Hb).
    assert (entry_ok h (p, bl)) as [Hp Hbl].
    { rewrite Forall_forall in Hok. apply Hok, elem_of_app. right. by left. }
    cbn [fst snd] in Hp, Hbl.
    pose proof (lookup_lt_Some _ _ _ Hp) as Hplt.
    assert (lo ≤ p)%nat as Hplo.
    { rewrite Forall_forall in Hb. apply Hb. rewrite locs_middle.
      apply elem_of_app. right. apply elem_of_app. left. by left. }
    assert (separated lo h1 (done ++ e' :: todo)) as Hsep1.
    { unfold e'.
      apply (separated_update lo h h1 done (p, bl) _ todo); [done|..].
      - intros l0 Hl0. unfold h1.
        pose proof (NoDup_locs_middle _ _ _ _ Hnd Hl0) as Hne.
        rewrite list_lookup_insert_ne by (intros ->; apply Hne; by left).
        apply lookup_app_l.
        apply elem_of_locs in Hl0 as (e0 & He0 & Hl0).
        apply (entry_ok_lt h e0); [|done].
        rewrite Forall_forall in Hok. apply Hok.
        apply elem_of_app in He0 as [?|?]; apply elem_of_app; [by left|].
        right. by right.
      - split; cbn [fst snd].
        + unfold h1. rewrite list_lookup_insert_eq
            by (rewrite length_app; simpl; lia).
          by rewrite fmap_app.
        + apply Forall_app. split.
          * rewrite Forall_forall in Hbl |- *. intros bi Hbi. unfold h1.
            pose proof (lookup_lt_Some _ _ _ (Hbl bi Hbi)) as Hlt.
            rewrite list_lookup_insert_ne.
            -- rewrite lookup_app_l by done. by apply Hbl.
            -- intros Heq. rewrite locs_middle in Hnd.
               apply NoDup_app in Hnd as (_ & _ & (Hnd & _)%NoDup_app).
               unfold entry_locs in Hnd; cbn [fst snd] in Hnd.
               apply NoDup_cons in Hnd as [Hnin _]. apply Hnin.
               rewrite Heq. apply list_elem_of_fmap. by exists bi.
          * constructor; [|done]. cbn [fst snd]. unfold h1, b.
            rewrite list_lookup_insert_ne by lia.
            by rewrite list_lookup_middle.
      - intros l0. unfold entry_locs; cbn [fst snd]. rewrite fmap_app.
        intros [->|[Hl0|Hl0%list_elem_of_singleton]%elem_of_app]%elem_of_cons.
        + left. by left.
        + left. by right.
        + right. simpl in Hl0. subst l0. done.
      - rewrite locs_middle in Hnd.
        apply NoDup_app in Hnd as (_ & _ & (Hnd & _)%NoDup_app).
        unfold entry_locs in Hnd |- *; cbn [fst snd] in Hnd |- *. rewrite fmap_app.
        apply NoDup_cons in Hnd as [Hnin Hnd].
        assert (∀ l0, l0 ∈ bl.*1 → (l0 < b)%nat) as Hltb.
        { intros l0 (bi & -> & Hbi)%list_elem_of_fmap.
          rewrite Forall_forall in Hbl.
          apply (lookup_lt_Some _ _ _ (Hbl bi Hbi)). }
        apply NoDup_cons. split.
        + intros [?|Hx%list_elem_of_singleton]%elem_of_app; [done|].
          simpl in Hx. unfold b in Hx. lia.
        + apply NoDup_app. split; [done|]. split; [|apply NoDup_singleton].
          intros l0 Hl0 Hx%list_elem_of_singleton. simpl in Hx.
          specialize (Hltb l0 Hl0). lia.
      - rewrite locs_middle in Hb.
        apply Forall_app in Hb as [_ [Hb _]%Forall_app].
        unfold entry_locs in Hb |- *; cbn [fst snd] in Hb |- *. rewrite fmap_app.
        apply Forall_cons in Hb as [? Hb]. constructor; [done|].
        apply Forall_app. split; [done|]. constructor; [|done].
        simpl. unfold b. lia. }
    destruct (IH (done ++ [e']) h1 lo) as (h' & todo' & Hloop & Hfr & Hs & Hr & Hv).
    { rewrite Hl. unfold refs. rewrite <- app_assoc. by rewrite !fmap_app. }
    { by rewrite <- app_assoc. }
    exists h', (e' :: todo'). split; [|split; [|split; [|split]]].
    + cbn [length seq fmap list_fmap for_].
      erewrite prog_bind_Ok; [|].
      2:{ erewrite prog_bind_Ok.
          2:{ unfold lift. rewrite (getitem_nat l (length done) p); [done|].
              rewrite Hl. apply refs_lookup_middle. }
          erewrite prog_bind_Ok; [|reflexivity].
          unfold list_append. erewrite prog_bind_Ok.
          2:{ apply load_part_ok. by rewrite lookup_app_l. }
          reflexivity. }
      rewrite length_app in Hloop. simpl in Hloop.
      by rewrite Nat.add_1_r in Hloop.
    + eapply frame_trans; [|apply Hfr].
      eapply frame_trans; [apply frame_alloc|by apply frame_store]. lia.
    + by rewrite <- app_assoc in Hs.
    + unfold e'. cbn [refs fmap list_fmap]. f_equal. apply Hr.
    + unfold e'. cbn [vals fmap list_fmap fst snd]. f_equal; [|apply Hv].
      by rewrite fmap_app.
Qed.


(** *** The loop that extends one block of every partition in place *)

Lemma insert_as_alter {A} (g : A → A) (l : list A) j y :
  l !! j = Some y → <[j := g y]> l = alter g j l.
Proof.
  revert j. induction l as [|z l IH]; intros [|j] H; simplify_eq/=; [done|].
  f_equal. by apply IH.
Qed.

Lemma iadd_loop x (l : list nat) (jz : Z → Z) (js : nat → nat) todo :
  (∀ i, jz (Z.of_nat i) = Z.of_nat (js i)) →
  ∀ done (h : heap) lo,
  l = refs (done ++ todo) → separated lo h (done ++ todo) →
  (∀ i (e : entry), todo !! i = Some e →
     (js (length done + i) < length e.2)%nat) →
  ∃ h' todo',
    for_ (Z.of_nat <$> seq (length done) (length todo)) (λ i _,
      p ← lift (getitem l i);
      b ← list_getitem p (jz i);
      list_iadd b [x];;
      list_setitem p (jz i) b) () h = (Ok (), h')
    ∧ frame lo h h' ∧ separated lo h' (done ++ todo')
    ∧ refs todo' = refs todo
    ∧ vals todo'
      = imap (λ i, extend_block x (js (length done + i)%nat)) (vals todo).
Proof.
  intros Hjz. induction todo as [|[p bl] todo IH]; intros done h lo Hl Hsep Hj.
  - exists h, []. split; [done|]. split; [apply frame_refl|]. done.
  - set (j := js (length done)).
    destruct (lookup_lt_is_Some_2 bl j) as [[b items] Hbi].
    { specialize (Hj O (p, bl) eq_refl). by rewrite Nat.add_0_r in Hj. }
    set (h1 := <[b := Block (items ++ [x])]> h).
    pose proof Hsep as (Hok & Hnd & Hb).
    assert (entry_ok h (p, bl)) as [Hp Hbl].
    { rewrite Forall_forall in Hok. apply Hok, elem_of_app. right. by left. }
    cbn [fst snd] in Hp, Hbl.
    assert (NoDup (p :: bl.*1)) as Hnde.
    { rewrite locs_middle in Hnd.
      by apply NoDup_app in Hnd as (_ & _ & (Hnd & _)%NoDup_app). }
    apply NoDup_cons in Hnde as [Hpn Hndb].
    assert (bl.*1 !! j = Some b) as Hbj by (by rewrite list_lookup_fmap, Hbi).
    assert (b ≠ p) as Hbp.
    { intros ->. apply Hpn. by eapply list_elem_of_lookup_2. }
    assert (h !! b = Some (Block items)) as Hhb.
    { rewrite Forall_forall in Hbl.
      apply (Hbl (b, items)). by eapply list_elem_of_lookup_2. }
    assert (lo ≤ b)%nat as Hblo.
    { rewrite Forall_forall in Hb. apply Hb. rewrite locs_middle.
      apply elem_of_app. right. apply elem_of_app. left. right.
      by eapply list_elem_of_lookup_2. }
    assert (separated lo h1
              (done ++ (p, <[j := (b, items ++ [x])]> bl) :: todo)) as Hsep1.
    { apply (separated_update lo h h1 done (p, bl) _ todo); [done|..].
      - intros l0 Hl0. unfold h1.
        pose proof (NoDup_locs_middle _ _ _ _ Hnd Hl0) as Hne.
        apply list_lookup_insert_ne. intros ->. apply Hne. right.
        by eapply list_elem_of_lookup_2.
      - split; cbn [fst snd].
        + unfold h1. rewrite list_lookup_insert_ne by done.
          by rewrite list_fmap_insert, list_insert_id.
        + apply Forall_lookup. intros i bi Hi.
          destruct (decide (i = j)) as [->|Hij].
          * rewrite list_lookup_insert_eq in Hi by (by eapply lookup_lt_Some).
            injection Hi as <-. cbn [fst snd]. unfold h1.
            apply list_lookup_insert_eq. by eapply lookup_lt_Some.
          * rewrite list_lookup_insert_ne in Hi by done. unfold h1.
            rewrite list_lookup_insert_ne.
            -- rewrite Forall_forall in Hbl. apply Hbl.
               by eapply list_elem_of_lookup_2.
            -- intros Heq. apply Hij.
               apply (NoDup_lookup bl.*1 i j bi.1); [done| |by rewrite <- Heq].
               by rewrite list_lookup_fmap, Hi.
      - intros l0. unfold entry_locs; cbn [fst snd].
        rewrite list_fmap_insert, list_insert_id by done. by left.
      - unfold entry_locs; cbn [fst snd].
        rewrite list_fmap_insert, list_insert_id by done.
        by apply NoDup_cons.
      - rewrite locs_middle in Hb.
        apply Forall_app in Hb as [_ [Hb _]%Forall_app].
        unfold entry_locs in Hb |- *; cbn [fst snd] in Hb |- *.
        by rewrite list_fmap_insert, list_insert_id. }
    destruct (IH (done ++ [(p, <[j := (b, items ++ [x])]> bl)]) h1 lo)
      as (h' & todo' & Hloop & Hfr & Hs & Hr & Hv).
    { rewrite Hl. unfold refs. rewrite <- app_assoc. by rewrite !fmap_app. }
    { by rewrite <- app_assoc. }
    { intros i e Hi. rewrite length_app. simpl.
      replace (length done + 1 + i)%nat with (length done + S i)%nat by lia.
      by apply Hj. }
    exists h', ((p, <[j := (b, items ++ [x])]> bl) :: todo').
    split; [|split; [|split; [|split]]].
    + cbn [length seq fmap list_fmap for_].
      erewrite prog_bind_Ok; [|].
      2:{ erewrite prog_bind_Ok.
          2:{ unfold lift. rewrite (getitem_nat l (length done) p); [done|].
              rewrite Hl. apply refs_lookup_middle. }
          rewrite Hjz. fold j.
          erewrite prog_bind_Ok.
          2:{ unfold list_getitem.
              erewrite prog_bind_Ok; [|by apply load_part_ok].
              unfold lift. by rewrite (getitem_nat _ j b). }
          erewrite prog_bind_Ok.
          2:{ unfold list_iadd.
              erewrite prog_bind_Ok; [|by apply load_block_ok]. reflexivity. }
          fold h1. unfold list_setitem.
          erewrite prog_bind_Ok.
          2:{ apply load_part_ok. unfold h1.
              by rewrite list_lookup_insert_ne. }
          erewrite prog_bind_Ok.
          2:{ unfold lift. rewrite setitem_nat; [done|].
              by eapply lookup_lt_Some. }
          unfold store. rewrite (list_insert_id bl.*1) by done.
          rewrite list_insert_id; [done|].
          unfold h1. by rewrite list_lookup_insert_ne. }
      rewrite length_app in Hloop. simpl in Hloop.
      by rewrite Nat.add_1_r in Hloop.
    + eapply frame_trans; [|apply Hfr]. by apply frame_store.
    + by rewrite <- app_assoc in Hs.
    + cbn [refs fmap list_fmap]. f_equal. apply Hr.
    + rewrite !vals_cons. cbn [fst snd imap]. f_equal.
      * rewrite Nat.add_0_r. fold j. unfold extend_block.
        rewrite list_fmap_insert. cbn [snd].
        apply (insert_as_alter (λ b0, b0 ++ [x])).
        by rewrite list_lookup_fmap, Hbi.
      * rewrite Hv. apply imap_ext. intros i v _. simpl.
        rewrite length_app. simpl. do 2 f_equal. lia.
Qed.


(** *** Allocation of fresh blocks *)

Lemma blocks_at (cs : list (list Z)) : ∀ (h rest : heap),
  Forall (λ bi : nat * list Z,
            (h ++ (Block <$> cs) ++ rest) !! bi.1 = Some (Block bi.2))
         (zip (seq (length h) (length cs)) cs).
Proof.
  induction cs as [|c cs IH]; intros h rest; [constructor|].
  cbn [length seq zip zip_with fmap list_fmap]. constructor.
  - cbn [fst snd]. by apply list_lookup_middle.
  - specialize (IH (h ++ [Block c]) rest).
    rewrite length_app in IH. simpl in IH. rewrite Nat.add_1_r in IH.
    by rewrite <- app_assoc in IH.
Qed.

Lemma zip_seq_fst {A} a (cs : list A) : (zip (seq a (length cs)) cs).*1 = seq a (length cs).
Proof. apply fst_zip. by rewrite length_seq. Qed.

Lemma zip_seq_snd {A} a (cs : list A) : (zip (seq a (length cs)) cs).*2 = cs.
Proof. apply snd_zip. by rewrite length_seq. Qed.

(** A fresh partition of fresh blocks is separated. *)
Lemma fresh_entry_separated (h rest : heap) (cs : list (list Z)) :
  separated (length h)
    (h ++ (Block <$> cs) ++ Part (seq (length h) (length cs)) :: rest)
    [((length h + length cs)%nat, zip (seq (length h) (length cs)) cs)].
Proof.
  split; [|split].
  - constructor; [|done]. split; cbn [fst snd].
    + rewrite zip_seq_fst, app_assoc.
      replace (length h + length cs)%nat with (length (h ++ (Block <$> cs)))
        by (by rewrite length_app, length_fmap).
      by rewrite list_lookup_middle.
    + apply blocks_at.
  - unfold locs. rewrite bind_singleton. unfold entry_locs; cbn [fst snd].
    rewrite zip_seq_fst. apply NoDup_cons. split; [|apply NoDup_seq].
    rewrite elem_of_seq. lia.
  - unfold locs. rewrite bind_singleton. unfold entry_locs; cbn [fst snd].
    rewrite zip_seq_fst. constructor; [lia|].
    apply Forall_forall. intros l Hl%elem_of_seq. lia.
Qed.

Lemma alloc_singletons (xs : list Z) : ∀ acc (h : heap),
  for_ xs (λ x blocks, b ← alloc (Block [x]); mret (blocks ++ [b])) acc h
  = (Ok (acc ++ seq (length h) (length xs)),
     h ++ (Block <$> ((λ x, [x]) <$> xs))).
Proof.
  induction xs as [|x xs IH]; intros acc h.
  - simpl. by rewrite !app_nil_r.
  - cbn [for_]. erewrite prog_bind_Ok.
    2:{ erewrite prog_bind_Ok; [|reflexivity]. reflexivity. }
    rewrite IH, length_app. simpl. rewrite Nat.add_1_r, <- !app_assoc. done.
Qed.

(** *** Deep copies *)

Lemma deepcopy_blocks (bl : list (nat * list Z)) : ∀ acc memo (h : heap),
  Forall (λ bi : nat * list Z, h !! bi.1 = Some (Block bi.2)) bl →
  NoDup bl.*1 → (∀ b, b ∈ bl.*1 → memo !! b = None) →
  ∃ memo',
    for_ bl.*1 (λ b ym,
      bm ← deepcopy_block b ym.2; mret (ym.1 ++ [bm.1], bm.2)) (acc, memo) h
    = (Ok (acc ++ seq (length h) (length bl), memo'),
       h ++ (Block <$> bl.*2))
    ∧ ∀ l, l ∉ bl.*1 → memo' !! l = memo !! l.
Proof.
  induction bl as [|[b items] bl IH]; intros acc memo h Hbl Hnd Hmemo.
  - exists memo. simpl. by rewrite !app_nil_r.
  - apply Forall_cons in Hbl as [Hb Hbl]. cbn [fst snd] in Hb.
    cbn [fmap list_fmap fst snd] in Hnd, Hmemo.
    apply NoDup_cons in Hnd as [Hnin Hnd].
    destruct (IH (acc ++ [length h]) (<[b := length h]> memo)
                (h ++ [Block items])) as (memo' & Hloop & Hm').
    { eapply Forall_impl; [apply Hbl|]. intros bi Hbi. simpl in *.
      rewrite lookup_app_l; [done|]. by eapply lookup_lt_Some. }
    { done. }
    { intros b0 Hb0. rewrite lookup_insert_ne by (by intros ->).
      apply Hmemo. by right. }
    exists memo'. split.
    + cbn [fmap list_fmap for_ fst snd]. erewrite prog_bind_Ok.
      2:{ erewrite prog_bind_Ok.
          2:{ unfold deepcopy_block. rewrite Hmemo by left.
              erewrite prog_bind_Ok; [|by apply load_block_ok].
              erewrite prog_bind_Ok; [|reflexivity]. reflexivity. }
          reflexivity. }
      cbn [fst snd]. rewrite Hloop, length_app. simpl.
      rewrite Nat.add_1_r, <- !app_assoc. done.
    + intros l Hl. rewrite Hm'.
      * apply lookup_insert_ne. intros ->. apply Hl. by left.
      * intros Hl'. apply Hl. by right.
Qed.

Lemma deepcopy_part_ok (e : entry) memo (h : heap) :
  entry_ok h e → NoDup (entry_locs e) →
  (∀ l, l ∈ entry_locs e → memo !! l = None) →
  ∃ memo',
    deepcopy_part e.1 memo h
    = (Ok ((length h + length e.2)%nat, memo'),
       h ++ (Block <$> e.2.*2) ++ [Part (seq (length h) (length e.2))])
    ∧ ∀ l, l ∉ entry_locs e → memo' !! l = memo !! l.
Proof.
  intros [Hp Hbl] Hnd Hmemo. unfold entry_locs in Hnd, Hmemo.
  apply NoDup_cons in Hnd as [Hnin Hnd].
  destruct (deepcopy_blocks e.2 [] memo h Hbl Hnd) as (memo' & Hloop & Hm').
  { intros b Hb. apply Hmemo. by right. }
  exists (<[e.1 := (length h + length e.2)%nat]> memo'). split.
  - unfold deepcopy_part. rewrite Hmemo by left.
    erewrite prog_bind_Ok; [|by apply load_part_ok].
    erewrite prog_bind_Ok; [|apply Hloop]. cbn [fst snd app].
    erewrite prog_bind_Ok; [|reflexivity].
    unfold mret, prog_ret. rewrite length_app, !length_fmap, <- app_assoc.
    done.
  - intros l Hl. rewrite lookup_insert_ne.
    + apply Hm'. intros Hl'. apply Hl. by right.
    + intros Heq. apply Hl. rewrite <- Heq. by left.
Qed.

Lemma deepcopy_parts (sh : list entry) : ∀ acc memo (h : heap),
  Forall (entry_ok h) sh → NoDup (locs sh) →
  (∀ l, l ∈ locs sh → memo !! l = None) →
  ∃ sh' memo' h',
    for_ (refs sh) (λ p ym,
      pm ← deepcopy_part p ym.2; mret (ym.1 ++ [pm.1], pm.2)) (acc, memo) h
    = (Ok (acc ++ refs sh', memo'), h')
    ∧ frame (length h) h h' ∧ separated (length h) h' sh'
    ∧ vals sh' = vals sh.
Proof.
  induction sh as [|e sh IH]; intros acc memo h Hok Hnd Hmemo.
  - exists [], memo, h. simpl. rewrite app_nil_r.
    split; [done|]. split; [apply frame_refl|].
    split; [|done]. split; [constructor|]. split; constructor.
  - apply Forall_cons in Hok as [He Hok]. rewrite locs_cons in Hnd, Hmemo.
    apply NoDup_app in Hnd as (Hnde & Hdisj & Hnd).
    destruct (deepcopy_part_ok e memo h He Hnde) as (memo1 & Hcopy & Hm1).
    { intros l Hl. apply Hmemo, elem_of_app. by left. }
    set (h1 := h ++ (Block <$> e.2.*2)
                 ++ [Part (seq (length h) (length e.2))]) in *.
    assert (frame (length h) h h1) as Hfr1 by (by apply frame_app).
    destruct (IH (acc ++ [(length h + length e.2)%nat]) memo1 h1)
      as (sh' & memo' & h' & Hloop & Hfr & Hsep & Hv).
    { eapply Forall_impl; [apply Hok|]. intros e0 He0.
      by eapply entry_ok_frame. }
    { done. }
    { intros l Hl. rewrite Hm1.
      - apply Hmemo, elem_of_app. by right.
      - intros Hl'. by apply (Hdisj l Hl'). }
    pose proof (fresh_entry_separated h [] e.2.*2) as Hnew.
    rewrite length_fmap in Hnew. fold h1 in Hnew.
    exists (((length h + length e.2)%nat,
             zip (seq (length h) (length e.2)) e.2.*2) :: sh'), memo', h'.
    split; [|split; [|split]].
    + cbn [refs fmap list_fmap for_ fst snd]. erewrite prog_bind_Ok.
      2:{ erewrite prog_bind_Ok; [|apply Hcopy]. reflexivity. }
      cbn [fst snd]. fold (refs sh). rewrite Hloop, <- app_assoc. done.
    + eapply frame_trans; [apply Hfr1|].
      eapply frame_weaken; [|apply Hfr]. destruct Hfr1. lia.
    + change (?x :: sh') with ([x] ++ sh').
      apply (separated_app _ _ _ _ (length h1)).
      * eapply separated_frame; [apply Hnew|apply Hfr|done].
      * done.
      * destruct Hfr1. lia.
      * apply Forall_forall. intros l Hl.
        by apply (separated_lt _ _ _ _ Hnew Hl).
    + rewrite !vals_cons. cbn [fst snd]. rewrite Hv. f_equal.
      rewrite <- (length_fmap snd e.2). apply zip_seq_snd.
Qed.

Lemma deepcopy_ok (sh : list entry) (h : heap) :
  Forall (entry_ok h) sh → NoDup (locs sh) →
  ∃ sh' h',
    deepcopy (refs sh) h = (Ok (refs sh'), h')
    ∧ frame (length h) h h' ∧ separated (length h) h' sh'
    ∧ vals sh' = vals sh.
Proof.
  intros Hok Hnd.
  destruct (deepcopy_parts sh [] ∅ h Hok Hnd)
    as (sh' & memo' & h' & Hloop & H); [done|].
  exists sh', h'. split; [|done]. unfold deepcopy.
  by erewrite prog_bind_Ok; [|apply Hloop].
Qed.

(** The loop that collects [k] independent copies. *)
Lemma copies_loop {B} (sh : list entry) (js : list B) : ∀ acc (h : heap),
  Forall (entry_ok h) sh → NoDup (locs sh) →
  ∃ shc h',
    for_ js (λ _ k_s_n1_k,
      copy ← deepcopy (refs sh); mret (k_s_n1_k ++ copy)) acc h
    = (Ok (acc ++ refs shc), h')
    ∧ frame (length h) h h' ∧ separated (length h) h' shc
    ∧ vals shc = concat (replicate (length js) (vals sh)).
Proof.
  induction js as [|j js IH]; intros acc h Hok Hnd.
  - exists [], h. simpl. rewrite app_nil_r.
    split; [done|]. split; [apply frame_refl|].
    split; [|done]. split; [constructor|]. split; constructor.
  - destruct (deepcopy_ok sh h Hok Hnd) as (sh1 & h1 & Hcopy & Hfr1 & Hsep1 & Hv1).
    destruct (IH (acc ++ refs sh1) h1) as (shc & h' & Hloop & Hfr & Hsep & Hv).
    { eapply Forall_impl; [apply Hok|]. intros e He.
      by eapply entry_ok_frame. }
    { done. }
    exists (sh1 ++ shc), h'. split; [|split; [|split]].
    + cbn [for_]. erewrite prog_bind_Ok.
      2:{ erewrite prog_bind_Ok; [|apply Hcopy]. reflexivity. }
      rewrite Hloop. unfold refs. by rewrite fmap_app, app_assoc.
    + eapply frame_trans; [apply Hfr1|].
      eapply frame_weaken; [|apply Hfr]. destruct Hfr1. lia.
    + apply (separated_app _ _ _ _ (length h1)).
      * eapply separated_frame; [apply Hsep1|apply Hfr|done].
      * done.
      * destruct Hfr1. lia.
      * apply Forall_forall. intros l Hl.
        by apply (separated_lt _ _ _ _ Hsep1 Hl).
    + unfold vals in *. rewrite fmap_app, Hv, Hv1. done.
Qed.


(** *** The recursion *)

Lemma length_refs (sh : list entry) : length (refs sh) = length sh.
Proof. apply length_fmap. Qed.

Lemma length_vals (sh : list entry) : length (vals sh) = length sh.
Proof. apply length_fmap. Qed.

Lemma length_concat_replicate {A} k (t : list A) :
  length (concat (replicate k t)) = (k * length t)%nat.
Proof. induction k as [|k IH]; simpl; [done|]. rewrite length_app. lia. Qed.

Lemma elem_of_concat_replicate {A} (x : A) k t :
  x ∈ concat (replicate k t) → x ∈ t.
Proof.
  induction k as [|k IH]; simpl; [by intros ?%elem_of_nil|].
  rewrite elem_of_app. intros [?|?]; auto.
Qed.

(** With enough fuel the recursion returns; the partitions it returns are
    fresh objects that share nothing, the store it found is untouched,
    and their values are [parts]. *)
Lemma stirling2_store fuel : ∀ n k (h : heap),
  (1 ≤ k ≤ n)%nat → (n < fuel)%nat →
  ∃ sh h',
    Generator.stirling2 fuel (Z.of_nat n) (Z.of_nat k) h = (Ok (refs sh), h')
    ∧ frame (length h) h h' ∧ separated (length h) h' sh
    ∧ vals sh = parts n k.
Proof.
  induction fuel as [|fuel IH]; intros n k h Hk Hn; [lia|].
  destruct n as [|n]; [lia|].
  cbn [Generator.stirling2].
  replace ((0 <? Z.of_nat (S n)) && (0 <? Z.of_nat k)) with true
    by (symmetry; rewrite andb_true_iff, !Z.ltb_lt; lia).
  erewrite prog_bind_Ok; [|reflexivity]. cbn [parts].
  destruct (Nat.eqb_spec k 1) as [->|Hk1].
  { (* one block *)
    change (Z.of_nat 1 =? 1) with true. cbv iota.
    pose proof (fresh_entry_separated h [] [range (Z.of_nat (S n))]) as Hnew.
    erewrite prog_bind_Ok; [|reflexivity].
    erewrite prog_bind_Ok; [|reflexivity].
    unfold mret, prog_ret. rewrite length_app, <- app_assoc.
    exists [((length h + 1)%nat, [(length h, range (Z.of_nat (S n)))])], 
      (h ++ [Block (range (Z.of_nat (S n)))] ++ [Part [length h]]).
    split; [done|]. split; [by apply frame_app|]. split; [exact Hnew|done]. }
  replace (Z.of_nat k =? 1) with false by (symmetry; apply Z.eqb_neq; lia).
  destruct (Nat.eqb_spec k (S n)) as [->|Hkn].
  { (* singletons *)
    rewrite Z.eqb_refl.
    pose proof (fresh_entry_separated h []
                  ((λ x, [x]) <$> range (Z.of_nat (S n)))) as Hnew.
    erewrite prog_bind_Ok; [|apply alloc_singletons].
    erewrite prog_bind_Ok; [|reflexivity].
    unfold mret, prog_ret. cbn [app].
    rewrite length_app, !length_fmap, <- app_assoc.
    rewrite length_fmap in Hnew.
    eexists [(_, _)], _. split; [reflexivity|].
    split; [by apply frame_app|]. split; [exact Hnew|].
    rewrite vals_cons. cbn [fst snd vals fmap list_fmap].
    f_equal. rewrite <- (length_fmap (λ x : Z, [x])). apply zip_seq_snd. }
  replace (Z.of_nat k =? Z.of_nat (S n)) with false
    by (symmetry; apply Z.eqb_neq; lia).
  replace (Z.of_nat (S n) - 1) with (Z.of_nat n) by lia.
  replace (Z.of_nat k - 1) with (Z.of_nat (k - 1)) by lia.
  (* the partitions with the new item alone *)
  destruct (IH n (k - 1)%nat h) as (sh1 & h1 & Hrec1 & Hfr1 & Hsep1 & Hv1);
    [lia..|].
  destruct (append_loop (Z.of_nat n) (refs sh1) sh1 [] h1 (length h))
    as (h2 & sh1' & Hloop1 & Hfr2 & Hsep2 & Hr2 & Hv2); [done..|].
  cbn [app length] in Hloop1, Hsep2.
  (* the partitions with the new item in an existing block *)
  destruct (IH n k h2) as (sh2 & h3 & Hrec2 & Hfr3 & Hsep3 & Hv3); [lia..|].
  destruct (copies_loop sh2 (range (Z.of_nat k)) [] h3)
    as (shc & h4 & Hcopies & Hfr4 & Hsep4 & Hv4);
    [apply Hsep3..|].
  rewrite length_range in Hv4. cbn [app] in Hcopies.
  assert (length shc = (k * length sh2)%nat) as Hlenc.
  { by rewrite <- length_vals, Hv4, length_concat_replicate, length_vals. }
  destruct (iadd_loop (Z.of_nat n) (refs shc) (λ i, i / len (refs sh2))
              (λ i, (i / length sh2)%nat) shc) with (done := @nil entry)
              (h := h4) (lo := length h3)
    as (h5 & shc' & Hloop3 & Hfr5 & Hsep5 & Hr5 & Hv5).
  { intros i. unfold len. by rewrite length_refs, Nat2Z.inj_div. }
  { done. }
  { done. }
  { intros i e Hi. cbn [length Nat.add].
    assert (e.2.*2 ∈ parts n k) as Hin.
    { rewrite <- Hv3. apply (elem_of_concat_replicate _ k).
      rewrite <- Hv4. unfold vals. apply list_elem_of_fmap. exists e.
      split; [done|]. by eapply list_elem_of_lookup_2. }
    pose proof (parts_good n k ltac:(lia)) as Hgood.
    rewrite Forall_forall in Hgood. destruct (Hgood _ Hin) as [Hlen _].
    rewrite length_fmap in Hlen. rewrite Hlen.
    apply lookup_lt_Some in Hi. rewrite Hlenc in Hi.
    apply Nat.Div0.div_lt_upper_bound. lia. }
  cbn [app length] in Hloop3, Hsep5.
  destruct Hfr1 as [Hl1 Hf1], Hfr2 as [Hl2 Hf2], Hfr3 as [Hl3 Hf3],
    Hfr4 as [Hl4 Hf4], Hfr5 as [Hl5 Hf5].
  exists (sh1' ++ shc'), h5. split; [|split; [|split]].
  - erewrite prog_bind_Ok; [|apply Hrec1].
    erewrite prog_bind_Ok.
    2:{ unfold len. rewrite length_refs, range_nat. apply Hloop1. }
    erewrite prog_bind_Ok; [|apply Hrec2].
    erewrite prog_bind_Ok; [|apply Hcopies].
    erewrite prog_bind_Ok.
    2:{ replace (len (refs sh2) * Z.of_nat k) with (Z.of_nat (length shc))
          by (unfold len; rewrite length_refs; lia).
        rewrite range_nat. apply Hloop3. }
    unfold mret, prog_ret. unfold refs in *.
    by rewrite fmap_app, Hr2, Hr5.
  - split; [lia|]. intros l Hl.
    rewrite Hf5, Hf4, Hf3, Hf2, Hf1 by lia. done.
  - apply (separated_app _ _ _ _ (length h3)).
    + assert (separated (length h) h3 sh1') as Hsep2'.
      { by eapply (separated_frame _ (length h2) h2); [|split|]. }
      eapply (separated_frame_below _ (length h3) h4); [|by split|].
      * by eapply (separated_frame _ (length h3) h3); [|split|].
      * apply Forall_forall. intros l Hl.
        by destruct (separated_lt _ _ _ _ Hsep2' Hl).
    + done.
    + lia.
    + apply Forall_forall. intros l Hl.
      pose proof (separated_lt _ _ _ _ Hsep2 Hl). lia.
  - unfold vals in *. rewrite fmap_app, Hv2, Hv5, Hv1, Hv4, Hv3.
    f_equal. rewrite <- (imap_copies (extend_block (Z.of_nat n)) (parts n k) k 0).
    apply imap_ext. intros i q _. simpl.
    by rewrite <- (length_fmap (λ e : entry, e.2.*2) sh2), Hv3.
Qed.

(** Read back from the store it leaves, the references the recursion
    returns stand for [parts]. *)
Lemma stirling2_read fuel n k (h : heap) :
  (1 ≤ k ≤ n)%nat → (n < fuel)%nat →
  ∃ rs h',
    Generator.stirling2 fuel (Z.of_nat n) (Z.of_nat k) h = (Ok rs, h')
    ∧ frame (length h) h h'
    ∧ read_parts rs h' = (Ok (parts n k), h').
Proof.
  intros Hk Hn.
  destruct (stirling2_store fuel n k h) as (sh & h' & Hrun & Hfr & (Hok & _) & Hv);
    [done..|].
  exists (refs sh), h'. split; [done|]. split; [done|].
  unfold read_parts. rewrite (read_parts_ok h' sh []) by done.
  by rewrite <- Hv.
Qed.

(** The partitions [make_partitions] returns. *)
Lemma make_partitions_parts (self : Generator.Generator) :
  1 <= Generator.number_of_partitions self <= len (Generator.nodes self) →
  Generator.make_partitions self
  = Ok (parts (length (Generator.nodes self))
              (Z.to_nat (Generator.number_of_partitions self))).
Proof.
  intros H. unfold Generator.make_partitions, len in *.
  rewrite Nat2Z.id.
  rewrite <- (Z2Nat.id (Generator.number_of_partitions self)) at 1 by lia.
  destruct (stirling2_store (S (length (Generator.nodes self)))
              (length (Generator.nodes self))
              (Z.to_nat (Generator.number_of_partitions self)) [])
    as (sh & h' & Hrun & _ & (Hok & _) & Hv); [lia..|].
  erewrite prog_bind_Ok; [|apply Hrun].
  unfold read_parts. rewrite (read_parts_ok h' sh []) by done.
  by rewrite <- Hv.
Qed.

End StoreFacts.

(** C1.  For [n >= k >= 1] the enumeration of the partitions of
    [{0, ..., n-1}] into [k] blocks returns, from any store and whatever
    fuel above [n] the recursion is given, references to exactly [S(n, k)]
    partitions, [S] being the closed form of the source, equal to the
    Stirling number of the second kind; what the store held before is
    untouched; read in the final store, after every in-place update, the
    partitions are pairwise distinct as sets of sets; each has exactly [k]
    blocks, all non-empty and pairwise disjoint, which list every index of
    [0..n-1] exactly once. *)
Theorem C1_make_partitions_enumerates (n k : Z) (fuel : nat) (h : heap) :
  1 <= k <= n → (Z.to_nat n < fuel)%nat →
  ∃ rs h' ps,
    Generator.stirling2 fuel n k h = (Ok rs, h')
    ∧ frame (length h) h h'
    ∧ read_parts rs h' = (Ok ps, h')
    ∧ Generator.S n k = Ok (len ps)
    ∧ length ps = stirling (Z.to_nat n) (Z.to_nat k)
    ∧ NoDup (sos <$> ps)
    ∧ Forall (is_partition n k) ps.
Proof.
  intros H Hfuel.
  assert (1 ≤ Z.to_nat k ≤ Z.to_nat n)%nat as Hnat by lia.
  destruct (StoreFacts.stirling2_read fuel (Z.to_nat n) (Z.to_nat k) h)
    as (rs & h' & Hrun & Hfr & Hread); [done..|].
  rewrite !Z2Nat.id in Hrun by lia.
  exists rs, h', (parts (Z.to_nat n) (Z.to_nat k)).
  split; [done|]. split; [done|]. split; [done|].
  split; [|split; [|split]].
  - unfold len. rewrite EnumerationFacts.parts_length by done.
    by apply CombinatoricsFacts.S_stirling.
  - by apply EnumerationFacts.parts_length.
  - by apply EnumerationFacts.parts_distinct.
  - eapply Forall_impl; [by apply EnumerationFacts.parts_good|].
    intros p Hp. apply EnumerationFacts.good_is_partition in Hp.
    by rewrite !Z2Nat.id in Hp by lia.
Qed.

Lemma C1_make_partitions_enumerates_witness :
  ∃ rs h' ps,
    Generator.stirling2 6 5 2 [] = (Ok rs, h')
    ∧ frame (length (@nil obj)) [] h'
    ∧ read_parts rs h' = (Ok ps, h')
    ∧ Generator.S 5 2 = Ok (len ps)
    ∧ length ps = stirling (Z.to_nat 5) (Z.to_nat 2)
    ∧ NoDup (sos <$> ps)
    ∧ Forall (is_partition 5 2) ps.
Proof. apply (C1_make_partitions_enumerates 5 2 6 []); lia. Defined.

(** C4.  For [n >= k >= 1] the closed form [S(n, k)] returns exactly the
    Stirling number of the second kind defined by the standard recurrence,
    and no division of the computation rounds: the alternating sum is
    exactly [k!] times that number, and [k! // i! // (k-i)!] is exactly
    the binomial coefficient. *)
Theorem C4_closed_form_is_stirling (n k : Z) :
  1 <= k <= n →
  Generator.S n k = Ok (Z.of_nat (stirling (Z.to_nat n) (Z.to_nat k)))
  ∧ sum (Generator.S_terms n k)
    = factorial k * Z.of_nat (stirling (Z.to_nat n) (Z.to_nat k))
  ∧ ∀ i, 0 <= i <= k →
      factorial k / factorial i / factorial (k - i) * factorial i
      * factorial (k - i) = factorial k.
Proof.
  intros H. split; [by apply CombinatoricsFacts.S_stirling|]. split.
  - rewrite CombinatoricsFacts.S_terms_sum by done.
    apply CombinatoricsFacts.alt_stirling.
  - intros i Hi. unfold factorial. rewrite Z2Nat.inj_sub by lia.
    rewrite CombinatoricsFacts.binom_div by lia.
    symmetry. apply CombinatoricsFacts.binom_fact. lia.
Qed.

Lemma C4_closed_form_is_stirling_witness :
  Generator.S 5 2 = Ok (Z.of_nat (stirling (Z.to_nat 5) (Z.to_nat 2)))
  ∧ sum (Generator.S_terms 5 2)
    = factorial 2 * Z.of_nat (stirling (Z.to_nat 5) (Z.to_nat 2))
  ∧ ∀ i, 0 <= i <= 2 →
      factorial 2 / factorial i / factorial (2 - i) * factorial i
      * factorial (2 - i) = factorial 2.
Proof. apply (C4_closed_form_is_stirling 5 2); lia. Defined.

(** ** The constructor *)

Module InitFacts.
Import CombinatoricsFacts LoopFacts.

Lemma len_range n : 0 <= n → len (range n) = n.
Proof.
  intros H. unfold len. rewrite <- (Z2Nat.id n) at 1 by done.
  rewrite length_range. lia.
Qed.

Lemma init_type_error nn k r flt fp mi nm w :
  init_types_ok nn k r fp mi nm = false →
  Generator.__init__ nn k r flt fp mi nm w
  = (Raise TypeError, logged TypeError "Bad input types." w).
Proof.
  unfold init_types_ok. intros H. unfold Generator.__init__. cbv zeta.
  rewrite H. reflexivity.
Qed.

Lemma init_value_error nn k r flt fp mi nm w :
  init_types_ok nn k r fp mi nm = true →
  init_values_ok nn k r mi nm = false →
  Generator.__init__ nn k r flt fp mi nm w
  = (Raise ValueError, logged ValueError "Bad input values." w).
Proof.
  unfold init_types_ok, init_values_ok. intros Ht Hv.
  unfold Generator.__init__. cbv zeta. rewrite Ht. cbn [negb].
  rewrite !andb_true_l in *. rewrite <- !andb_assoc in *.
  rewrite Hv. reflexivity.
Qed.

Lemma init_partitions_error nn k r flt fp mi nm w :
  init_types_ok nn k r fp mi nm = true →
  init_values_ok nn k r mi nm = true →
  int_of nn + (int_of nn - 1) / 3 < int_of k →
  ∃ message,
    Generator.__init__ nn k r flt fp mi nm w
    = (Raise ValueError, logged ValueError message w).
Proof.
  unfold init_types_ok, init_values_ok. intros Ht Hv Hk.
  assert (0 < int_of nn) as Hn.
  { rewrite !andb_true_iff, !Z.ltb_lt in Hv. lia. }
  unfold Generator.__init__. cbv zeta. rewrite Ht. cbn [negb].
  rewrite !andb_true_l in *. rewrite <- !andb_assoc in *.
  rewrite Hv. cbn [negb Generator.nodes Generator.number_of_partitions].
  rewrite len_range by (pose proof (Z.div_pos (int_of nn - 1) 3); lia).
  replace (_ <? int_of k) with true by (symmetry; apply Z.ltb_lt; lia).
  eexists. reflexivity.
Qed.

Lemma mk_self_wf nn k r flt fp mi nm :
  init_values_ok nn k r mi nm = true →
  int_of k <= int_of nn + (int_of nn - 1) / 3 →
  wf (mk_self nn k r flt fp mi nm).
Proof.
  unfold init_values_ok. rewrite !andb_true_iff, !Z.ltb_lt, Z.leb_le.
  intros Hv Hk. unfold wf. simpl. repeat split; try lia.
  rewrite len_range by (pose proof (Z.div_pos (int_of nn - 1) 3); lia). lia.
Qed.

(** What a well-formed instance knows of itself. *)
Lemma wf_len_nodes self :
  wf self →
  len (Generator.nodes self)
  = Generator.number_of_nodes self + Generator.f self
  ∧ 0 <= Generator.f self.
Proof.
  intros (Hn & _ & _ & _ & Hf & Hnodes & _).
  assert (0 <= Generator.f self) by (rewrite Hf; apply Z.div_pos; lia).
  by rewrite Hnodes, len_range by lia.
Qed.

Lemma wf_target_nodes self :
  wf self → Generator.target_nodes self = range (Generator.f self).
Proof.
  intros Hwf. destruct (wf_len_nodes self Hwf) as [_ Hf0].
  destruct Hwf as (Hn & _ & _ & _ & Hf & Hnodes & _).
  unfold Generator.target_nodes, slice_to.
  replace (Generator.f self <? 0) with false by (symmetry; apply Z.ltb_ge; lia).
  rewrite Hnodes. unfold range. rewrite <- fmap_take. f_equal.
  rewrite take_seq. f_equal. lia.
Qed.

Lemma wf_S self :
  wf self →
  Generator.S (len (Generator.nodes self)) (Generator.number_of_partitions self)
  = Ok (Z.of_nat (stirling (length (Generator.nodes self))
                           (Z.to_nat (Generator.number_of_partitions self)))).
Proof.
  intros Hwf. rewrite S_stirling by (unfold wf in Hwf; lia).
  unfold len. by rewrite Nat2Z.id.
Qed.

Lemma wf_testcases_length self :
  wf self →
  Generator.testcases_length self
  = Ok ((Z.of_nat (stirling (length (Generator.nodes self))
                            (Z.to_nat (Generator.number_of_partitions self)))
         * Generator.f self) ^ Generator.number_of_rounds self).
Proof.
  intros Hwf. unfold Generator.testcases_length.
  rewrite wf_S, bind_Ok, wf_target_nodes by done.
  rewrite len_range by (by apply wf_len_nodes). done.
Qed.

Lemma init_ok nn k r flt fp mi nm w :
  init_types_ok nn k r fp mi nm = true →
  init_values_ok nn k r mi nm = true →
  int_of k <= int_of nn + (int_of nn - 1) / 3 →
  ∃ w', Generator.__init__ nn k r flt fp mi nm w
        = (Ok (mk_self nn k r flt fp mi nm), w')
        ∧ fs w' = fs w.
Proof.
  intros Ht Hv Hk. pose proof (mk_self_wf nn k r flt fp mi nm Hv Hk) as Hwf.
  pose proof (wf_testcases_length _ Hwf) as Hlen.
  unfold init_types_ok, init_values_ok in *.
  assert (0 < int_of nn) as Hn.
  { rewrite !andb_true_iff, !Z.ltb_lt in Hv. lia. }
  unfold Generator.__init__. cbv zeta. rewrite Ht. cbn [negb].
  rewrite !andb_true_l in *. rewrite <- !andb_assoc in *.
  rewrite Hv. cbn [negb Generator.nodes Generator.number_of_partitions].
  rewrite len_range by (pose proof (Z.div_pos (int_of nn - 1) 3); lia).
  replace (_ <? int_of k) with false by (symmetry; apply Z.ltb_ge; lia).
  fold (mk_self nn k r flt fp mi nm).
  unfold mbind at 1, prog_bind at 1, lift at 1. rewrite Hlen.
  match goal with |- context [if ?c then _ else _] => destruct c end;
    eexists; (split; [reflexivity|done]).
Qed.

(** Whatever [__init__] returns is the instance above, and is
    well-formed; the constructor leaves the file system alone. *)
Lemma init_inv nn k r flt fp mi nm w self w' :
  Generator.__init__ nn k r flt fp mi nm w = (Ok self, w') →
  self = mk_self nn k r flt fp mi nm ∧ wf self ∧ fs w' = fs w.
Proof.
  intros H.
  destruct (init_types_ok nn k r fp mi nm) eqn:Ht.
  2:{ rewrite init_type_error in H by done. done. }
  destruct (init_values_ok nn k r mi nm) eqn:Hv.
  2:{ rewrite init_value_error in H by done. done. }
  destruct (Z.lt_ge_cases (int_of nn + (int_of nn - 1) / 3) (int_of k)) as [Hk|Hk].
  { destruct (init_partitions_error nn k r flt fp mi nm w Ht Hv Hk) as [m E].
    rewrite E in H. done. }
  destruct (init_ok nn k r flt fp mi nm w Ht Hv Hk) as (w1 & E & Hfs).
  rewrite E in H. injection H as <- <-.
  split; [done|]. split; [by apply mk_self_wf|done].
Qed.

Lemma gen_init :
  Generator.__init__ (VInt 4) (VInt 2) (VInt 3) None (VStr "./") (VInt 1)
    (VInt 1) w0
  = (Ok gen, {| log := [LogInfoRepr 4 2 3 "./" 1 1]; fs := fs0 |}).
Proof. vm_compute. reflexivity. Qed.

Lemma gen_wf : wf gen.
Proof. by destruct (init_inv _ _ _ _ _ _ _ _ _ _ gen_init) as (_ & ? & _). Qed.

Lemma gen1_init :
  Generator.__init__ (VInt 4) (VInt 2) (VInt 1) None (VStr "./") (VInt 1)
    (VInt 1) w0
  = (Ok gen1, {| log := [LogInfoRepr 4 2 1 "./" 1 1]; fs := fs0 |}).
Proof. vm_compute. reflexivity. Qed.

Lemma gen1_wf : wf gen1.
Proof. by destruct (init_inv _ _ _ _ _ _ _ _ _ _ gen1_init) as (_ & ? & _). Qed.

Lemma fs0_writable : writable fs0 "./".
Proof. split; [set_solver|]. intros name. set_solver. Qed.

End InitFacts.

(** ** Composition with leaders and rounds *)

Module ComposeFacts.
Import CombinatoricsFacts LoopFacts EnumerationFacts InitFacts.

Lemma lookup_bind_const {A B} (g : A → list B) (l : list A) m i j x :
  (∀ y, y ∈ l → length (g y) = m) →
  l !! i = Some x → (j < m)%nat →
  (l ≫= g) !! (i * m + j)%nat = g x !! j.
Proof.
  revert i. induction l as [|y l IH]; intros i Hm Hi Hj; [done|].
  rewrite bind_cons.
  assert (length (g y) = m) as Hy by (apply Hm; by left).
  destruct i as [|i]; simpl in Hi.
  - injection Hi as ->. by rewrite lookup_app_l by (simpl; lia).
  - rewrite lookup_app_r by (simpl; lia).
    replace (S i * m + j - length (g y))%nat with (i * m + j)%nat
      by (simpl; lia).
    apply IH; [|done..]. intros z Hz. apply Hm. by right.
Qed.

Lemma combine_leaders_length self (P : list partition) :
  length (Generator.combine_partitions_with_leaders self P)
  = (length P * length (Generator.target_nodes self))%nat.
Proof.
  unfold Generator.combine_partitions_with_leaders.
  apply length_bind_const. intros p _.
  rewrite (length_bind_const _ _ 1%nat); [lia|done].
Qed.

Lemma product_pow_length {A} (pool : list A) r :
  length (product_pow pool r) = (length pool ^ r)%nat.
Proof.
  induction r as [|r IH]; [done|].
  cbn [product_pow]. rewrite (length_bind_const _ _ (length pool ^ r)%nat).
  - simpl. lia.
  - intros x _. rewrite (length_bind_const _ _ 1%nat); [lia|done].
Qed.

Lemma combine_rounds_length self (scenarios : list scenario) :
  0 <= Generator.number_of_rounds self →
  ∃ testcases,
    Generator.combine_scenarios_with_rounds self scenarios = Ok testcases
    ∧ len testcases = len scenarios ^ Generator.number_of_rounds self.
Proof.
  intros Hr. unfold Generator.combine_scenarios_with_rounds, product.
  replace (_ <? 0) with false by (symmetry; apply Z.ltb_ge; lia).
  eexists. split; [done|]. unfold len. rewrite product_pow_length.
  rewrite Nat2Z.inj_pow, Z2Nat.id by done. done.
Qed.

End ComposeFacts.

(** C5.  For every collection of partitions [P], composing with leaders
    yields exactly [|P| * f] scenarios, [f] being the number of target
    nodes (the attribute [f] of a constructed instance); scenario
    [i * f + j] pairs partition [i] with target node [j] (partition-major,
    leader-minor), and the leader of every scenario is a target node. *)
Theorem C5_combine_partitions_with_leaders
    (self : Generator.Generator) (P : list partition) :
  len (Generator.combine_partitions_with_leaders self P)
  = len P * len (Generator.target_nodes self)
  ∧ (∀ i j p leader,
       P !! i = Some p → Generator.target_nodes self !! j = Some leader →
       Generator.combine_partitions_with_leaders self P
         !! (i * length (Generator.target_nodes self) + j)%nat
       = Some (leader, p))
  ∧ (∀ s, s ∈ Generator.combine_partitions_with_leaders self P →
          s.1 ∈ Generator.target_nodes self ∧ s.2 ∈ P)
  ∧ (wf self → len (Generator.target_nodes self) = Generator.f self).
Proof.
  split; [|split; [|split]].
  - unfold len. rewrite ComposeFacts.combine_leaders_length. lia.
  - intros i j p leader Hp Hl.
    unfold Generator.combine_partitions_with_leaders.
    rewrite (ComposeFacts.lookup_bind_const _ _
               (length (Generator.target_nodes self)) i j p); [| |done|].
    + rewrite <- (Nat.mul_1_r j), <- (Nat.add_0_r (j * 1)).
      rewrite (ComposeFacts.lookup_bind_const
                 (λ leader0, [(leader0, p)]) _ 1%nat j 0%nat leader);
        [done|done|done|lia].
    + intros q _. rewrite (EnumerationFacts.length_bind_const _ _ 1%nat);
        [lia|done].
    + by eapply lookup_lt_Some.
  - intros s. unfold Generator.combine_partitions_with_leaders.
    intros (p & (l & Hs & Hl)%list_elem_of_bind & Hp)%list_elem_of_bind.
    apply list_elem_of_singleton in Hs as ->. done.
  - intros Hwf. rewrite InitFacts.wf_target_nodes by done.
    apply InitFacts.len_range. by apply InitFacts.wf_len_nodes.
Qed.

(** C3.  For every configuration the constructor accepts: composing any
    [S] scenarios with the rounds gives [S ^ R] testcases; the pipeline
    (enumerated partitions, then leaders, then rounds) returns, and the
    number of its testcases is [(S(n_total, k) * f) ^ R], which is what
    [testcases_length] computes from the closed form alone, in unbounded
    integers. *)
Theorem C3_testcases_count nn k r flt fp mi nm w self w' :
  Generator.__init__ nn k r flt fp mi nm w = (Ok self, w') →
  (∀ scenarios, ∃ testcases,
     Generator.combine_scenarios_with_rounds self scenarios = Ok testcases
     ∧ len testcases = len scenarios ^ Generator.number_of_rounds self)
  ∧ ∃ partitions testcases st,
      Generator.make_partitions self = Ok partitions
      ∧ Generator.combine_scenarios_with_rounds self
          (Generator.combine_partitions_with_leaders self partitions)
        = Ok testcases
      ∧ Generator.S (len (Generator.nodes self))
          (Generator.number_of_partitions self) = Ok st
      ∧ len partitions = st
      ∧ len (Generator.combine_partitions_with_leaders self partitions)
        = st * Generator.f self
      ∧ len testcases = (st * Generator.f self) ^ Generator.number_of_rounds self
      ∧ Generator.testcases_length self = Ok (len testcases).
Proof.
  intros (-> & Hwf & _)%InitFacts.init_inv.
  set (self := mk_self nn k r flt fp mi nm) in *.
  assert (0 <= Generator.number_of_rounds self) as Hr
    by (unfold wf in Hwf; lia).
  split; [intros; by apply ComposeFacts.combine_rounds_length|].
  destruct (ComposeFacts.combine_rounds_length self
    (Generator.combine_partitions_with_leaders self
       (parts (length (Generator.nodes self))
              (Z.to_nat (Generator.number_of_partitions self)))) Hr)
    as (testcases & Ht & Hlen).
  assert (len (Generator.combine_partitions_with_leaders self
       (parts (length (Generator.nodes self))
              (Z.to_nat (Generator.number_of_partitions self))))
     = Z.of_nat (stirling (length (Generator.nodes self))
                          (Z.to_nat (Generator.number_of_partitions self)))
       * Generator.f self) as Hs.
  { unfold len. rewrite ComposeFacts.combine_leaders_length.
    rewrite EnumerationFacts.parts_length
      by (unfold wf, len in Hwf; lia).
    rewrite InitFacts.wf_target_nodes by done.
    rewrite Nat2Z.inj_mul. f_equal.
    apply InitFacts.len_range. by apply InitFacts.wf_len_nodes. }
  eexists _, testcases, _. split; [|split; [done|split; [|split; [|split; [done|split]]]]].
  - apply StoreFacts.make_partitions_parts. unfold wf in Hwf. lia.
  - by apply InitFacts.wf_S.
  - unfold len. rewrite EnumerationFacts.parts_length; [done|].
    unfold wf, len in Hwf. lia.
  - by rewrite Hlen, Hs.
  - rewrite InitFacts.wf_testcases_length by done. by rewrite Hlen, Hs.
Qed.

Lemma C3_testcases_count_witness :
  (∀ scenarios, ∃ testcases,
     Generator.combine_scenarios_with_rounds gen scenarios = Ok testcases
     ∧ len testcases = len scenarios ^ Generator.number_of_rounds gen)
  ∧ ∃ partitions testcases st,
      Generator.make_partitions gen = Ok partitions
      ∧ Generator.combine_scenarios_with_rounds gen
          (Generator.combine_partitions_with_leaders gen partitions)
        = Ok testcases
      ∧ Generator.S (len (Generator.nodes gen))
          (Generator.number_of_partitions gen) = Ok st
      ∧ len partitions = st
      ∧ len (Generator.combine_partitions_with_leaders gen partitions)
        = st * Generator.f gen
      ∧ len testcases = (st * Generator.f gen) ^ Generator.number_of_rounds gen
      ∧ Generator.testcases_length gen = Ok (len testcases).
Proof.
  apply (C3_testcases_count (VInt 4) (VInt 2) (VInt 3) None (VStr "./")
           (VInt 1) (VInt 1) w0 gen
           {| log := [LogInfoRepr 4 2 3 "./" 1 1]; fs := fs0 |}).
  vm_compute. reflexivity.
Defined.

(** The count the repository's [test_testcases_length] checks:
    [Generator(4, 2, 3)] has [(15 * 1) ^ 3] testcases. *)
Example testcases_length_gen : Generator.testcases_length gen = Ok 3375.
Proof. vm_compute. reflexivity. Qed.

(** C9.  With one to three nodes there is no twin ([f = 0]); if moreover
    the partition count is between one and the node count (and the rounds
    and machine index are valid), construction succeeds, the target nodes
    are empty, [testcases_length] is [0] and the composed pipeline yields
    no testcase: the configuration is accepted and produces nothing. *)
Theorem C9_no_twin_no_testcase (n k r mi nm : Z) flt fp w :
  1 <= n <= 3 → 1 <= k <= n → 1 <= r → 1 <= mi <= nm →
  ∃ self w',
    Generator.__init__ (VInt n) (VInt k) (VInt r) flt (VStr fp) (VInt mi)
      (VInt nm) w = (Ok self, w')
    ∧ Generator.f self = 0
    ∧ Generator.target_nodes self = []
    ∧ Generator.testcases_length self = Ok 0
    ∧ ∃ partitions,
        Generator.make_partitions self = Ok partitions
        ∧ Generator.combine_partitions_with_leaders self partitions = []
        ∧ Generator.combine_scenarios_with_rounds self
            (Generator.combine_partitions_with_leaders self partitions)
          = Ok [].
Proof.
  intros Hn Hk Hr Hmi.
  assert ((n - 1) / 3 = 0) as Hf by (apply Z.div_small; lia).
  destruct (InitFacts.init_ok (VInt n) (VInt k) (VInt r) flt (VStr fp)
              (VInt mi) (VInt nm) w) as (w' & Hinit & _).
  { done. }
  { unfold init_values_ok. simpl.
    rewrite !andb_true_iff, !Z.ltb_lt, Z.leb_le. lia. }
  { simpl. lia. }
  pose proof Hinit as (_ & Hwf & _)%InitFacts.init_inv.
  set (self := mk_self _ _ _ _ _ _ _) in *.
  assert (Generator.f self = 0) as Hf0 by done.
  assert (Generator.target_nodes self = []) as Ht.
  { rewrite InitFacts.wf_target_nodes by done. by rewrite Hf0. }
  assert (∀ P, Generator.combine_partitions_with_leaders self P = []) as Hc.
  { intros P. apply length_zero_iff_nil.
    rewrite ComposeFacts.combine_leaders_length, Ht. simpl. lia. }
  exists self, w'. split; [done|]. split; [done|]. split; [done|]. split.
  - rewrite InitFacts.wf_testcases_length, Hf0, Z.mul_0_r by done.
    rewrite Z.pow_0_l; [done|]. simpl. lia.
  - eexists. split; [|split; [apply Hc|]].
    + apply StoreFacts.make_partitions_parts. unfold wf in Hwf. lia.
    + rewrite Hc. unfold Generator.combine_scenarios_with_rounds, product.
      simpl Generator.number_of_rounds.
      replace (r <? 0) with false by (symmetry; apply Z.ltb_ge; lia).
      destruct (Z.to_nat r) as [|r'] eqn:E; [lia|done].
Qed.

Lemma C9_no_twin_no_testcase_witness :
  ∃ self w',
    Generator.__init__ (VInt 3) (VInt 2) (VInt 2) None (VStr "./") (VInt 1)
      (VInt 1) w0 = (Ok self, w')
    ∧ Generator.f self = 0
    ∧ Generator.target_nodes self = []
    ∧ Generator.testcases_length self = Ok 0
    ∧ ∃ partitions,
        Generator.make_partitions self = Ok partitions
        ∧ Generator.combine_partitions_with_leaders self partitions = []
        ∧ Generator.combine_scenarios_with_rounds self
            (Generator.combine_partitions_with_leaders self partitions)
          = Ok [].
Proof. apply (C9_no_twin_no_testcase 3 2 2 1 1 None "./" w0); lia. Defined.

(** ** Sharding by position *)

Module ShardFacts.

(** Position [p] of a slice is position [skip + p * step] of the input. *)
Lemma lookup_every_nth {A} (l : list A) skip gap p :
  every_nth skip gap l !! p = l !! (skip + p * S gap)%nat.
Proof.
  revert skip p. induction l as [|x l IH]; intros skip p; [done|].
  destruct skip as [|skip]; cbn [every_nth].
  - destruct p as [|p]; [done|]. cbn [lookup list_lookup].
    rewrite IH. simpl. done.
  - rewrite IH. done.
Qed.

Lemma length_every_nth {A} (l : list A) skip gap :
  length (every_nth skip gap l)
  = if decide (length l ≤ skip)%nat then O
    else S ((length l - skip - 1) / S gap).
Proof.
  revert skip. induction l as [|x l IH]; intros skip; [done|].
  destruct skip as [|skip]; cbn [every_nth length]; rewrite IH.
  - destruct (decide (S (length l) ≤ 0)%nat); [lia|]. f_equal.
    replace (S (length l) - 0 - 1)%nat with (length l) by lia.
    case_decide as Hl.
    + symmetry. apply Nat.div_small. lia.
    + replace (length l) with ((length l - gap - 1) + 1 * S gap)%nat at 2 by lia.
      rewrite Nat.div_add by lia. lia.
  - repeat case_decide; try lia. reflexivity.
Qed.

(** The shares differ by at most one: the first [L mod M] shards get one
    element more than the others. *)
Lemma length_islice {A} (l : list A) (j M : nat) :
  (j < M)%nat →
  length (islice l j M)
  = (length l / M + if decide (j < length l mod M)%nat then 1 else 0)%nat.
Proof.
  intros Hj. unfold islice. rewrite length_every_nth.
  replace (S (M - 1)) with M by lia.
  pose proof (Nat.div_mod_eq (length l) M) as E.
  pose proof (Nat.mod_upper_bound (length l) M ltac:(lia)) as Hr.
  set (q := (length l / M)%nat) in *. set (r := (length l mod M)%nat) in *.
  case_decide as Hl; case_decide as Hjr; try lia.
  - destruct q; [lia|]. nia.
  - rewrite (Nat.div_unique (length l - j - 1) M q (r - j - 1)); lia.
  - destruct q as [|q']; [lia|].
    rewrite (Nat.div_unique (length l - j - 1) M q' (M + r - j - 1)); lia.
Qed.

Lemma every_nth_nil {A} skip gap : every_nth skip gap (@nil A) = [].
Proof. done. Qed.

Lemma concat_nils {A} (s : list nat) m :
  concat ((λ j, every_nth j m (@nil A)) <$> s) = [].
Proof. induction s; simpl; done. Qed.

(** Dealing one more element: it heads shard 0 and the other shards
    rotate. *)
Lemma shards_cons {A} (x : A) l m :
  (λ j, every_nth j m (x :: l)) <$> seq 0 (S m)
  = (x :: every_nth m m l) :: ((λ j, every_nth j m l) <$> seq 0 m).
Proof.
  cbn [seq fmap list_fmap every_nth]. f_equal.
  rewrite <- fmap_S_seq, <- list_fmap_compose. done.
Qed.

Lemma concat_shards_perm {A} (l : list A) m :
  concat ((λ j, every_nth j m l) <$> seq 0 (S m)) ≡ₚ l.
Proof.
  induction l as [|x l IH].
  - by rewrite concat_nils.
  - rewrite shards_cons. cbn [concat]. constructor.
    rewrite <- IH at 2. rewrite seq_S, fmap_app, concat_app. simpl.
    rewrite app_nil_r. apply Permutation_app_comm.
Qed.

End ShardFacts.

(** C2.  For [M >= 1] shards and any finite input of length [L],
    [distribute] returns [M] shards; element [i] of the input is element
    [i / M] of shard [i mod M], and a shard holds nothing else, so an input
    position lies in exactly one shard; the shards together are the input
    (same elements, same multiplicity); shard [j] has [L / M] elements plus
    one when [j < L mod M], hence the floor or the ceiling of [L / M];
    and the shards from [L] on are empty, which is no error. *)
Theorem C2_distribute_round_robin {A} (M : Z) (l : list A) :
  1 <= M →
  ∃ shards,
    distribute M l = Ok shards
    ∧ len shards = M
    ∧ (∀ (i : nat) x, l !! i = Some x →
         ∃ s, shards !! (i mod Z.to_nat M)%nat = Some s
              ∧ s !! (i / Z.to_nat M)%nat = Some x)
    ∧ (∀ (j p : nat) s x, shards !! j = Some s → s !! p = Some x →
         Z.of_nat j < M ∧ l !! (p * Z.to_nat M + j)%nat = Some x)
    ∧ concat shards ≡ₚ l
    ∧ (∀ (j : nat) s, shards !! j = Some s →
         len s = len l / M + (if Z.of_nat j <? len l mod M then 1 else 0))
    ∧ (∀ (j : nat) s, shards !! j = Some s →
         len s = len l / M ∨ len s = (len l + M - 1) / M)
    ∧ (∀ j : nat, len l <= Z.of_nat j < M → shards !! j = Some []).
Proof.
  intros HM. unfold distribute.
  replace (M <? 1) with false by (symmetry; apply Z.ltb_ge; lia).
  eexists. split; [done|].
  set (m := Z.to_nat M). assert (0 < m)%nat as Hm by lia.
  assert (∀ (j : nat) s,
    ((λ index, islice l index m) <$> seq 0 m) !! j = Some s ↔
    (j < m)%nat ∧ s = islice l j m) as Hshard.
  { intros j s. rewrite list_lookup_fmap. split.
    - destruct (seq 0 m !! j) as [j'|] eqn:E; [|done].
      apply lookup_seq in E as [-> ?]. intros [= <-]. done.
    - intros [Hj ->]. by rewrite lookup_seq_lt. }
  assert (∀ (j : nat) s,
    ((λ index, islice l index m) <$> seq 0 m) !! j = Some s →
    len s = len l / M + (if Z.of_nat j <? len l mod M then 1 else 0)) as Hlen.
  { intros j s [Hj ->]%Hshard. unfold len.
    rewrite ShardFacts.length_islice by done.
    assert (Z.of_nat (length l mod m) = Z.of_nat (length l) mod M) as Emod.
    { subst m. by rewrite Nat2Z.inj_mod, Z2Nat.id by lia. }
    rewrite Nat2Z.inj_add, Nat2Z.inj_div. subst m. rewrite Z2Nat.id by lia.
    f_equal. destruct (Z.ltb_spec (Z.of_nat j) (Z.of_nat (length l) mod M));
      case_decide as Hd; lia. }
  split; [|split; [|split; [|split; [|split; [done|split]]]]].
  - unfold len. rewrite length_fmap, length_seq. lia.
  - intros i x Hi. exists (islice l (i mod m) m). split.
    + apply Hshard. split; [|done]. apply Nat.mod_upper_bound. lia.
    + unfold islice. rewrite ShardFacts.lookup_every_nth.
      replace (S (m - 1)) with m by lia.
      replace (i mod m + i / m * m)%nat with i; [done|].
      rewrite (Nat.div_mod_eq i m) at 1. lia.
  - intros j p s x [Hj ->]%Hshard Hp. split; [lia|].
    unfold islice in Hp. rewrite ShardFacts.lookup_every_nth in Hp.
    replace (S (m - 1)) with m in Hp by lia.
    by rewrite Nat.add_comm.
  - unfold islice. pose proof (ShardFacts.concat_shards_perm l (m - 1)) as Hp.
    by replace (S (m - 1)) with m in Hp by lia.
  - intros j s Hs. rewrite (Hlen j s Hs).
    destruct (Z.ltb_spec (Z.of_nat j) (len l mod M)) as [Hlt|Hge].
    + right. pose proof (Z.mod_pos_bound (len l) M ltac:(lia)).
      pose proof (Z.div_mod (len l) M ltac:(lia)) as E.
      apply (Z.div_unique _ _ _ (len l mod M - 1)); lia.
    + left. lia.
  - intros j Hj. apply Hshard. split; [lia|]. symmetry.
    apply length_zero_iff_nil. rewrite ShardFacts.length_islice by lia.
    unfold len in Hj. rewrite Nat.div_small, Nat.mod_small by lia.
    rewrite decide_False by lia. done.
Qed.

Lemma C2_distribute_round_robin_witness :
  ∃ shards,
    distribute 3 [10; 11; 12; 13; 14; 15; 16] = Ok shards
    ∧ len shards = 3
    ∧ (∀ (i : nat) x, [10; 11; 12; 13; 14; 15; 16] !! i = Some x →
         ∃ s, shards !! (i mod Z.to_nat 3)%nat = Some s
              ∧ s !! (i / Z.to_nat 3)%nat = Some x)
    ∧ (∀ (j p : nat) s x, shards !! j = Some s → s !! p = Some x →
         Z.of_nat j < 3
         ∧ [10; 11; 12; 13; 14; 15; 16] !! (p * Z.to_nat 3 + j)%nat = Some x)
    ∧ concat shards ≡ₚ [10; 11; 12; 13; 14; 15; 16]
    ∧ (∀ (j : nat) s, shards !! j = Some s →
         len s = len [10; 11; 12; 13; 14; 15; 16] / 3
                 + (if Z.of_nat j <? len [10; 11; 12; 13; 14; 15; 16] mod 3
                    then 1 else 0))
    ∧ (∀ (j : nat) s, shards !! j = Some s →
         len s = len [10; 11; 12; 13; 14; 15; 16] / 3
         ∨ len s = (len [10; 11; 12; 13; 14; 15; 16] + 3 - 1) / 3)
    ∧ (∀ j : nat, len [10; 11; 12; 13; 14; 15; 16] <= Z.of_nat j < 3 →
         shards !! j = Some []).
Proof. apply (C2_distribute_round_robin 3 [10; 11; 12; 13; 14; 15; 16]). lia. Defined.

Example distribute_7_by_3 :
  distribute 3 [10; 11; 12; 13; 14; 15; 16]
  = Ok [[10; 13; 16]; [11; 14]; [12; 15]].
Proof. reflexivity. Qed.

Example distribute_more_shards_than_elements :
  distribute 3 [10] = Ok [[10]; []; []].
Proof. reflexivity. Qed.

(** ** Chunked writing *)

Module ChunkFacts.
Import LoopFacts InitFacts.

Lemma chunks_of_nil {A} fuel n : chunks_of fuel n (@nil A) = [].
Proof. by destruct fuel. Qed.

Lemma chunks_of_cons {A} fuel n (x : A) l :
  chunks_of (S fuel) n (x :: l)
  = take n (x :: l) :: chunks_of fuel n (drop n (x :: l)).
Proof. done. Qed.

(** Re-assembling the chunks gives the shard back. *)
Lemma concat_chunks_of {A} fuel n (l : list A) :
  (length l ≤ fuel)%nat → (1 ≤ n)%nat → concat (chunks_of fuel n l) = l.
Proof.
  revert l. induction fuel as [|fuel IH]; intros l Hl Hn.
  - destruct l; [done|simpl in Hl; lia].
  - destruct l as [|x l]; [done|]. rewrite chunks_of_cons. cbn [concat].
    rewrite IH, take_drop; [done| |done].
    rewrite length_drop. simpl in *. lia.
Qed.

Lemma chunks_of_single {A} fuel n (l : list A) :
  l ≠ [] → (length l ≤ fuel)%nat → (length l ≤ n)%nat →
  chunks_of fuel n l = [l].
Proof.
  intros Hne Hfuel Hn. destruct l as [|x l]; [done|].
  destruct fuel as [|fuel]; [simpl in Hfuel; lia|].
  rewrite chunks_of_cons, take_ge, drop_ge by done.
  by rewrite chunks_of_nil.
Qed.

(** A shard of [m] times the chunk size: [m] chunks, all full. *)
Lemma chunks_of_exact {A} m fuel n (l : list A) :
  length l = (m * n)%nat → (length l ≤ fuel)%nat → (1 ≤ n)%nat →
  length (chunks_of fuel n l) = m
  ∧ Forall (λ c, length c = n) (chunks_of fuel n l).
Proof.
  revert fuel l. induction m as [|m IH]; intros fuel l Hl Hfuel Hn.
  - destruct l; [|done]. by rewrite chunks_of_nil.
  - destruct l as [|x l]; [simpl in Hl; lia|].
    destruct fuel as [|fuel]; [simpl in Hfuel; lia|].
    rewrite chunks_of_cons.
    destruct (IH fuel (drop n (x :: l))) as [IH1 IH2].
    { rewrite length_drop. lia. }
    { rewrite length_drop. simpl in *. lia. }
    { done. }
    split; [simpl; by rewrite IH1|].
    constructor; [|done]. rewrite length_take. lia.
Qed.

(** The number of chunks is the ceiling of [L / n], as the repository's
    [test_print_process] expects of the number of files. *)
Lemma chunks_of_count {A} fuel n (l : list A) :
  (length l ≤ fuel)%nat → (1 ≤ n)%nat →
  length (chunks_of fuel n l) = ((length l + n - 1) / n)%nat.
Proof.
  revert l. induction fuel as [|fuel IH]; intros l Hl Hn.
  - destruct l; [|simpl in Hl; lia]. simpl. symmetry.
    apply Nat.div_small. lia.
  - destruct l as [|x l].
    { simpl. symmetry. apply Nat.div_small. lia. }
    rewrite chunks_of_cons.
    change (length (take n (x :: l) :: chunks_of fuel n (drop n (x :: l))))
      with (S (length (chunks_of fuel n (drop n (x :: l))))).
    rewrite IH; [|rewrite length_drop; simpl in *; lia|done].
    rewrite length_drop. set (L := length (x :: l)).
    assert (1 ≤ L)%nat as HL by (subst L; simpl; lia).
    destruct (decide (n ≤ L)%nat) as [Hge|Hlt].
    + replace (L + n - 1)%nat with ((L - n + n - 1) + 1 * n)%nat by lia.
      rewrite Nat.div_add by lia. lia.
    + replace (L - n)%nat with O by lia.
      rewrite (Nat.div_small (0 + n - 1)) by lia.
      apply (Nat.div_unique _ _ _ (L - 1)%nat); lia.
Qed.

Lemma ichunked_pos {A} (l : list A) n :
  0 < n → ichunked l n = Ok (chunks_of (length l) (Z.to_nat n) l).
Proof.
  intros Hn. unfold ichunked.
  replace (n <? 0) with false by (symmetry; apply Z.ltb_ge; lia).
  replace (n =? 0) with false by (symmetry; apply Z.eqb_neq; lia).
  done.
Qed.

(** A loop whose body always returns always returns. *)
Lemma for_total {A St} (l : list A) (body : A → St → result St) st :
  (∀ x st, ∃ st', body x st = Ok st') → ∃ st', for_ l body st = Ok st'.
Proof.
  intros Hbody. revert st. induction l as [|x l IH]; intros st; [by eexists|].
  cbn [for_]. destruct (Hbody x st) as [st' ->]. rewrite bind_Ok. apply IH.
Qed.

(** For a well-formed instance the twin of a target node exists, so the
    formatting never raises. *)
Lemma get_twin_ok self leader :
  wf self → leader ∈ Generator.target_nodes self →
  ∃ twin, Generator.get_twin self leader = Ok twin.
Proof.
  intros Hwf Hl. unfold Generator.get_twin.
  rewrite bool_decide_eq_true_2 by done. cbn [assert]. rewrite bind_Ok.
  destruct (wf_len_nodes self Hwf) as [Hlen Hf].
  rewrite wf_target_nodes in Hl by done.
  rewrite <- (Z2Nat.id (Generator.f self)) in Hl by done.
  apply elem_of_range in Hl. rewrite Z2Nat.id in Hl by done.
  unfold wf in Hwf. unfold getitem.
  replace (_ + leader <? 0) with false by (symmetry; apply Z.ltb_ge; lia).
  cbv zeta.
  replace (_ + leader <? 0) with false by (symmetry; apply Z.ltb_ge; lia).
  destruct (lookup_lt_is_Some_2 (Generator.nodes self)
              (Z.to_nat (Generator.number_of_nodes self + leader))) as [y ->];
    [unfold len in Hlen; lia|]. by eexists.
Qed.

Lemma format_scenario_ok self (testcase : testcase) :
  wf self →
  ∃ xy, Generator.JSONFormat._format_scenario self testcase = Ok xy.
Proof.
  intros Hwf. unfold Generator.JSONFormat._format_scenario.
  apply for_total.
  intros [round_number [leader p]] [round_leaders round_partitions].
  case_bool_decide as Hl; [|by eexists].
  destruct (get_twin_ok self leader Hwf Hl) as [twin ->]. by eexists.
Qed.

Lemma make_ok self (testcases : list testcase) flt :
  wf self → ∃ data, Generator.JSONFormat.make self testcases flt = Ok data.
Proof.
  intros Hwf. unfold Generator.JSONFormat.make.
  match goal with
  | |- context [for_ ?l ?b ?st] => destruct (for_total l b st) as [sc ->]
  end.
  - intros testcase scenarios. destruct (flt testcase); [|by eexists].
    destruct (format_scenario_ok self testcase Hwf) as [xy ->]. by eexists.
  - rewrite bind_Ok. by eexists.
Qed.

Lemma prog_bind_Raise {St A B} (m : prog St A) (k : A → prog St B) x e x' :
  m x = (Raise e, x') → (m ≫= k) x = (Raise e, x').
Proof. intros H. unfold mbind, prog_bind. by rewrite H. Qed.

Lemma open_append_ok path data x :
  path.1 ∈ dirs x → path ∉ denied x →
  ∃ x', open_append path data x = (Ok (), x')
        ∧ dirs x' = dirs x ∧ denied x' = denied x
        ∧ opened x' = opened x ++ [path].
Proof.
  intros Hd Hn. unfold open_append. cbn [dirs denied opened files].
  rewrite bool_decide_eq_true_2, bool_decide_eq_false_2 by done.
  eexists. split; [done|]. done.
Qed.

(** The loop of [_print] when nothing stands in its way: one call of
    [open] per chunk, in order. *)
Lemma write_loop self (pid : Z) (dryrun : bool)
    (cs : list (Z * list testcase)) x :
  wf self → writable x (Generator.folder_path self) →
  ∃ x',
    for_ cs (λ '((i, chunk) : Z * list testcase) (_ : unit),
      let basename :=
        "testcase-" +:+ pretty (Generator.machine_index self)
        +:+ "-" +:+ pretty pid in
      let filename :=
        if dryrun then "tmp-" +:+ basename
        else basename +:+ "-" +:+ pretty i in
      data ← lift (Generator.JSONFormat.make self chunk (Generator.filter self));
      open_append (join (Generator.folder_path self) filename) data) () x
    = (Ok (), x')
    ∧ dirs x' = dirs x ∧ denied x' = denied x
    ∧ opened x' = opened x ++ ((λ ic, chunk_path self pid dryrun ic.1) <$> cs).
Proof.
  intros Hwf. revert x. induction cs as [|[i chunk] cs IH]; intros x Hw.
  - exists x. by rewrite app_nil_r.
  - cbn [for_]. cbv zeta.
    destruct (make_ok self chunk (Generator.filter self) Hwf) as [data Hd].
    destruct Hw as [Hdir Hden].
    destruct (open_append_ok (chunk_path self pid dryrun i) data x)
      as (x1 & Ho & Hd1 & Hn1 & Ho1); [done|apply Hden|].
    destruct (IH x1) as (x' & Hl & Hd' & Hn' & Ho').
    { split; [by rewrite Hd1|]. intros name. rewrite Hn1. apply Hden. }
    exists x'. split; [|split; [congruence|split; [congruence|]]].
    + erewrite prog_bind_Ok; [apply Hl|].
      erewrite prog_bind_Ok; [|unfold lift; by rewrite Hd].
      destruct dryrun; apply Ho.
    + rewrite Ho', Ho1, fmap_cons, <- app_assoc. done.
Qed.

Lemma print_worker_ok self shard pid dryrun tpf x :
  wf self → 0 < tpf → writable x (Generator.folder_path self) →
  ∃ x',
    Generator._print self shard pid dryrun tpf x = (Ok (), x')
    ∧ dirs x' = dirs x ∧ denied x' = denied x
    ∧ opened x'
      = opened x ++ ((λ ic, chunk_path self pid dryrun ic.1)
                       <$> enumerate (chunks_of (length shard) (Z.to_nat tpf) shard)).
Proof.
  intros Hwf Htpf Hw. unfold Generator._print.
  destruct (write_loop self pid dryrun
              (enumerate (chunks_of (length shard) (Z.to_nat tpf) shard)) x Hwf Hw)
    as (x' & Hl & H).
  exists x'. split; [|done].
  erewrite prog_bind_Ok; [apply Hl|]. unfold lift. by rewrite ichunked_pos.
Qed.

End ChunkFacts.

(** C8, as the code has it.  For a chunk size [testcases_per_file > 0]
    the writer opens one file per chunk of its shard; the chunks put end
    to end are the shard.  An empty shard gives no chunk at all; a
    non-empty shard shorter than the chunk size gives exactly one chunk;
    a shard of [m > 0] times the chunk size gives [m] chunks of exactly
    [testcases_per_file] testcases, none undersized. *)
Theorem C8_chunks_of_a_shard self (shard : list testcase) pid dryrun tpf x :
  wf self → 0 < tpf → writable x (Generator.folder_path self) →
  ∃ chunks x',
    ichunked shard tpf = Ok chunks
    ∧ Generator._print self shard pid dryrun tpf x = (Ok (), x')
    ∧ len (opened x') = len (opened x) + len chunks
    ∧ concat chunks = shard
    ∧ (shard = [] → chunks = [])
    ∧ (shard ≠ [] → len shard < tpf → chunks = [shard])
    ∧ (∀ m, 0 < m → len shard = m * tpf →
         len chunks = m ∧ Forall (λ c, len c = tpf) chunks).
Proof.
  intros Hwf Htpf Hw.
  destruct (ChunkFacts.print_worker_ok self shard pid dryrun tpf x Hwf Htpf Hw)
    as (x' & Hp & _ & _ & Ho).
  exists (chunks_of (length shard) (Z.to_nat tpf) shard), x'.
  split; [by apply ChunkFacts.ichunked_pos|]. split; [done|].
  split; [|split; [|split; [|split]]].
  - unfold len. rewrite Ho, length_app, length_fmap.
    unfold enumerate. rewrite length_imap. lia.
  - apply ChunkFacts.concat_chunks_of; lia.
  - intros ->. apply ChunkFacts.chunks_of_nil.
  - intros Hne Hlt. apply ChunkFacts.chunks_of_single; [done|lia|].
    unfold len in Hlt. lia.
  - intros m Hm Hlen.
    destruct (ChunkFacts.chunks_of_exact (Z.to_nat m) (length shard)
                (Z.to_nat tpf) shard) as [H1 H2]; [|lia..|].
    { apply Nat2Z.inj. rewrite Nat2Z.inj_mul, !Z2Nat.id by lia. done. }
    split; [unfold len; lia|].
    eapply Forall_impl; [apply H2|]. intros c Hc. simpl in Hc.
    unfold len. lia.
Qed.

Lemma C8_chunks_of_a_shard_witness :
  ∃ (chunks : list (list testcase)) x',
    ichunked [[(0, [[0; 1]; [2]])]; [(0, [[0; 2]; [1]])]] 1 = Ok chunks
    ∧ Generator._print gen [[(0, [[0; 1]; [2]])]; [(0, [[0; 2]; [1]])]]
        0 false 1 fs0 = (Ok (), x')
    ∧ len (opened x') = len (opened fs0) + len chunks
    ∧ concat chunks = [[(0, [[0; 1]; [2]])]; [(0, [[0; 2]; [1]])]]
    ∧ ([[(0, [[0; 1]; [2]])]; [(0, [[0; 2]; [1]])]] = [] → chunks = [])
    ∧ ([[(0, [[0; 1]; [2]])]; [(0, [[0; 2]; [1]])]] ≠ [] →
       len [[(0, [[0; 1]; [2]])]; [(0, [[0; 2]; [1]])]] < 1 →
       chunks = [[[(0, [[0; 1]; [2]])]; [(0, [[0; 2]; [1]])]]])
    ∧ (∀ m, 0 < m →
         len [[(0, [[0; 1]; [2]])]; [(0, [[0; 2]; [1]])]] = m * 1 →
         len chunks = m ∧ Forall (λ c : list testcase, len c = 1) chunks).
Proof.
  apply (C8_chunks_of_a_shard gen
           [[(0, [[0; 1]; [2]])]; [(0, [[0; 2]; [1]])]] 0 false 1 fs0).
  - apply InitFacts.gen_wf.
  - lia.
  - apply InitFacts.fs0_writable.
Defined.

(** C8 as stated fails on an empty shard (the share of a worker when
    there are more workers than testcases): the chunk size [1] is larger
    than its length, and the writer produces no chunk, not one. *)
Lemma C8_empty_shard_counterexample :
  0 < 1 ∧ len (@nil testcase) < 1
  ∧ ichunked (@nil testcase) 1 = Ok []
  ∧ Generator._print gen [] 0 false 1 fs0 = (Ok (), fs0)
  ∧ ¬ (∃ chunks : list (list testcase),
         ichunked [] 1 = Ok chunks ∧ length chunks = 1%nat).
Proof.
  split; [lia|]. split; [done|]. split; [done|]. split; [done|].
  intros (chunks & [= <-] & Hl). done.
Qed.

(** ** Worker processes *)

Module ProcessFacts.
Import LoopFacts InitFacts ChunkFacts.

(** No loop of the writer runs forever. *)
Lemma for_no_diverge {A St} (l : list A) (body : A → St → result St) st :
  (∀ x st, body x st ≠ Diverge) → for_ l body st ≠ Diverge.
Proof.
  intros Hbody. revert st. induction l as [|x l IH]; intros st; [done|].
  cbn [for_]. pose proof (Hbody x st) as Hx.
  destruct (body x st) as [st'| |]; [apply IH|done|done].
Qed.

Lemma getitem_no_diverge {A} (l : list A) i : getitem l i ≠ Diverge.
Proof.
  unfold getitem. destruct (_ <? 0); [done|]. by destruct (l !! _).
Qed.

Lemma bind_no_diverge {A B} (m : result A) (k : A → result B) :
  m ≠ Diverge → (∀ a, k a ≠ Diverge) → m ≫= k ≠ Diverge.
Proof. intros Hm Hk. destruct m; [apply Hk|done|done]. Qed.

Lemma get_twin_no_diverge self node : Generator.get_twin self node ≠ Diverge.
Proof.
  apply bind_no_diverge; [by destruct (bool_decide _)|].
  intros _. apply getitem_no_diverge.
Qed.

Lemma format_scenario_no_diverge self (testcase : testcase) :
  Generator.JSONFormat._format_scenario self testcase ≠ Diverge.
Proof.
  apply for_no_diverge.
  intros [round_number [leader q]] [round_leaders round_partitions].
  apply bind_no_diverge; [|done].
  case_bool_decide; [|done].
  apply bind_no_diverge; [apply get_twin_no_diverge|done].
Qed.

Lemma make_no_diverge self (testcases : list testcase) flt :
  Generator.JSONFormat.make self testcases flt ≠ Diverge.
Proof.
  apply bind_no_diverge; [|done]. apply for_no_diverge.
  intros testcase scenarios. destruct (flt testcase); [|done].
  apply bind_no_diverge; [apply format_scenario_no_diverge|done].
Qed.

Lemma write_loop_no_diverge self (pid : Z) (dryrun : bool)
    (cs : list (Z * list testcase)) x :
  (for_ cs (λ '((i, chunk) : Z * list testcase) (_ : unit),
      let basename :=
        "testcase-" +:+ pretty (Generator.machine_index self)
        +:+ "-" +:+ pretty pid in
      let filename :=
        if dryrun then "tmp-" +:+ basename
        else basename +:+ "-" +:+ pretty i in
      data ← lift (Generator.JSONFormat.make self chunk (Generator.filter self));
      open_append (join (Generator.folder_path self) filename) data) () x).1
  ≠ Diverge.
Proof.
  revert x. induction cs as [|[i chunk] cs IH]; intros x; [done|].
  cbn [for_]. cbv zeta. unfold mbind at 1, prog_bind at 1.
  unfold mbind at 1, prog_bind at 1, lift at 1.
  pose proof (make_no_diverge self chunk (Generator.filter self)) as Hm.
  destruct (Generator.JSONFormat.make _ _ _) as [data| |]; [|done..].
  unfold open_append. cbn [dirs denied opened files].
  destruct (_ && _); [|done]. apply IH.
Qed.

Lemma print_worker_no_diverge self shard pid dryrun tpf x :
  0 < tpf → (Generator._print self shard pid dryrun tpf x).1 ≠ Diverge.
Proof.
  intros Htpf. unfold Generator._print.
  erewrite prog_bind_Ok; [|unfold lift; by rewrite ichunked_pos].
  apply write_loop_no_diverge.
Qed.

Lemma worker_exits self shard pid dryrun tpf x :
  0 < tpf →
  ∃ code, Process_start (Generator._print self shard pid dryrun tpf) x
          = (Ok {| exitcode := Some code |},
             (Generator._print self shard pid dryrun tpf x).2).
Proof.
  intros Htpf. unfold Process_start.
  pose proof (print_worker_no_diverge self shard pid dryrun tpf x Htpf) as H.
  destruct (Generator._print self shard pid dryrun tpf x) as [[[]|e|] x'];
    [by eexists..|done].
Qed.

(** The loop that starts the workers: every worker is started and its
    [_print] runs on what the earlier ones left. *)
Lemma start_loop self dryrun tpf (suf pre : list (list testcase)) jobs x a :
  0 < tpf → a = length pre →
  ∃ jobs',
    for_ (Z.of_nat <$> seq a (length suf)) (λ i jobs,
      chunk ← lift (getitem (pre ++ suf) i);
      p ← Process_start (Generator._print self chunk i dryrun tpf);
      mret (jobs ++ [p])) jobs x
    = (Ok (jobs ++ jobs'),
       foldl (λ x (ic : Z * list testcase),
                (Generator._print self ic.2 ic.1 dryrun tpf x).2)
             x (imap (λ i s, (Z.of_nat (a + i), s)) suf))
    ∧ Forall (λ p, is_Some (exitcode p)) jobs'.
Proof.
  intros Htpf. revert pre jobs x a.
  induction suf as [|shard suf IH]; intros pre jobs x a Ha.
  - exists []. split; [|constructor]. by rewrite (app_nil_r jobs).
  - cbn [length seq fmap list_fmap for_].
    destruct (worker_exits self shard (Z.of_nat a) dryrun tpf x Htpf)
      as [code Hstart].
    destruct (IH (pre ++ [shard])
                (jobs ++ [{| exitcode := Some code |}])
                (Generator._print self shard (Z.of_nat a) dryrun tpf x).2
                (S a)) as (jobs' & Hloop & Hall).
    { rewrite length_app. simpl. lia. }
    exists ({| exitcode := Some code |} :: jobs'). split.
    + erewrite prog_bind_Ok.
      2:{ erewrite prog_bind_Ok.
          2:{ unfold lift. rewrite (getitem_nat _ a shard); [done|].
              subst a. by apply list_lookup_middle. }
          erewrite prog_bind_Ok; [|apply Hstart]. done. }
      rewrite <- !app_assoc in Hloop. etrans; [exact Hloop|].
      cbn [imap foldl]. rewrite Nat.add_0_r. f_equal. f_equal.
      apply imap_ext. intros i s _. simpl. do 2 f_equal. lia.
    + constructor; [by eexists|done].
Qed.

Lemma join_loop (jobs : list Process) (x : filesystem) :
  Forall (λ p, is_Some (exitcode p)) jobs →
  for_ jobs (λ p (_ : unit), lift (Process_join p)) () x = (Ok (), x).
Proof.
  induction 1 as [|p jobs [code Hp] _ IH]; [done|].
  cbn [for_]. erewrite prog_bind_Ok; [apply IH|].
  unfold lift, Process_join. by rewrite Hp.
Qed.

Lemma distribute_ok {A} (n : Z) (l : list A) :
  1 <= n →
  distribute n l
  = Ok ((λ index, islice l index (Z.to_nat n)) <$> seq 0 (Z.to_nat n)).
Proof.
  intros Hn. unfold distribute.
  by replace (n <? 1) with false by (symmetry; apply Z.ltb_ge; lia).
Qed.

(** [print] returns normally whatever happens in the workers, and every
    worker has run. *)
Lemma print_spec self testcases dryrun workers tpf x :
  0 < workers → 0 < tpf →
  Generator.print self testcases dryrun workers tpf x
  = (Ok (),
     run_workers self
       ((λ index, islice testcases index (Z.to_nat workers))
          <$> seq 0 (Z.to_nat workers)) dryrun tpf x).
Proof.
  intros Hw Htpf. unfold Generator.print.
  erewrite prog_bind_Ok; [|unfold lift; by rewrite distribute_ok by lia].
  set (shards := (λ index, islice testcases index (Z.to_nat workers))
                   <$> seq 0 (Z.to_nat workers)).
  assert (range workers = Z.of_nat <$> seq 0 (length shards)) as ->.
  { unfold range, shards. by rewrite length_fmap, length_seq. }
  destruct (start_loop self dryrun tpf shards [] [] x O Htpf eq_refl)
    as (jobs' & Hloop & Hall).
  erewrite prog_bind_Ok; [|apply Hloop].
  by apply join_loop.
Qed.

End ProcessFacts.

(** ** The orchestrator *)

Module RunFacts.
Import LoopFacts InitFacts ChunkFacts ProcessFacts.

Lemma float_root_ok n r : n < 2 ^ 1024 - 2 ^ 970 → float_root n r = Ok ().
Proof.
  intros H. unfold float_root.
  by replace (_ <=? n) with false by (symmetry; apply Z.leb_gt; lia).
Qed.

Lemma getitem_shards {A} (l : list A) (M mi : Z) :
  0 < mi <= M →
  getitem ((λ index, islice l index (Z.to_nat M)) <$> seq 0 (Z.to_nat M))
          (mi - 1)
  = Ok (islice l (Z.to_nat (mi - 1)) (Z.to_nat M)).
Proof.
  intros H. rewrite <- (Z2Nat.id (mi - 1)) at 1 by lia.
  apply getitem_nat. rewrite list_lookup_fmap, lookup_seq_lt by lia. done.
Qed.

Lemma in_fs_print self0 self shard dryrun workers tpf lg x :
  0 < workers → 0 < tpf →
  Generator.in_fs (Generator.print self shard dryrun workers tpf)
    (self0, {| log := lg; fs := x |})
  = (Ok (), (self0,
       {| log := lg;
          fs := run_workers self
                  ((λ index, islice shard index (Z.to_nat workers))
                     <$> seq 0 (Z.to_nat workers)) dryrun tpf x |})).
Proof.
  intros Hw Htpf. unfold Generator.in_fs, Generator.in_world, zoom.
  cbn [fst snd fs]. by rewrite print_spec.
Qed.

Lemma with_ok {St D A} (enter : prog St D) (exit : D → prog St unit)
    (body : D → prog St A) st d st1 a st2 st3 :
  enter st = (Ok d, st1) → body d st1 = (Ok a, st2) →
  exit d st2 = (Ok (), st3) →
  with_ enter exit body st = (Ok a, st3).
Proof.
  intros He Hb Hx. unfold with_. erewrite prog_bind_Ok; [|apply He].
  cbv beta. rewrite Hb. by erewrite prog_bind_Ok; [|apply Hx].
Qed.

Lemma run_spec self w (dryrun : bool) workers tpf n :
  wf self → 0 < workers → 0 < tpf →
  Generator.testcases_length self = Ok n → n < 2 ^ 1024 - 2 ^ 970 →
  Generator.run (VBool dryrun) (VInt workers) (VInt tpf) (self, w)
  = (Ok (),
     (if dryrun then Generator.set_folder_path self (fresh (dirs (fs w)))
      else self,
      {| log := log w ++ run_log n;
         fs := run_fs self dryrun workers tpf (fs w) |})).
Proof.
  intros Hwf Hw Htpf Hlen Hn. unfold Generator.run. cbv zeta.
  cbn [isinstance_bool isinstance_int int_of bool_of andb negb].
  replace (0 <? workers) with true by (symmetry; apply Z.ltb_lt; lia).
  replace (0 <? tpf) with true by (symmetry; apply Z.ltb_lt; lia).
  cbn [andb negb].
  destruct w as [lg x].
  erewrite prog_bind_Ok; [|reflexivity]. cbn [fst snd].
  rewrite Hlen, wf_S by done.
  rewrite StoreFacts.make_partitions_parts by (unfold wf in Hwf; lia).
  rewrite !bind_Ok, float_root_ok by done.
  unfold Generator.combine_scenarios_with_rounds, product.
  replace (Generator.number_of_rounds self <? 0) with false
    by (symmetry; apply Z.ltb_ge; unfold wf in Hwf; lia).
  fold (pipeline self).
  do 18 (erewrite prog_bind_Ok; [|reflexivity];
         unfold set_log; cbn [fst snd log fs]).
  erewrite prog_bind_Ok;
    [|unfold lift; by rewrite distribute_ok by (unfold wf in Hwf; lia)].
  destruct dryrun.
  - erewrite prog_bind_Ok.
    2:{ eapply with_ok.
        - reflexivity.
        - cbn [fst snd log fs].
          erewrite prog_bind_Ok; [|reflexivity].
          erewrite prog_bind_Ok; [|reflexivity].
          cbn [fst snd Generator.machine_index Generator.set_folder_path].
          erewrite prog_bind_Ok;
            [|unfold lift; by rewrite getitem_shards by (unfold wf in Hwf; lia)].
          unfold set_fs; cbn [log fs]. by rewrite in_fs_print.
        - reflexivity. }
    unfold Generator.in_world, zoom, logger, set_log, set_fs.
    cbn [fst snd log fs]. unfold run_log. rewrite <- !app_assoc. reflexivity.
  - erewrite prog_bind_Ok.
    2:{ eapply with_ok.
        - reflexivity.
        - cbn [fst snd log fs].
          erewrite prog_bind_Ok; [|reflexivity].
          erewrite prog_bind_Ok; [|reflexivity].
          cbn [fst snd Generator.machine_index Generator.set_folder_path].
          erewrite prog_bind_Ok;
            [|unfold lift; by rewrite getitem_shards by (unfold wf in Hwf; lia)].
          unfold set_fs; cbn [log fs]. by rewrite in_fs_print.
        - reflexivity. }
    unfold Generator.in_world, zoom, logger, set_log, set_fs.
    cbn [fst snd log fs]. unfold run_log. rewrite <- !app_assoc. reflexivity.
Qed.
Lemma run_type_error self w dryrun workers tpf :
  isinstance_bool dryrun && isinstance_int workers && isinstance_int tpf
  = false →
  Generator.run dryrun workers tpf (self, w)
  = (Raise TypeError, (self, logged TypeError "Bad input types." w)).
Proof. intros H. unfold Generator.run. cbv zeta. rewrite H. reflexivity. Qed.

Lemma run_value_error self w dryrun workers tpf :
  isinstance_bool dryrun && isinstance_int workers && isinstance_int tpf
  = true →
  (0 <? int_of workers) && (0 <? int_of tpf) = false →
  Generator.run dryrun workers tpf (self, w)
  = (Raise ValueError, (self, logged ValueError "Bad input values." w)).
Proof.
  intros Ht Hv. unfold Generator.run. cbv zeta. rewrite Ht. cbn [negb].
  rewrite !andb_true_l.
  destruct (0 <? int_of workers), (0 <? int_of tpf); try done.
Qed.

End RunFacts.

(** The cases of the repository's tests of the constructor and of [run]. *)
Example test_make_generator_input_value_error :
  (Generator.__init__ (VInt 4) (VInt 2) (VInt 8) None (VStr "./") (VInt (-1))
     (VInt 1) w0).1 = Raise ValueError.
Proof. reflexivity. Qed.

Example test_make_generator_too_many_partitions_error :
  (Generator.__init__ (VInt 4) (VInt 20) (VInt 8) None (VStr "./") (VInt 1)
     (VInt 1) w0).1 = Raise ValueError.
Proof. reflexivity. Qed.

Example test_run_type_input_type_error :
  (Generator.run (VBool true) (VStr "a") (VInt 1000) (gen, w0)).1
  = Raise TypeError.
Proof. reflexivity. Qed.

Example test_run_type_input_value_error :
  (Generator.run (VBool true) (VInt 0) (VInt 1000) (gen, w0)).1
  = Raise ValueError.
Proof. reflexivity. Qed.

Example test_run :
  (Generator.run (VBool true) (VInt 1) (VInt 1000) (gen, w0)).1 = Ok ().
Proof. vm_compute. reflexivity. Qed.

Example test_print_process :
  length (opened (Generator._print gen (pipeline gen) 1 true 1000 fs0).2)
  = 4%nat.
Proof. vm_compute. reflexivity. Qed.

(** C7.  A non-integer where the constructor expects an integer raises
    [TypeError]; with arguments of the right types, a non-positive node,
    partition or round count, a machine index that is not in
    [1..number_of_machines], or more partitions than
    [number_of_nodes + f] nodes raises [ValueError]; [run] does the same
    for its own parameters.  In every case the error is what the call
    returns, and the state it leaves is the one it found plus one error
    record in the log: no enumeration step was logged or run, no file was
    opened, the instance is unchanged. *)
Theorem C7_configuration_errors :
  (∀ nn k r flt fp mi nm w,
     isinstance_int nn = false ∨ isinstance_int k = false
     ∨ isinstance_int r = false ∨ isinstance_int mi = false
     ∨ isinstance_int nm = false →
     Generator.__init__ nn k r flt fp mi nm w
     = (Raise TypeError, logged TypeError "Bad input types." w))
  ∧ (∀ nn k r flt fp mi nm w,
       init_types_ok nn k r fp mi nm = true →
       int_of nn <= 0 ∨ int_of k <= 0 ∨ int_of r <= 0
       ∨ int_of mi <= 0 ∨ int_of nm < int_of mi
       ∨ int_of nn + (int_of nn - 1) / 3 < int_of k →
       ∃ message,
         Generator.__init__ nn k r flt fp mi nm w
         = (Raise ValueError, logged ValueError message w))
  ∧ (∀ self w dryrun workers tpf,
       isinstance_bool dryrun = false ∨ isinstance_int workers = false
       ∨ isinstance_int tpf = false →
       Generator.run dryrun workers tpf (self, w)
       = (Raise TypeError, (self, logged TypeError "Bad input types." w)))
  ∧ (∀ self w dryrun workers tpf,
       isinstance_bool dryrun = true → isinstance_int workers = true →
       isinstance_int tpf = true →
       int_of workers <= 0 ∨ int_of tpf <= 0 →
       Generator.run dryrun workers tpf (self, w)
       = (Raise ValueError, (self, logged ValueError "Bad input values." w)))
  ∧ (∀ e message w,
       fs (logged e message w) = fs w
       ∧ log (logged e message w) = log w ++ [LogError e message]).
Proof.
  split; [|split; [|split; [|split]]].
  - intros nn k r flt fp mi nm w H. apply InitFacts.init_type_error.
    unfold init_types_ok.
    destruct H as [-> | [-> | [-> | [-> | ->]]]];
      rewrite ?andb_false_r; reflexivity.
  - intros nn k r flt fp mi nm w Ht H.
    destruct (init_values_ok nn k r mi nm) eqn:Hv.
    + apply InitFacts.init_partitions_error; [done..|].
      unfold init_values_ok in Hv.
      rewrite !andb_true_iff, !Z.ltb_lt, Z.leb_le in Hv. lia.
    + eexists. by apply InitFacts.init_value_error.
  - intros self w dryrun workers tpf H. apply RunFacts.run_type_error.
    destruct H as [-> | [-> | ->]]; rewrite ?andb_false_r; reflexivity.
  - intros self w dryrun workers tpf Hd Hw Ht H.
    apply RunFacts.run_value_error; [by rewrite Hd, Hw, Ht|].
    destruct H as [H|H].
    + replace (0 <? int_of workers) with false; [done|].
      symmetry. apply Z.ltb_ge. lia.
    + replace (0 <? int_of tpf) with false; [by rewrite andb_false_r|].
      symmetry. apply Z.ltb_ge. lia.
  - done.
Qed.

(** C6, as the code has it.  [print] starts every worker and every
    worker's [_print] runs on its shard, whatever the earlier workers
    returned (a failing worker does not halt its siblings); after all
    workers are joined [print] returns normally and [run] logs
    [Finished.] and returns normally: the exit codes are never read, a
    failure in a worker is not surfaced to the caller. *)
Theorem C6_worker_failure_not_surfaced self w (dryrun : bool) workers tpf n :
  wf self → 0 < workers → 0 < tpf →
  Generator.testcases_length self = Ok n → n < 2 ^ 1024 - 2 ^ 970 →
  (∀ testcases x,
     ∃ shards,
       distribute workers testcases = Ok shards
       ∧ Generator.print self testcases dryrun workers tpf x
         = (Ok (), run_workers self shards dryrun tpf x))
  ∧ Generator.run (VBool dryrun) (VInt workers) (VInt tpf) (self, w)
    = (Ok (),
       (if dryrun then Generator.set_folder_path self (fresh (dirs (fs w)))
        else self,
        {| log := log w ++ run_log n;
           fs := run_fs self dryrun workers tpf (fs w) |})).
Proof.
  intros Hwf Hw Htpf Hlen Hn. split; [|by apply RunFacts.run_spec].
  intros testcases x. eexists. split.
  - apply ProcessFacts.distribute_ok. lia.
  - by apply ProcessFacts.print_spec.
Qed.

Lemma C6_worker_failure_not_surfaced_witness :
  (∀ testcases x,
     ∃ shards,
       distribute 2 testcases = Ok shards
       ∧ Generator.print gen1 testcases false 2 1000 x
         = (Ok (), run_workers gen1 shards false 1000 x))
  ∧ Generator.run (VBool false) (VInt 2) (VInt 1000)
      (gen1, {| log := []; fs := fs_denied |})
    = (Ok (),
       (gen1,
        {| log := [] ++ run_log 15;
           fs := run_fs gen1 false 2 1000 fs_denied |})).
Proof.
  apply (C6_worker_failure_not_surfaced gen1
           {| log := []; fs := fs_denied |} false 2 1000 15).
  - apply InitFacts.gen1_wf.
  - lia.
  - lia.
  - reflexivity.
  - vm_compute. reflexivity.
Defined.

(** C6 as stated fails: with the first file of worker 0 not writable,
    worker 0 ends with exit code 1 while worker 1 writes its file, and
    [run] returns normally with [Finished.] as its last log record. *)
Lemma C6_failure_reported_as_success_counterexample :
  ∃ shard0 shard1 w',
    distribute 2 (machine_shard gen1) = Ok [shard0; shard1]
    ∧ worker_exitcode gen1 shard0 0 false 1000 fs_denied = Some 1
    ∧ Generator.run (VBool false) (VInt 2) (VInt 1000)
        (gen1, {| log := []; fs := fs_denied |}) = (Ok (), (gen1, w'))
    ∧ last (log w') = Some LogInfoFinished
    ∧ files (fs w') !! ("./", "testcase-1-0-0") = None
    ∧ is_Some (files (fs w') !! ("./", "testcase-1-1-0")).
Proof.
  do 3 eexists. split; [vm_compute; reflexivity|].
  split; [vm_compute; reflexivity|].
  split; [vm_compute; reflexivity|].
  split; [vm_compute; reflexivity|].
  split; [vm_compute; reflexivity|].
  vm_compute. by eexists.
Qed.

(** ** What the workers touch *)

Module FrameFacts.
Import LoopFacts InitFacts ChunkFacts ProcessFacts.

Lemma touches_only_refl folder x : touches_only folder x x.
Proof.
  split; [done|]. split; [done|]. split; [|done].
  exists []. by rewrite app_nil_r.
Qed.

Lemma touches_only_trans folder x1 x2 x3 :
  touches_only folder x1 x2 → touches_only folder x2 x3 →
  touches_only folder x1 x3.
Proof.
  intros (Hd1 & Hn1 & (new1 & Ho1 & Hf1) & Hfi1)
         (Hd2 & Hn2 & (new2 & Ho2 & Hf2) & Hfi2).
  split; [congruence|]. split; [congruence|]. split.
  - exists (new1 ++ new2). split; [by rewrite Ho2, Ho1, app_assoc|].
    by apply Forall_app.
  - intros Hnot. rewrite Hfi2, Hfi1; [done..|by rewrite Hd1].
Qed.

Lemma open_append_touches folder name data x :
  touches_only folder x (open_append (join folder name) data x).2.
Proof.
  unfold open_append, join. cbn [fst dirs denied opened files].
  case_bool_decide as Hd; cbn [andb].
  - destruct (negb _); cbn [snd dirs denied opened files].
    + split; [done|]. split; [done|]. split; [|done].
      exists [(folder, name)]. split; [done|]. by repeat constructor.
    + split; [done|]. split; [done|]. split; [|done].
      exists [(folder, name)]. split; [done|]. by repeat constructor.
  - cbn [snd]. split; [done|]. split; [done|]. split; [|done].
    exists [(folder, name)]. split; [done|]. by repeat constructor.
Qed.

Lemma write_loop_touches self (pid : Z) (dryrun : bool)
    (cs : list (Z * list testcase)) x :
  touches_only (Generator.folder_path self) x
    (for_ cs (λ '((i, chunk) : Z * list testcase) (_ : unit),
      let basename :=
        "testcase-" +:+ pretty (Generator.machine_index self)
        +:+ "-" +:+ pretty pid in
      let filename :=
        if dryrun then "tmp-" +:+ basename
        else basename +:+ "-" +:+ pretty i in
      data ← lift (Generator.JSONFormat.make self chunk (Generator.filter self));
      open_append (join (Generator.folder_path self) filename) data) () x).2.
Proof.
  revert x. induction cs as [|[i chunk] cs IH]; intros x.
  - apply touches_only_refl.
  - cbn [for_]. cbv zeta. unfold mbind at 1, prog_bind at 1.
    unfold mbind at 1, prog_bind at 1, lift at 1.
    destruct (Generator.JSONFormat.make _ _ _) as [data| |];
      [|apply touches_only_refl..].
    match goal with
    | |- context [open_append (join ?f ?name) ?d ?x] =>
        pose proof (open_append_touches f name d x) as Ht;
        destruct (open_append (join f name) d x) as [[[]| |] x1]
    end; cbn [snd] in *; [|done..].
    eapply touches_only_trans; [apply Ht|apply IH].
Qed.

Lemma print_worker_touches self shard pid dryrun tpf x :
  touches_only (Generator.folder_path self) x
    (Generator._print self shard pid dryrun tpf x).2.
Proof.
  unfold Generator._print. unfold mbind at 1, prog_bind at 1, lift at 1.
  destruct (ichunked shard tpf) as [chunks| |]; [|apply touches_only_refl..].
  apply write_loop_touches.
Qed.

Lemma run_workers_touches self shards dryrun tpf x :
  touches_only (Generator.folder_path self) x
    (run_workers self shards dryrun tpf x).
Proof.
  unfold run_workers. generalize (enumerate shards). intros l.
  revert x. induction l as [|[i shard] l IH]; intros x.
  - apply touches_only_refl.
  - cbn [foldl fst snd]. eapply touches_only_trans; [|apply IH].
    apply print_worker_touches.
Qed.

End FrameFacts.

(** C10.  A [run] with [dryrun=True] leaves the instance with
    [folder_path] set to the temporary directory, which did not exist
    before the run and is deleted when the run returns; the attribute is
    not restored.  A later [run] of the same instance (not a dry run)
    therefore opens its files under that deleted directory only, and
    writes nothing. *)
Theorem C10_dryrun_reassigns_folder_path self w workers tpf n :
  wf self → 0 < workers → 0 < tpf →
  Generator.testcases_length self = Ok n → n < 2 ^ 1024 - 2 ^ 970 →
  ∃ directory w',
    Generator.run (VBool true) (VInt workers) (VInt tpf) (self, w)
    = (Ok (), (Generator.set_folder_path self directory, w'))
    ∧ Generator.folder_path (Generator.set_folder_path self directory)
      = directory
    ∧ directory ∉ dirs (fs w)
    ∧ directory ∉ dirs (fs w')
    ∧ (Generator.folder_path self ∈ dirs (fs w) →
       directory ≠ Generator.folder_path self)
    ∧ ∀ workers2 tpf2, 0 < workers2 → 0 < tpf2 →
        ∃ w'',
          Generator.run (VBool false) (VInt workers2) (VInt tpf2)
            (Generator.set_folder_path self directory, w')
          = (Ok (), (Generator.set_folder_path self directory, w''))
          ∧ files (fs w'') = files (fs w')
          ∧ ∃ new, opened (fs w'') = opened (fs w') ++ new
                   ∧ Forall (λ p, p.1 = directory) new.
Proof.
  intros Hwf Hw Htpf Hlen Hn.
  set (directory := fresh (dirs (fs w))).
  assert (directory ∉ dirs (fs w)) as Hfresh by apply is_fresh.
  eexists directory, _. split; [by apply RunFacts.run_spec|].
  split; [done|]. split; [done|].
  assert (directory ∉ dirs (run_fs self true workers tpf (fs w))) as Hgone.
  { unfold run_fs, TemporaryDirectory_exit. cbn [snd dirs]. set_solver. }
  split; [done|]. split; [by intros ? ->|].
  intros workers2 tpf2 Hw2 Htpf2. eexists. split.
  - apply RunFacts.run_spec; done.
  - cbn [fs log run_fs].
    destruct (FrameFacts.run_workers_touches
                (Generator.set_folder_path self directory)
                (worker_shards (Generator.set_folder_path self directory) workers2)
                false tpf2 (run_fs self true workers tpf (fs w)))
      as (_ & _ & Hnew & Hfiles).
    split; [by apply Hfiles|]. apply Hnew.
Qed.

Lemma C10_dryrun_reassigns_folder_path_witness :
  ∃ directory w',
    Generator.run (VBool true) (VInt 1) (VInt 1000) (gen, w0)
    = (Ok (), (Generator.set_folder_path gen directory, w'))
    ∧ Generator.folder_path (Generator.set_folder_path gen directory)
      = directory
    ∧ directory ∉ dirs (fs w0)
    ∧ directory ∉ dirs (fs w')
    ∧ (Generator.folder_path gen ∈ dirs (fs w0) →
       directory ≠ Generator.folder_path gen)
    ∧ ∀ workers2 tpf2, 0 < workers2 → 0 < tpf2 →
        ∃ w'',
          Generator.run (VBool false) (VInt workers2) (VInt tpf2)
            (Generator.set_folder_path gen directory, w')
          = (Ok (), (Generator.set_folder_path gen directory, w''))
          ∧ files (fs w'') = files (fs w')
          ∧ ∃ new, opened (fs w'') = opened (fs w') ++ new
                   ∧ Forall (λ p, p.1 = directory) new.
Proof.
  apply (C10_dryrun_reassigns_folder_path gen w0 1 1000 3375).
  - apply InitFacts.gen_wf.
  - lia.
  - lia.
  - vm_compute. reflexivity.
  - vm_compute. reflexivity.
Defined.

(** The fixture after a dry run: the configured folder ["./"] is gone
    from the instance, and a real run then tries the deleted directory
    for its first file and writes nothing. *)
Example dryrun_then_run_gen :
  ∃ self' w' w'',
    Generator.run (VBool true) (VInt 1) (VInt 1000) (gen, w0)
    = (Ok (), (self', w'))
    ∧ Generator.folder_path gen = "./"
    ∧ Generator.folder_path self' = "0"
    ∧ dirs (fs w') = {["./"]}
    ∧ Generator.run (VBool false) (VInt 1) (VInt 1000) (self', w')
      = (Ok (), (self', w''))
    ∧ opened (fs w'') = opened (fs w') ++ [("0", "testcase-1-0-0")]
    ∧ files (fs w'') = ∅.
Proof.
  do 3 eexists. split; [vm_compute; reflexivity|].
  split; [reflexivity|]. split; [reflexivity|].
  split; [vm_compute; reflexivity|].
  split; [vm_compute; reflexivity|].
  split; vm_compute; reflexivity.
Qed.

(** ** Nodes and twins *)

Module TwinFacts.
Import LoopFacts InitFacts.

Lemma elem_of_range_Z n x : 0 <= n → x ∈ range n ↔ 0 <= x < n.
Proof.
  intros Hn. rewrite <- (Z2Nat.id n) at 1 by done.
  rewrite elem_of_range. lia.
Qed.

Lemma lookup_range (n : Z) (i : nat) :
  Z.of_nat i < n → range n !! i = Some (Z.of_nat i).
Proof.
  intros Hi. unfold range. rewrite list_lookup_fmap, lookup_seq_lt by lia. done.
Qed.

Lemma wf_f_bounds self :
  wf self → 0 <= Generator.f self ∧ 3 * Generator.f self < Generator.number_of_nodes self.
Proof.
  intros (Hn & _ & _ & _ & Hf & _). rewrite Hf.
  pose proof (Z.mul_div_le (Generator.number_of_nodes self - 1) 3 ltac:(lia)).
  pose proof (Z.div_pos (Generator.number_of_nodes self - 1) 3 ltac:(lia) ltac:(lia)).
  lia.
Qed.

Lemma elem_of_target_nodes self node :
  wf self → node ∈ Generator.target_nodes self ↔ 0 <= node < Generator.f self.
Proof.
  intros Hwf. rewrite wf_target_nodes by done.
  apply elem_of_range_Z. by apply wf_f_bounds.
Qed.

Lemma elem_of_nodes self x :
  wf self →
  x ∈ Generator.nodes self
  ↔ 0 <= x < Generator.number_of_nodes self + Generator.f self.
Proof.
  intros Hwf. pose proof (wf_f_bounds self Hwf).
  destruct Hwf as (Hn & _ & _ & _ & _ & -> & _).
  apply elem_of_range_Z. lia.
Qed.

Lemma get_twin_value self node :
  wf self → 0 <= node < Generator.f self →
  Generator.get_twin self node = Ok (Generator.number_of_nodes self + node).
Proof.
  intros Hwf Hnode. unfold Generator.get_twin.
  rewrite bool_decide_eq_true_2 by (by apply elem_of_target_nodes).
  cbn [assert]. rewrite bind_Ok.
  pose proof (wf_f_bounds self Hwf).
  destruct Hwf as (Hn & _ & _ & _ & _ & Hnodes & _).
  rewrite <- (Z2Nat.id (Generator.number_of_nodes self + node)) at 1 by lia.
  apply getitem_nat. rewrite Hnodes.
  rewrite lookup_range by lia. f_equal. lia.
Qed.

Lemma get_twin_assert self node :
  node ∉ Generator.target_nodes self →
  Generator.get_twin self node = Raise AssertionError.
Proof.
  intros H. unfold Generator.get_twin.
  by rewrite bool_decide_eq_false_2.
Qed.

End TwinFacts.

(** X1.  For an instance the constructor built: the target nodes are
    the indices [0..f-1]; the twin of target node [i] is node
    [number_of_nodes + i], which is a node of the instance and not itself
    a target; asking for the twin of anything else fails the assertion;
    the nodes are the [number_of_nodes] originals and the twins of the
    targets, and there are fewer than a third as many twins as
    originals. *)
Theorem get_twin_spec self :
  wf self →
  (∀ node, node ∈ Generator.target_nodes self ↔ 0 <= node < Generator.f self)
  ∧ (∀ node, 0 <= node < Generator.f self →
       Generator.get_twin self node
       = Ok (Generator.number_of_nodes self + node)
       ∧ Generator.number_of_nodes self + node ∈ Generator.nodes self
       ∧ Generator.number_of_nodes self + node ∉ Generator.target_nodes self)
  ∧ (∀ node, ¬ 0 <= node < Generator.f self →
       Generator.get_twin self node = Raise AssertionError)
  ∧ (∀ x, x ∈ Generator.nodes self ↔
       0 <= x < Generator.number_of_nodes self
       ∨ ∃ node, node ∈ Generator.target_nodes self
                 ∧ Generator.get_twin self node = Ok x)
  ∧ 3 * Generator.f self < Generator.number_of_nodes self.
Proof.
  intros Hwf. pose proof (TwinFacts.wf_f_bounds self Hwf) as [Hf0 Hf3].
  split; [intros; by apply TwinFacts.elem_of_target_nodes|].
  split; [|split; [|split; [|done]]].
  - intros node Hnode. split; [by apply TwinFacts.get_twin_value|].
    rewrite TwinFacts.elem_of_nodes, TwinFacts.elem_of_target_nodes by done.
    lia.
  - intros node Hnode. apply TwinFacts.get_twin_assert.
    by rewrite TwinFacts.elem_of_target_nodes.
  - intros x. rewrite TwinFacts.elem_of_nodes by done. split.
    + intros Hx.
      destruct (decide (x < Generator.number_of_nodes self)); [left; lia|].
      right. exists (x - Generator.number_of_nodes self).
      rewrite TwinFacts.elem_of_target_nodes by done. split; [lia|].
      rewrite TwinFacts.get_twin_value by (done || lia). f_equal. lia.
    + intros [Hx|(node & Hnode & Htwin)]; [lia|].
      apply TwinFacts.elem_of_target_nodes in Hnode; [|done].
      rewrite TwinFacts.get_twin_value in Htwin by done.
      injection Htwin as <-. lia.
Qed.

Lemma get_twin_spec_witness :
  (∀ node, node ∈ Generator.target_nodes gen ↔ 0 <= node < Generator.f gen)
  ∧ (∀ node, 0 <= node < Generator.f gen →
       Generator.get_twin gen node
       = Ok (Generator.number_of_nodes gen + node)
       ∧ Generator.number_of_nodes gen + node ∈ Generator.nodes gen
       ∧ Generator.number_of_nodes gen + node ∉ Generator.target_nodes gen)
  ∧ (∀ node, ¬ 0 <= node < Generator.f gen →
       Generator.get_twin gen node = Raise AssertionError)
  ∧ (∀ x, x ∈ Generator.nodes gen ↔
       0 <= x < Generator.number_of_nodes gen
       ∨ ∃ node, node ∈ Generator.target_nodes gen
                 ∧ Generator.get_twin gen node = Ok x)
  ∧ 3 * Generator.f gen < Generator.number_of_nodes gen.
Proof. apply (get_twin_spec gen). apply InitFacts.gen_wf. Defined.

(** ** The constructor, accepted configurations *)

Module ConstructorFacts.
Import CombinatoricsFacts LoopFacts EnumerationFacts InitFacts.

Lemma init_ok_log nn k r flt fp mi nm w :
  init_types_ok nn k r fp mi nm = true →
  init_values_ok nn k r mi nm = true →
  int_of k <= int_of nn + (int_of nn - 1) / 3 →
  ∃ n,
    Generator.testcases_length (mk_self nn k r flt fp mi nm) = Ok n
    ∧ Generator.__init__ nn k r flt fp mi nm w
      = (Ok (mk_self nn k r flt fp mi nm),
         {| log := log w
              ++ (if 1000000000 <? n
                  then [LogWarning "Running the generator with these configurations will generate more than 1 billion testcases."]
                  else [])
              ++ [LogInfoRepr (int_of nn) (int_of k) (int_of r) (str_of fp)
                    (int_of mi) (int_of nm)];
            fs := fs w |}).
Proof.
  intros Ht Hv Hk. pose proof (mk_self_wf nn k r flt fp mi nm Hv Hk) as Hwf.
  pose proof (wf_testcases_length _ Hwf) as Hlen.
  eexists. split; [exact Hlen|].
  unfold init_types_ok, init_values_ok in *.
  assert (0 < int_of nn) as Hn.
  { rewrite !andb_true_iff, !Z.ltb_lt in Hv. lia. }
  unfold Generator.__init__. cbv zeta. rewrite Ht. cbn [negb].
  rewrite !andb_true_l in *. rewrite <- !andb_assoc in *.
  rewrite Hv. cbn [negb Generator.nodes Generator.number_of_partitions].
  rewrite len_range by (pose proof (Z.div_pos (int_of nn - 1) 3); lia).
  replace (_ <? int_of k) with false by (symmetry; apply Z.ltb_ge; lia).
  fold (mk_self nn k r flt fp mi nm).
  unfold mbind at 1, prog_bind at 1, lift at 1. rewrite Hlen.
  match goal with |- context [if ?c then _ else _] => destruct c end.
  - unfold mbind, prog_bind, logger, mret, prog_ret, set_log. cbn [log fs].
    by rewrite <- app_assoc.
  - unfold mbind, prog_bind, logger, mret, prog_ret, set_log. cbn [log fs].
    done.
Qed.

Lemma init_values_ok_iff nn k r mi nm :
  init_values_ok nn k r mi nm = true
  ↔ 0 < int_of nn ∧ 0 < int_of k ∧ 0 < int_of r
    ∧ 0 < int_of mi <= int_of nm.
Proof.
  unfold init_values_ok. rewrite !andb_true_iff, !Z.ltb_lt, Z.leb_le. lia.
Qed.

(** The Stirling numbers are positive on [1 <= k <= n]. *)
Lemma stirling_pos n : ∀ k, (1 ≤ k ≤ n)%nat → (1 ≤ stirling n k)%nat.
Proof.
  induction n as [|n IH]; intros k Hk; [lia|].
  destruct k as [|k]; [lia|].
  destruct (decide (k = n)) as [->|Hne]; [by rewrite stirling_diag|].
  destruct k as [|k]; [by rewrite stirling_1|].
  rewrite stirling_SS.
  pose proof (IH (S k) ltac:(lia)). lia.
Qed.

End ConstructorFacts.

(** X2.  The constructor returns an instance exactly for arguments of the
    right types with positive node, partition and round counts, a machine
    index in [1..number_of_machines] and at most
    [number_of_nodes + (number_of_nodes - 1) // 3] partitions.  It then
    leaves the file system alone and logs its settings, preceded by one
    warning exactly when the forecast [testcases_length] exceeds one
    billion. *)
Theorem init_accepts_iff nn k r flt fp mi nm w :
  ((∃ self w', Generator.__init__ nn k r flt fp mi nm w = (Ok self, w'))
   ↔ init_types_ok nn k r fp mi nm = true
     ∧ 0 < int_of nn ∧ 0 < int_of k ∧ 0 < int_of r
     ∧ 0 < int_of mi <= int_of nm
     ∧ int_of k <= int_of nn + (int_of nn - 1) / 3)
  ∧ ∀ self w',
      Generator.__init__ nn k r flt fp mi nm w = (Ok self, w') →
      self = mk_self nn k r flt fp mi nm
      ∧ fs w' = fs w
      ∧ ∃ n, Generator.testcases_length self = Ok n
          ∧ log w'
            = log w
              ++ (if 1000000000 <? n
                  then [LogWarning "Running the generator with these configurations will generate more than 1 billion testcases."]
                  else [])
              ++ [LogInfoRepr (int_of nn) (int_of k) (int_of r) (str_of fp)
                    (int_of mi) (int_of nm)].
Proof.
  assert (∀ self w',
    Generator.__init__ nn k r flt fp mi nm w = (Ok self, w') →
    init_types_ok nn k r fp mi nm = true
    ∧ init_values_ok nn k r mi nm = true
    ∧ int_of k <= int_of nn + (int_of nn - 1) / 3) as Hinv.
  { intros self w' H.
    destruct (init_types_ok nn k r fp mi nm) eqn:Ht.
    2:{ rewrite InitFacts.init_type_error in H by done. done. }
    destruct (init_values_ok nn k r mi nm) eqn:Hv.
    2:{ rewrite InitFacts.init_value_error in H by done. done. }
    destruct (Z.lt_ge_cases (int_of nn + (int_of nn - 1) / 3) (int_of k))
      as [Hk|Hk]; [|done].
    destruct (InitFacts.init_partitions_error nn k r flt fp mi nm w Ht Hv Hk)
      as [m E].
    rewrite E in H. done. }
  split; [split|].
  - intros (self & w' & H). destruct (Hinv _ _ H) as (Ht & Hv & Hk).
    apply ConstructorFacts.init_values_ok_iff in Hv. tauto.
  - intros (Ht & Hn & Hk0 & Hr & Hmi & Hk).
    destruct (ConstructorFacts.init_ok_log nn k r flt fp mi nm w)
      as (n & _ & E); [done| |done|].
    { apply ConstructorFacts.init_values_ok_iff. tauto. }
    by eexists _, _.
  - intros self w' H. destruct (Hinv _ _ H) as (Ht & Hv & Hk).
    destruct (ConstructorFacts.init_ok_log nn k r flt fp mi nm w Ht Hv Hk)
      as (n & Hlen & E).
    rewrite E in H. injection H as <- <-.
    split; [done|]. split; [done|]. by exists n.
Qed.

(** X3.  For an instance the constructor built, [testcases_length]
    returns a non-negative count, which is zero exactly when the instance
    has no target node, that is when [number_of_nodes <= 3]; with four
    nodes or more at least one testcase is forecast. *)
Theorem testcases_length_zero_iff self :
  wf self →
  ∃ n, Generator.testcases_length self = Ok n
    ∧ 0 <= n
    ∧ (n = 0 ↔ Generator.target_nodes self = [])
    ∧ (n = 0 ↔ Generator.number_of_nodes self <= 3).
Proof.
  intros Hwf. rewrite InitFacts.wf_testcases_length by done.
  eexists. split; [done|].
  pose proof (InitFacts.wf_len_nodes self Hwf) as [Hlen Hf0].
  pose proof (ConstructorFacts.stirling_pos (length (Generator.nodes self))
    (Z.to_nat (Generator.number_of_partitions self))) as Hpos.
  destruct Hwf as (Hn & Hk & Hr & _ & Hf & Hnodes & Hkn).
  unfold len in *. specialize (Hpos ltac:(lia)).
  set (s := stirling _ _) in *. set (f := Generator.f self) in *.
  assert (f = 0 ↔ Generator.number_of_nodes self <= 3) as Hf3.
  { subst f. rewrite Hf. split.
    - intros H0. apply Z.div_small_iff in H0; lia.
    - intros H3. apply Z.div_small. lia. }
  assert ((Z.of_nat s * f) ^ Generator.number_of_rounds self = 0 ↔ f = 0) as Hz.
  { split.
    - intros H0. apply Z.pow_eq_0_iff in H0 as [?|[_ H0]]; [lia|]. nia.
    - intros ->. rewrite Z.mul_0_r. apply Z.pow_0_l. lia. }
  split; [apply Z.pow_nonneg; nia|]. split; [|by rewrite Hz].
  rewrite Hz. unfold Generator.target_nodes, slice_to. fold f.
  replace (f <? 0) with false by (symmetry; apply Z.ltb_ge; lia).
  split.
  - intros ->. done.
  - intros Ht. apply (f_equal length) in Ht.
    rewrite length_take in Ht. simpl in Ht. lia.
Qed.

Lemma testcases_length_zero_iff_witness :
  ∃ n, Generator.testcases_length gen = Ok n
    ∧ 0 <= n
    ∧ (n = 0 ↔ Generator.target_nodes gen = [])
    ∧ (n = 0 ↔ Generator.number_of_nodes gen <= 3).
Proof. apply (testcases_length_zero_iff gen). apply InitFacts.gen_wf. Defined.

(** X4.  [S(n, k)] fails its assertion exactly outside [1 <= k <= n];
    inside, it returns a positive count, which is [1] for one block and
    for [n] blocks. *)
Theorem S_domain (n k : Z) :
  (¬ 1 <= k <= n → Generator.S n k = Raise AssertionError)
  ∧ (1 <= k <= n → ∃ s, Generator.S n k = Ok s ∧ 1 <= s)
  ∧ (1 <= n → Generator.S n 1 = Ok 1 ∧ Generator.S n n = Ok 1).
Proof.
  split; [|split].
  - intros H. unfold Generator.S.
    replace ((0 <? n) && (0 <? k) && (k <=? n)) with false; [done|].
    symmetry. rewrite !andb_false_iff, !Z.ltb_ge, Z.leb_gt. lia.
  - intros H. rewrite CombinatoricsFacts.S_stirling by done.
    eexists. split; [done|].
    pose proof (ConstructorFacts.stirling_pos (Z.to_nat n) (Z.to_nat k)). lia.
  - intros H. rewrite !CombinatoricsFacts.S_stirling by lia.
    rewrite EnumerationFacts.stirling_diag.
    destruct (Z.to_nat n) as [|m] eqn:E; [lia|].
    change (Z.to_nat 1) with 1%nat.
    by rewrite EnumerationFacts.stirling_1.
Qed.

(** ** The enumeration: refused arguments, order of the result *)

Module OrderFacts.
Import LoopFacts EnumerationFacts StoreFacts ChunkFacts.

Lemma stirling2_assert fuel : ∀ n k (h : heap),
  (Z.to_nat n < fuel)%nat → ¬ 1 <= k <= n →
  Generator.stirling2 fuel n k h = (Raise AssertionError, h).
Proof.
  induction fuel as [|fuel IH]; intros n k h Hfuel Hk; [lia|].
  cbn [Generator.stirling2].
  destruct ((0 <? n) && (0 <? k)) eqn:Ha; [|by apply prog_bind_Raise].
  rewrite andb_true_iff, !Z.ltb_lt in Ha.
  erewrite prog_bind_Ok; [|reflexivity].
  replace (k =? 1) with false by (symmetry; apply Z.eqb_neq; lia).
  replace (k =? n) with false by (symmetry; apply Z.eqb_neq; lia).
  apply prog_bind_Raise. apply IH; lia.
Qed.

Lemma make_partitions_assert (self : Generator.Generator) :
  ¬ 1 <= Generator.number_of_partitions self <= len (Generator.nodes self) →
  Generator.make_partitions self = Raise AssertionError.
Proof.
  intros H. unfold Generator.make_partitions.
  erewrite prog_bind_Raise; [done|].
  apply stirling2_assert; [lia|done].
Qed.

Lemma increasing_singleton x : increasing [x].
Proof.
  intros i j a b Hij Ha Hb. apply lookup_lt_Some in Hb. simpl in Hb. lia.
Qed.

Lemma increasing_snoc l x :
  increasing l → (∀ y, y ∈ l → y < x) → increasing (l ++ [x]).
Proof.
  intros Hl Hx i j a b Hij Ha Hb.
  assert (i < length l)%nat as Hi.
  { apply lookup_lt_Some in Hb. rewrite length_app in Hb. simpl in Hb. lia. }
  rewrite lookup_app_l in Ha by done.
  destruct (decide (j < length l)%nat) as [Hj|Hj].
  - rewrite lookup_app_l in Hb by done. by apply (Hl i j).
  - rewrite lookup_app_r in Hb by lia.
    destruct (j - length l)%nat; [|done]. injection Hb as <-.
    apply Hx. by eapply list_elem_of_lookup_2.
Qed.

Lemma increasing_range (n : nat) : increasing (range (Z.of_nat n)).
Proof.
  intros i j x y Hij Hx Hy. rewrite range_nat in Hx, Hy.
  rewrite list_lookup_fmap in Hx, Hy.
  destruct (seq 0 n !! i) as [a|] eqn:Ea; [|done].
  destruct (seq 0 n !! j) as [b|] eqn:Eb; [|done].
  apply lookup_seq in Ea as [-> _]. apply lookup_seq in Eb as [-> _].
  simpl in *. injection Hx as <-. injection Hy as <-. lia.
Qed.

Lemma omap_head_singletons (l : list Z) : omap head ((λ x, [x]) <$> l) = l.
Proof. induction l as [|x l IH]; [done|]. cbn. by f_equal. Qed.

Lemma omap_head_app (p q : partition) :
  omap head (p ++ q) = omap head p ++ omap head q.
Proof. apply omap_app. Qed.

Lemma omap_head_extend x j (p : partition) :
  Forall (λ b, b ≠ []) p → omap head (extend_block x j p) = omap head p.
Proof.
  unfold extend_block. revert j. induction p as [|b p IH]; intros j Hp; [done|].
  apply Forall_cons in Hp as [Hb Hp]. destruct j as [|j]; cbn.
  - destruct b; [done|]. done.
  - specialize (IH j Hp). cbn in IH. destruct (head b); by rewrite IH.
Qed.

Lemma good_elem_lt n k p b x : good n k p → b ∈ p → x ∈ b → x < Z.of_nat n.
Proof.
  intros (_ & _ & Hperm) Hb Hx.
  assert (x ∈ concat p) as Hc.
  { apply list_elem_of_In, in_concat. exists b. by rewrite <- !list_elem_of_In. }
  rewrite Hperm in Hc. apply elem_of_range in Hc. lia.
Qed.

Lemma elem_of_omap_head (p : partition) x :
  x ∈ omap head p → ∃ b, b ∈ p ∧ x ∈ b.
Proof.
  intros (b & Hb & Hh)%list_elem_of_omap. exists b. split; [done|].
  destruct b; [done|]. injection Hh as ->. by left.
Qed.

Lemma canonical_new_block n k p :
  good n k p → canonical p → canonical (new_block (Z.of_nat n) p).
Proof.
  intros Hg [Hb Hh]. unfold new_block. split.
  - apply Forall_app. split; [done|].
    apply Forall_singleton, increasing_singleton.
  - rewrite omap_head_app. apply increasing_snoc; [done|].
    intros y (b & Hin & Hy)%elem_of_omap_head. by eapply good_elem_lt.
Qed.

Lemma canonical_extend_block n k j p :
  good n k p → canonical p → canonical (extend_block (Z.of_nat n) j p).
Proof.
  intros Hg [Hb Hh]. split.
  - unfold extend_block. apply Forall_forall. intros b Hin.
    apply list_elem_of_lookup in Hin as [i Hi].
    destruct (decide (i = j)) as [->|Hne].
    + rewrite list_lookup_alter_eq in Hi.
      destruct (p !! j) as [b0|] eqn:E; [|done]. simpl in Hi.
      injection Hi as <-. apply increasing_snoc.
      * rewrite Forall_forall in Hb. apply Hb.
        by eapply list_elem_of_lookup_2.
      * intros y Hy. eapply good_elem_lt; [done| |done].
        by eapply list_elem_of_lookup_2.
    + rewrite list_lookup_alter_ne in Hi by done.
      rewrite Forall_forall in Hb. apply Hb.
      by eapply list_elem_of_lookup_2.
  - rewrite omap_head_extend; [done|]. by destruct Hg as (_ & ? & _).
Qed.

Lemma parts_canonical n : ∀ k, (1 ≤ k ≤ n)%nat → Forall canonical (parts n k).
Proof.
  induction n as [|n IH]; intros k Hk; [lia|].
  cbn [parts].
  destruct (Nat.eqb_spec k 1) as [->|Hk1].
  { apply Forall_singleton. split.
    - apply Forall_singleton, increasing_range.
    - rewrite range_nat. simpl. apply increasing_singleton. }
  destruct (Nat.eqb_spec k (S n)) as [->|Hkn].
  { apply Forall_singleton. split.
    - apply Forall_fmap, Forall_forall. intros x _. apply increasing_singleton.
    - rewrite omap_head_singletons. apply increasing_range. }
  apply Forall_app. split.
  - apply Forall_fmap, Forall_forall. intros p Hp. simpl.
    pose proof (parts_good n (k - 1) ltac:(lia)) as Hg.
    pose proof (IH (k - 1)%nat ltac:(lia)) as Hc.
    rewrite Forall_forall in Hg, Hc.
    eapply canonical_new_block; [by apply Hg|by apply Hc].
  - apply Forall_forall. intros q (j & (p & -> & Hp)%list_elem_of_fmap & _)%list_elem_of_bind.
    pose proof (parts_good n k ltac:(lia)) as Hg.
    pose proof (IH k ltac:(lia)) as Hc.
    rewrite Forall_forall in Hg, Hc.
    eapply canonical_extend_block; [by apply Hg|by apply Hc].
Qed.

End OrderFacts.

(** X5.  [make_partitions] returns exactly when
    [1 <= number_of_partitions <= len(nodes)]; otherwise it fails the
    assertion of [stirling2] (for more partitions than nodes, after
    recursing down to no node at all), and the recursion then leaves the
    store as it found it. *)
Theorem make_partitions_domain (self : Generator.Generator) :
  ((∃ ps, Generator.make_partitions self = Ok ps)
   ↔ 1 <= Generator.number_of_partitions self <= len (Generator.nodes self))
  ∧ (¬ 1 <= Generator.number_of_partitions self <= len (Generator.nodes self)
     → Generator.make_partitions self = Raise AssertionError)
  ∧ ∀ fuel n k (h : heap), (Z.to_nat n < fuel)%nat → ¬ 1 <= k <= n →
      Generator.stirling2 fuel n k h = (Raise AssertionError, h).
Proof.
  pose proof (OrderFacts.make_partitions_assert self) as Herr.
  split; [split|split; [done|]].
  - intros [ps Hps].
    destruct (decide (1 <= Generator.number_of_partitions self
                      <= len (Generator.nodes self))) as [|Hn]; [done|].
    rewrite Herr in Hps by done. done.
  - intros H. eexists. by apply StoreFacts.make_partitions_parts.
  - apply OrderFacts.stirling2_assert.
Qed.

(** X6.  The partitions [make_partitions] returns are in canonical
    form: every block lists its nodes in increasing order, and the blocks
    of a partition come in increasing order of their first (smallest)
    node. *)
Theorem make_partitions_canonical (self : Generator.Generator) ps :
  Generator.make_partitions self = Ok ps → Forall canonical ps.
Proof.
  intros Hps.
  destruct (decide (1 <= Generator.number_of_partitions self
                    <= len (Generator.nodes self))) as [Hk|Hk].
  - rewrite StoreFacts.make_partitions_parts in Hps by done.
    injection Hps as <-. apply OrderFacts.parts_canonical.
    unfold len in Hk. lia.
  - by rewrite OrderFacts.make_partitions_assert in Hps.
Qed.

Lemma make_partitions_canonical_witness :
  Forall canonical
    [[[0; 1; 2]; [3]]; [[0; 1; 3]; [2]]; [[0; 2; 3]; [1]]; [[0; 3]; [1; 2]];
     [[0; 1]; [2; 3]]; [[0; 2]; [1; 3]]; [[0]; [1; 2; 3]]].
Proof.
  apply (make_partitions_canonical
           {| Generator.number_of_nodes := 4;
              Generator.number_of_partitions := 2;
              Generator.number_of_rounds := 1;
              Generator.folder_path := "./";
              Generator.machine_index := 1;
              Generator.number_of_machines := 1;
              Generator.filter := λ _, true;
              Generator.f := 0;
              Generator.nodes := [0; 1; 2; 3] |}).
  vm_compute. reflexivity.
Defined.

(** ** The output format *)

Module FormatFacts.
Import LoopFacts InitFacts ChunkFacts TwinFacts.

Lemma for_app {A St} (l1 l2 : list A) (body : A → St → result St) st :
  for_ (l1 ++ l2) body st = for_ l1 body st ≫= for_ l2 body.
Proof.
  revert st. induction l1 as [|x l1 IH]; intros st; [done|].
  cbn [for_ app]. destruct (body x st) as [st'| |]; [|done..].
  rewrite !bind_Ok. apply IH.
Qed.

Lemma enumerate_snoc {A} (l : list A) x :
  enumerate (l ++ [x]) = enumerate l ++ [(len l, x)].
Proof.
  unfold enumerate, len. rewrite imap_app. cbn. by rewrite Nat.add_0_r.
Qed.

(** The two dictionaries [_format_scenario] returns: round [i + 1] holds
    the leaders and the partition of scenario [i], and there is no other
    key. *)
Lemma format_scenario_lookup self (testcase : testcase) :
  wf self →
  ∃ rl rp,
    Generator.JSONFormat._format_scenario self testcase = Ok (rl, rp)
    ∧ (∀ (i : nat) leader p, testcase !! i = Some (leader, p) →
         rl !! (Z.of_nat i + 1) = Some (leaders_of self leader)
         ∧ rp !! (Z.of_nat i + 1) = Some p)
    ∧ (∀ r, is_Some (rl !! r) → 1 <= r <= len testcase)
    ∧ (∀ r, is_Some (rp !! r) → 1 <= r <= len testcase).
Proof.
  intros Hwf. unfold Generator.JSONFormat._format_scenario.
  induction testcase as [|[leader p] t IH] using rev_ind.
  { exists ∅, ∅. split; [done|]. split; [done|].
    split; intros r [? Hr]; by rewrite lookup_empty in Hr. }
  destruct IH as (rl & rp & Hrun & Hlook & Hrl & Hrp).
  rewrite enumerate_snoc, for_app, Hrun, bind_Ok. cbn [for_].
  assert ((if bool_decide (leader ∈ Generator.target_nodes self)
           then twin ← Generator.get_twin self leader; Ok ([leader] ++ [twin])
           else Ok [leader]) = Ok (leaders_of self leader)) as ->.
  { unfold leaders_of. case_bool_decide as Hl; [|done].
    apply elem_of_target_nodes in Hl; [|done].
    by rewrite get_twin_value. }
  rewrite !bind_Ok. eexists _, _. split; [reflexivity|].
  assert (len (t ++ [(leader, p)]) = len t + 1) as Hlen.
  { unfold len. rewrite length_app. simpl. lia. }
  split; [|split].
  - intros i leader' p' Hi.
    destruct (decide (i < length t)%nat) as [Hlt|Hge].
    + rewrite lookup_app_l in Hi by done.
      rewrite !lookup_insert_ne by (unfold len; lia). by apply Hlook.
    + rewrite lookup_app_r in Hi by lia.
      destruct (i - length t)%nat eqn:E; [|done]. injection Hi as <- <-.
      replace (Z.of_nat i + 1) with (len t + 1) by (unfold len; lia).
      by rewrite !lookup_insert_eq.
  - intros r Hr. rewrite Hlen.
    apply lookup_insert_is_Some in Hr as [<-|[_ Hr]].
    + unfold len. lia.
    + apply Hrl in Hr. lia.
  - intros r Hr. rewrite Hlen.
    apply lookup_insert_is_Some in Hr as [<-|[_ Hr]].
    + unfold len. lia.
    + apply Hrp in Hr. lia.
Qed.

Lemma leaders_of_head self leader : head (leaders_of self leader) = Some leader.
Proof. unfold leaders_of. by case_bool_decide. Qed.

(** The scenarios [make] collects: one per testcase the filter keeps, in
    order. *)
Lemma make_loop self (flt : testcase → bool) (testcases : list testcase) :
  wf self → ∀ acc,
  ∃ new,
    for_ testcases (λ testcase scenarios,
      if flt testcase then
        xy ← Generator.JSONFormat._format_scenario self testcase;
        Ok (scenarios ++ [{| round_leaders := xy.1; round_partitions := xy.2 |}])
      else Ok scenarios) acc = Ok (acc ++ new)
    ∧ Forall2 (λ t s, Generator.JSONFormat._format_scenario self t
                      = Ok (round_leaders s, round_partitions s))
        (base.filter (λ t, flt t = true) testcases) new.
Proof.
  intros Hwf. induction testcases as [|t ts IH]; intros acc.
  { exists []. split; [by rewrite app_nil_r|]. constructor. }
  cbn [for_]. rewrite filter_cons. destruct (flt t) eqn:Et.
  - destruct (format_scenario_ok self t Hwf) as [[rl rp] Ht].
    rewrite Ht, !bind_Ok. cbn [fst snd].
    destruct (IH (acc ++ [{| round_leaders := rl; round_partitions := rp |}]))
      as (new & Hrun & Hall).
    eexists (_ :: new). split; [by rewrite Hrun, <- app_assoc|].
    rewrite decide_True by done. by constructor.
  - rewrite bind_Ok. destruct (IH acc) as (new & Hrun & Hall).
    exists new. split; [done|]. by rewrite decide_False by done.
Qed.

End FormatFacts.

(** X7.  For an instance the constructor built, [_format_scenario]
    never fails: it returns two dictionaries keyed by the round numbers
    [1..len(testcase)] and nothing else; round [i + 1] holds the partition
    of scenario [i] and its leaders, which are the leader alone, or the
    leader followed by its twin [number_of_nodes + leader] when the leader
    is a target node. *)
Theorem format_scenario_spec self (testcase : testcase) :
  wf self →
  ∃ rl rp,
    Generator.JSONFormat._format_scenario self testcase = Ok (rl, rp)
    ∧ (∀ (i : nat) leader p, testcase !! i = Some (leader, p) →
         rl !! (Z.of_nat i + 1) = Some (leaders_of self leader)
         ∧ rp !! (Z.of_nat i + 1) = Some p)
    ∧ (∀ r, is_Some (rl !! r) ↔ 1 <= r <= len testcase)
    ∧ (∀ r, is_Some (rp !! r) ↔ 1 <= r <= len testcase)
    ∧ (∀ leader, leaders_of self leader
         = if bool_decide (0 <= leader < Generator.f self)
           then [leader; Generator.number_of_nodes self + leader]
           else [leader]).
Proof.
  intros Hwf.
  destruct (FormatFacts.format_scenario_lookup self testcase Hwf)
    as (rl & rp & Hrun & Hlook & Hrl & Hrp).
  exists rl, rp. split; [done|]. split; [done|].
  assert (∀ r, 1 <= r <= len testcase →
            ∃ leader p, testcase !! Z.to_nat (r - 1) = Some (leader, p)
                        ∧ Z.of_nat (Z.to_nat (r - 1)) + 1 = r) as Hidx.
  { intros r Hr. destruct (lookup_lt_is_Some_2 testcase (Z.to_nat (r - 1)))
      as [[leader p] Hi]; [unfold len in Hr; lia|].
    exists leader, p. split; [done|lia]. }
  split; [|split; [|]].
  - intros r. split; [apply Hrl|]. intros Hr.
    destruct (Hidx r Hr) as (leader & p & Hi & Er).
    destruct (Hlook _ _ _ Hi) as [H1 _]. rewrite Er in H1. by eexists.
  - intros r. split; [apply Hrp|]. intros Hr.
    destruct (Hidx r Hr) as (leader & p & Hi & Er).
    destruct (Hlook _ _ _ Hi) as [_ H2]. rewrite Er in H2. by eexists.
  - intros leader. unfold leaders_of.
    pose proof (TwinFacts.elem_of_target_nodes self leader Hwf) as Ht.
    repeat case_bool_decide; tauto.
Qed.

Lemma format_scenario_spec_witness :
  ∃ rl rp,
    Generator.JSONFormat._format_scenario gen
      [(0, [[0; 1]; [2; 3; 4]]); (0, [[0]; [1; 2; 3; 4]])] = Ok (rl, rp)
    ∧ (∀ (i : nat) leader p,
         [(0, [[0; 1]; [2; 3; 4]]); (0, [[0]; [1; 2; 3; 4]])] !! i
         = Some (leader, p) →
         rl !! (Z.of_nat i + 1) = Some (leaders_of gen leader)
         ∧ rp !! (Z.of_nat i + 1) = Some p)
    ∧ (∀ r, is_Some (rl !! r) ↔
         1 <= r <= len [(0, [[0; 1]; [2; 3; 4]]); (0, [[0]; [1; 2; 3; 4]])])
    ∧ (∀ r, is_Some (rp !! r) ↔
         1 <= r <= len [(0, [[0; 1]; [2; 3; 4]]); (0, [[0]; [1; 2; 3; 4]])])
    ∧ (∀ leader, leaders_of gen leader
         = if bool_decide (0 <= leader < Generator.f gen)
           then [leader; Generator.number_of_nodes gen + leader]
           else [leader]).
Proof.
  apply (format_scenario_spec gen
           [(0, [[0; 1]; [2; 3; 4]]); (0, [[0]; [1; 2; 3; 4]])]).
  apply InitFacts.gen_wf.
Defined.

(** X8.  Formatting loses nothing: for an instance the constructor
    built, two testcases that format to the same pair of dictionaries are
    the same testcase. *)
Theorem format_scenario_inj self (t1 t2 : testcase) xy :
  wf self →
  Generator.JSONFormat._format_scenario self t1 = Ok xy →
  Generator.JSONFormat._format_scenario self t2 = Ok xy →
  t1 = t2.
Proof.
  intros Hwf H1 H2.
  destruct (FormatFacts.format_scenario_lookup self t1 Hwf)
    as (rl & rp & Hrun1 & Hlook1 & Hrl1 & _).
  destruct (FormatFacts.format_scenario_lookup self t2 Hwf)
    as (rl' & rp' & Hrun2 & Hlook2 & Hrl2 & _).
  rewrite H1 in Hrun1. rewrite H2 in Hrun2. injection Hrun1 as ->.
  injection Hrun2 as <- <-.
  assert (∀ (a b : testcase) (rl : gmap Z (list Z)) (rp : gmap Z partition),
    (∀ (i : nat) leader p, a !! i = Some (leader, p) →
       rl !! (Z.of_nat i + 1) = Some (leaders_of self leader)
       ∧ rp !! (Z.of_nat i + 1) = Some p) →
    (∀ r, is_Some (rl !! r) → 1 <= r <= len b) →
    (length a ≤ length b)%nat) as Hle.
  { intros a b rl0 rp0 Hla Hrb.
    destruct a as [|s a _] using rev_ind; [simpl; lia|].
    destruct s as [leader p].
    destruct (Hla (length a) leader p) as [Hl _].
    { by rewrite lookup_app_r, Nat.sub_diag by lia. }
    specialize (Hrb _ (mk_is_Some _ _ Hl)).
    rewrite length_app. unfold len in Hrb. simpl. lia. }
  assert (length t1 = length t2) as Hlen.
  { apply Nat.le_antisymm; eapply Hle; eauto. }
  apply list_eq_same_length with (length t1); [done..|].
  intros i [l1 p1] [l2 p2] Hi Hi1 Hi2.
  destruct (Hlook1 _ _ _ Hi1) as [Hl1 Hp1].
  destruct (Hlook2 _ _ _ Hi2) as [Hl2 Hp2].
  rewrite Hp1 in Hp2. injection Hp2 as ->.
  rewrite Hl1 in Hl2. injection Hl2 as Hl.
  apply (f_equal head) in Hl. rewrite !FormatFacts.leaders_of_head in Hl.
  by injection Hl as ->.
Qed.

Lemma format_scenario_inj_witness :
  [(0, [[0; 1]; [2; 3; 4]])] = [(0, [[0; 1]; [2; 3; 4]])].
Proof.
  apply (format_scenario_inj gen
           [(0, [[0; 1]; [2; 3; 4]])] [(0, [[0; 1]; [2; 3; 4]])]
           ({[1 := [0; 4]]}, {[1 := [[0; 1]; [2; 3; 4]]]})).
  - apply InitFacts.gen_wf.
  - vm_compute. reflexivity.
  - vm_compute. reflexivity.
Defined.

(** X9.  For an instance the constructor built, [JSONFormat.make]
    never fails: the object it dumps carries the instance's node count and
    twin count and, in order, one formatted scenario for every testcase
    the filter keeps, none for a testcase it rejects; a chunk the filter
    keeps whole gives as many scenarios as it has testcases. *)
Theorem make_spec self (testcases : list testcase) (flt : testcase → bool) :
  wf self →
  ∃ data,
    Generator.JSONFormat.make self testcases flt = Ok data
    ∧ num_of_nodes data = Generator.number_of_nodes self
    ∧ num_of_twins data = Generator.f self
    ∧ Forall2 (λ t s, Generator.JSONFormat._format_scenario self t
                      = Ok (round_leaders s, round_partitions s))
        (base.filter (λ t, flt t = true) testcases) (scenarios data)
    ∧ ((∀ t, t ∈ testcases → flt t = true) →
       length (scenarios data) = length testcases).
Proof.
  intros Hwf. unfold Generator.JSONFormat.make.
  destruct (FormatFacts.make_loop self flt testcases Hwf [])
    as (new & -> & Hall).
  rewrite LoopFacts.bind_Ok. eexists. split; [reflexivity|].
  cbn [num_of_nodes num_of_twins scenarios app].
  split; [done|]. split; [done|]. split; [done|].
  intros Hkeep. apply Forall2_length in Hall. rewrite <- Hall.
  clear Hall. f_equal. induction testcases as [|t ts IH]; [done|].
  rewrite filter_cons, decide_True by (apply Hkeep; by left).
  f_equal. apply IH. intros t' Ht'. apply Hkeep. by right.
Qed.

Lemma make_spec_witness :
  ∃ data,
    Generator.JSONFormat.make gen [[(0, [[0; 1]; [2; 3; 4]])]; []]
      (Generator.filter gen) = Ok data
    ∧ num_of_nodes data = Generator.number_of_nodes gen
    ∧ num_of_twins data = Generator.f gen
    ∧ Forall2 (λ t s, Generator.JSONFormat._format_scenario gen t
                      = Ok (round_leaders s, round_partitions s))
        (base.filter (λ t, Generator.filter gen t = true)
           [[(0, [[0; 1]; [2; 3; 4]])]; []]) (scenarios data)
    ∧ ((∀ t, t ∈ [[(0, [[0; 1]; [2; 3; 4]])]; []] →
          Generator.filter gen t = true) →
       length (scenarios data)
       = length [[(0, [[0; 1]; [2; 3; 4]])]; @nil (Z * list (list Z))]).
Proof.
  apply (make_spec gen [[(0, [[0; 1]; [2; 3; 4]])]; []] (Generator.filter gen)).
  apply InitFacts.gen_wf.
Defined.

(** ** The space of testcases *)

Module SpaceFacts.
Import LoopFacts EnumerationFacts InitFacts ComposeFacts TwinFacts.

Lemma elem_of_product_pow {A} (pool : list A) r (t : list A) :
  t ∈ product_pow pool r ↔ length t = r ∧ Forall (λ x, x ∈ pool) t.
Proof.
  revert t. induction r as [|r IH]; intros t; cbn [product_pow].
  - rewrite list_elem_of_singleton. split.
    + intros ->. by split.
    + intros [Hl _]. by destruct t.
  - rewrite list_elem_of_bind. split.
    + intros (x & (t' & Ht & Ht')%list_elem_of_bind & Hx).
      apply list_elem_of_singleton in Ht as ->.
      apply IH in Ht' as [<- Hall]. split; [done|]. by constructor.
    + intros [Hl Hall]. destruct t as [|x t']; [done|].
      apply Forall_cons in Hall as [Hx Hall]. exists x. split; [|done].
      apply list_elem_of_bind. exists t'. split; [by left|].
      apply IH. split; [|done]. simpl in Hl. lia.
Qed.

Lemma NoDup_product_pow {A} (pool : list A) r :
  NoDup pool → NoDup (product_pow pool r).
Proof.
  intros Hpool. induction r as [|r IH]; cbn [product_pow].
  { apply NoDup_singleton. }
  apply NoDup_bind; [| |done].
  - intros x1 x2 t _ _ (t1 & Ht1 & _)%list_elem_of_bind
      (t2 & Ht2 & _)%list_elem_of_bind.
    apply list_elem_of_singleton in Ht1, Ht2. congruence.
  - intros x _. apply NoDup_bind; [| |done].
    + intros t1 t2 t _ _ Ht1 Ht2.
      apply list_elem_of_singleton in Ht1, Ht2. congruence.
    + intros t _. apply NoDup_singleton.
Qed.

Lemma elem_of_combine_leaders self (P : list partition) s :
  s ∈ Generator.combine_partitions_with_leaders self P
  ↔ s.1 ∈ Generator.target_nodes self ∧ s.2 ∈ P.
Proof.
  unfold Generator.combine_partitions_with_leaders.
  rewrite list_elem_of_bind. split.
  - intros (p & (l & Hs & Hl)%list_elem_of_bind & Hp).
    apply list_elem_of_singleton in Hs as ->. done.
  - intros [Hl Hp]. exists s.2. split; [|done].
    apply list_elem_of_bind. exists s.1. split; [|done].
    destruct s. by left.
Qed.

Lemma NoDup_combine_leaders self (P : list partition) :
  NoDup (Generator.target_nodes self) → NoDup P →
  NoDup (Generator.combine_partitions_with_leaders self P).
Proof.
  intros Ht HP. unfold Generator.combine_partitions_with_leaders.
  apply NoDup_bind; [| |done].
  - intros p1 p2 s _ _ (l1 & Hs1 & _)%list_elem_of_bind
      (l2 & Hs2 & _)%list_elem_of_bind.
    apply list_elem_of_singleton in Hs1, Hs2. congruence.
  - intros p _. apply NoDup_bind; [| |done].
    + intros l1 l2 s _ _ Hs1 Hs2.
      apply list_elem_of_singleton in Hs1, Hs2. congruence.
    + intros l _. apply NoDup_singleton.
Qed.

Lemma NoDup_target_nodes self : wf self → NoDup (Generator.target_nodes self).
Proof.
  intros Hwf. rewrite wf_target_nodes by done.
  destruct (wf_f_bounds self Hwf) as [Hf _].
  rewrite <- (Z2Nat.id (Generator.f self)) by done. apply NoDup_range.
Qed.

Lemma NoDup_parts n k : (1 ≤ k ≤ n)%nat → NoDup (parts n k).
Proof. intros Hk. eapply NoDup_fmap_1. by apply parts_distinct. Qed.

End SpaceFacts.

(** X10.  For an instance the constructor built,
    [combine_scenarios_with_rounds] returns exactly the sequences of
    [number_of_rounds] scenarios drawn from its input: each testcase has
    one scenario per round, all from the input, and every such sequence
    is a testcase; from scenarios without repetition it returns testcases
    without repetition, and from no scenario no testcase. *)
Theorem combine_rounds_spec self (scenarios : list scenario) :
  wf self →
  ∃ testcases,
    Generator.combine_scenarios_with_rounds self scenarios = Ok testcases
    ∧ (∀ t, t ∈ testcases ↔
         len t = Generator.number_of_rounds self
         ∧ Forall (λ s, s ∈ scenarios) t)
    ∧ (NoDup scenarios → NoDup testcases)
    ∧ (scenarios = [] → testcases = []).
Proof.
  intros Hwf. assert (0 < Generator.number_of_rounds self) as Hr
    by (unfold wf in Hwf; lia).
  unfold Generator.combine_scenarios_with_rounds, product.
  replace (Generator.number_of_rounds self <? 0) with false
    by (symmetry; apply Z.ltb_ge; lia).
  eexists. split; [done|]. split; [|split].
  - intros t. rewrite SpaceFacts.elem_of_product_pow. unfold len.
    split; intros [Hl Hall]; (split; [lia|done]).
  - apply SpaceFacts.NoDup_product_pow.
  - intros ->. destruct (Z.to_nat (Generator.number_of_rounds self)) eqn:E;
      [lia|done].
Qed.

Lemma combine_rounds_spec_witness :
  ∃ testcases,
    Generator.combine_scenarios_with_rounds gen [(0, [[0; 1]; [2; 3; 4]])]
    = Ok testcases
    ∧ (∀ t, t ∈ testcases ↔
         len t = Generator.number_of_rounds gen
         ∧ Forall (λ s, s ∈ [(0, [[0; 1]; [2; 3; 4]])]) t)
    ∧ (NoDup [(0, [[0; 1]; [2; 3; 4]])] → NoDup testcases)
    ∧ ([(0, [[0; 1]; [2; 3; 4]])] = [] → testcases = []).
Proof.
  apply (combine_rounds_spec gen [(0, [[0; 1]; [2; 3; 4]])]).
  apply InitFacts.gen_wf.
Defined.

(** X11.  For an instance the constructor built, the whole pipeline
    (partitions, then leaders, then rounds) returns, and it produces no
    testcase twice; a sequence of scenarios is one of its testcases
    exactly when it has one scenario per round, each made of a target
    node as leader and of one of the enumerated partitions. *)
Theorem pipeline_no_duplicates self :
  wf self →
  ∃ partitions testcases,
    Generator.make_partitions self = Ok partitions
    ∧ Generator.combine_scenarios_with_rounds self
        (Generator.combine_partitions_with_leaders self partitions)
      = Ok testcases
    ∧ NoDup partitions
    ∧ NoDup (Generator.combine_partitions_with_leaders self partitions)
    ∧ NoDup testcases
    ∧ ∀ t, t ∈ testcases ↔
        len t = Generator.number_of_rounds self
        ∧ Forall (λ s, s.1 ∈ Generator.target_nodes self ∧ s.2 ∈ partitions) t.
Proof.
  intros Hwf.
  assert (1 <= Generator.number_of_partitions self
          <= len (Generator.nodes self)) as Hk by (unfold wf in Hwf; lia).
  assert (0 < Generator.number_of_rounds self) as Hr
    by (unfold wf in Hwf; lia).
  rewrite StoreFacts.make_partitions_parts by done.
  set (ps := parts _ _).
  assert (NoDup ps) as Hps.
  { apply SpaceFacts.NoDup_parts. unfold len in Hk. lia. }
  assert (NoDup (Generator.combine_partitions_with_leaders self ps)) as Hsc.
  { apply SpaceFacts.NoDup_combine_leaders; [|done].
    by apply SpaceFacts.NoDup_target_nodes. }
  unfold Generator.combine_scenarios_with_rounds, product.
  replace (Generator.number_of_rounds self <? 0) with false
    by (symmetry; apply Z.ltb_ge; lia).
  eexists _, _. split; [done|]. split; [done|]. split; [done|].
  split; [done|]. split; [by apply SpaceFacts.NoDup_product_pow|].
  intros t. rewrite SpaceFacts.elem_of_product_pow. unfold len.
  split; intros [Hl Hall]; (split; [lia|]);
    (eapply Forall_impl; [exact Hall|]); intros s Hs; simpl in *;
    by apply SpaceFacts.elem_of_combine_leaders.
Qed.

Lemma pipeline_no_duplicates_witness :
  ∃ partitions testcases,
    Generator.make_partitions gen = Ok partitions
    ∧ Generator.combine_scenarios_with_rounds gen
        (Generator.combine_partitions_with_leaders gen partitions)
      = Ok testcases
    ∧ NoDup partitions
    ∧ NoDup (Generator.combine_partitions_with_leaders gen partitions)
    ∧ NoDup testcases
    ∧ ∀ t, t ∈ testcases ↔
        len t = Generator.number_of_rounds gen
        ∧ Forall (λ s, s.1 ∈ Generator.target_nodes gen ∧ s.2 ∈ partitions) t.
Proof. apply (pipeline_no_duplicates gen). apply InitFacts.gen_wf. Defined.

(** X12.  The two levels of sharding compose: with [M] machines and [W]
    workers per machine, position [p] of worker [w] of machine [m] is
    position [(p * W + w) * M + m] of the testcases, so every testcase is
    handed to exactly one worker of exactly one machine: the testcase at
    position [i] to worker [(i // M) mod W] of machine [i mod M], as its
    element [i // M // W]. *)
Theorem two_level_sharding {A} (M W : Z) (l : list A) :
  1 <= M → 1 <= W →
  ∃ machines,
    distribute M l = Ok machines
    ∧ len machines = M
    ∧ (∀ (m : nat) shard, machines !! m = Some shard →
         getitem machines (Z.of_nat m) = Ok shard
         ∧ ∃ workers,
             distribute W shard = Ok workers
             ∧ len workers = W
             ∧ ∀ (w : nat) ws, workers !! w = Some ws →
                 ∀ p : nat,
                   ws !! p
                   = l !! ((p * Z.to_nat W + w) * Z.to_nat M + m)%nat)
    ∧ (∀ i : nat,
         let m := (i mod Z.to_nat M)%nat in
         let w := (i / Z.to_nat M mod Z.to_nat W)%nat in
         let p := (i / Z.to_nat M / Z.to_nat W)%nat in
         ((p * Z.to_nat W + w) * Z.to_nat M + m)%nat = i
         ∧ Z.of_nat m < M ∧ Z.of_nat w < W)
    ∧ (∀ m w p m' w' p' : nat,
         Z.of_nat m < M → Z.of_nat m' < M → Z.of_nat w < W → Z.of_nat w' < W →
         ((p * Z.to_nat W + w) * Z.to_nat M + m)%nat
         = ((p' * Z.to_nat W + w') * Z.to_nat M + m')%nat →
         m = m' ∧ w = w' ∧ p = p').
Proof.
  intros HM HW. rewrite ProcessFacts.distribute_ok by done.
  set (Mn := Z.to_nat M). set (Wn := Z.to_nat W).
  assert (0 < Mn)%nat as HMn by lia. assert (0 < Wn)%nat as HWn by lia.
  assert (∀ {B} (s : list B) (K : nat) (j : nat) (c : list B),
    (0 < K)%nat →
    ((λ index, islice s index K) <$> seq 0 K) !! j = Some c →
    (j < K)%nat ∧ ∀ p : nat, c !! p = s !! (p * K + j)%nat) as Hshard.
  { intros B s K j c HK Hc. rewrite list_lookup_fmap in Hc.
    destruct (seq 0 K !! j) as [j'|] eqn:E; [|done].
    apply lookup_seq in E as [-> Hj]. injection Hc as <-.
    split; [done|]. intros p. unfold islice.
    rewrite ShardFacts.lookup_every_nth.
    replace (S (K - 1)) with K by lia. f_equal. simpl. lia. }
  eexists. split; [done|]. split; [|split; [|split]].
  - unfold len. rewrite length_fmap, length_seq. lia.
  - intros m shard Hm. split; [by apply LoopFacts.getitem_nat|].
    destruct (Hshard _ _ _ _ _ HMn Hm) as [Hlt Hpos].
    rewrite ProcessFacts.distribute_ok by done.
    eexists. split; [done|]. split.
    { unfold len. rewrite length_fmap, length_seq. lia. }
    intros w ws Hw p. fold Wn in Hw.
    destruct (Hshard _ _ _ _ _ HWn Hw) as [Hwlt Hwpos].
    by rewrite Hwpos, Hpos.
  - intros i. cbv zeta. fold Mn Wn.
    pose proof (Nat.div_mod_eq i Mn) as E1.
    pose proof (Nat.div_mod_eq (i / Mn) Wn) as E2.
    pose proof (Nat.mod_upper_bound i Mn ltac:(lia)).
    pose proof (Nat.mod_upper_bound (i / Mn) Wn ltac:(lia)).
    split; [|lia]. rewrite E1 at 4. rewrite E2 at 3. lia.
  - intros m w p m' w' p' Hm Hm' Hw Hw' E. fold Mn Wn in E.
    assert (m = m') as <-.
    { apply (f_equal (λ x, x mod Mn)%nat) in E.
      rewrite !(Nat.add_comm _ m), !(Nat.add_comm _ m') in E.
      rewrite !Nat.Div0.mod_add in E.
      rewrite !Nat.mod_small in E by lia. done. }
    assert ((p * Wn + w) = (p' * Wn + w'))%nat as E' by nia.
    assert (w = w') as <-.
    { apply (f_equal (λ x, x mod Wn)%nat) in E'.
      rewrite !(Nat.add_comm _ w), !(Nat.add_comm _ w') in E'.
      rewrite !Nat.Div0.mod_add in E'.
      rewrite !Nat.mod_small in E' by lia. done. }
    split; [done|]. split; [done|]. nia.
Qed.

Lemma two_level_sharding_witness :
  ∃ machines,
    distribute 2 [10; 11; 12; 13; 14; 15; 16] = Ok machines
    ∧ len machines = 2
    ∧ (∀ (m : nat) shard, machines !! m = Some shard →
         getitem machines (Z.of_nat m) = Ok shard
         ∧ ∃ workers,
             distribute 3 shard = Ok workers
             ∧ len workers = 3
             ∧ ∀ (w : nat) ws, workers !! w = Some ws →
                 ∀ p : nat,
                   ws !! p
                   = [10; 11; 12; 13; 14; 15; 16]
                       !! ((p * Z.to_nat 3 + w) * Z.to_nat 2 + m)%nat)
    ∧ (∀ i : nat,
         let m := (i mod Z.to_nat 2)%nat in
         let w := (i / Z.to_nat 2 mod Z.to_nat 3)%nat in
         let p := (i / Z.to_nat 2 / Z.to_nat 3)%nat in
         ((p * Z.to_nat 3 + w) * Z.to_nat 2 + m)%nat = i
         ∧ Z.of_nat m < 2 ∧ Z.of_nat w < 3)
    ∧ (∀ m w p m' w' p' : nat,
         Z.of_nat m < 2 → Z.of_nat m' < 2 → Z.of_nat w < 3 → Z.of_nat w' < 3 →
         ((p * Z.to_nat 3 + w) * Z.to_nat 2 + m)%nat
         = ((p' * Z.to_nat 3 + w') * Z.to_nat 2 + m')%nat →
         m = m' ∧ w = w' ∧ p = p').
Proof. apply (two_level_sharding 2 3 [10; 11; 12; 13; 14; 15; 16]); lia. Defined.

(** ** What a worker writes *)

Module WriterFacts.
Import LoopFacts InitFacts ChunkFacts.

Lemma appended_snoc pds pd fl :
  appended (pds ++ [pd]) fl
  = <[pd.1 := default [] (appended pds fl !! pd.1) ++ [pd.2]]> (appended pds fl).
Proof. unfold appended. by rewrite foldl_app. Qed.

Lemma appended_lookup_ne pds fl q :
  q ∉ pds.*1 → appended pds fl !! q = fl !! q.
Proof.
  induction pds as [|pd pds IH] using rev_ind; intros Hq; [done|].
  rewrite fmap_app, elem_of_app in Hq. rewrite appended_snoc.
  rewrite lookup_insert_ne.
  - apply IH. tauto.
  - intros <-. apply Hq. right. simpl. by left.
Qed.

Lemma appended_same pds fl p :
  Forall (λ pd, pd.1 = p) pds → pds ≠ [] →
  appended pds fl !! p = Some (default [] (fl !! p) ++ pds.*2).
Proof.
  induction pds as [|pd pds IH] using rev_ind; intros Hall Hne; [done|].
  apply Forall_app in Hall as [Hall Hpd]. rewrite Forall_singleton in Hpd.
  rewrite appended_snoc, Hpd, lookup_insert_eq, fmap_app. cbn [fmap list_fmap].
  destruct (decide (pds = [])) as [->|Hpds]; [done|].
  rewrite IH by done. cbn [default]. by rewrite app_assoc.
Qed.

Lemma appended_once pds fl i p d :
  NoDup pds.*1 → pds !! i = Some (p, d) →
  appended pds fl !! p = Some (default [] (fl !! p) ++ [d]).
Proof.
  revert i. induction pds as [|pd pds IH] using rev_ind; intros i Hnd Hi.
  { done. }
  rewrite fmap_app in Hnd. apply NoDup_app in Hnd as (Hnd & Hdis & _).
  rewrite appended_snoc.
  destruct (decide (i < length pds)%nat) as [Hlt|Hge].
  - rewrite lookup_app_l in Hi by done.
    rewrite lookup_insert_ne; [by eapply IH|].
    intros E. apply (Hdis p).
    + apply list_elem_of_fmap. exists (p, d). split; [done|].
      by eapply list_elem_of_lookup_2.
    + rewrite <- E. simpl. by left.
  - rewrite lookup_app_r in Hi by lia.
    destruct (i - length pds)%nat; [|done]. injection Hi as ->.
    cbn [fst snd]. rewrite lookup_insert_eq. do 2 f_equal.
    f_equal. apply appended_lookup_ne. intros Hin. apply (Hdis p Hin).
    simpl. by left.
Qed.

(** The documents of a list of chunks. *)
Lemma docs_exist self (cs : list (list testcase)) :
  wf self →
  ∃ docs, Forall2 (λ c d, Generator.JSONFormat.make self c (Generator.filter self)
                          = Ok d) cs docs.
Proof.
  intros Hwf. induction cs as [|c cs [docs IH]]; [by exists []|].
  destruct (make_ok self c (Generator.filter self) Hwf) as [d Hd].
  exists (d :: docs). by constructor.
Qed.

Lemma appended_cons pd pds fl :
  appended (pd :: pds) fl
  = appended pds (<[pd.1 := default [] (fl !! pd.1) ++ [pd.2]]> fl).
Proof. done. Qed.

Lemma paths_cons self (pid : Z) (dryrun : bool) (a n : nat) :
  (λ i : nat, chunk_path self pid dryrun (Z.of_nat (a + i))) <$> seq 0 (S n)
  = chunk_path self pid dryrun (Z.of_nat a)
    :: ((λ i : nat, chunk_path self pid dryrun (Z.of_nat (S a + i)))
          <$> seq 0 n).
Proof.
  cbn [seq fmap list_fmap]. rewrite Nat.add_0_r. f_equal.
  rewrite <- fmap_S_seq, <- list_fmap_compose.
  apply list_fmap_ext. intros _ i _. simpl. do 2 f_equal. lia.
Qed.

(** The loop of [_print] on chunks numbered from [a], when every file
    can be opened. *)
Lemma write_loop_files self (pid : Z) (dryrun : bool)
    (cs : list (list testcase)) : ∀ docs (a : nat) x,
  Forall2 (λ c d, Generator.JSONFormat.make self c (Generator.filter self)
                  = Ok d) cs docs →
  Generator.folder_path self ∈ dirs x →
  (∀ i, (i < length cs)%nat →
        chunk_path self pid dryrun (Z.of_nat (a + i)) ∉ denied x) →
  for_ (imap (λ i c, (Z.of_nat (a + i), c)) cs)
    (λ '((i, chunk) : Z * list testcase) (_ : unit),
      let basename :=
        "testcase-" +:+ pretty (Generator.machine_index self)
        +:+ "-" +:+ pretty pid in
      let filename :=
        if dryrun then "tmp-" +:+ basename
        else basename +:+ "-" +:+ pretty i in
      data ← lift (Generator.JSONFormat.make self chunk (Generator.filter self));
      open_append (join (Generator.folder_path self) filename) data) () x
  = (Ok (),
     {| dirs := dirs x;
        files := appended
                   (zip ((λ i : nat, chunk_path self pid dryrun (Z.of_nat (a + i)))
                           <$> seq 0 (length cs)) docs)
                   (files x);
        denied := denied x;
        opened := opened x
                    ++ ((λ i : nat, chunk_path self pid dryrun (Z.of_nat (a + i)))
                          <$> seq 0 (length cs)) |}).
Proof.
  induction cs as [|c cs IH]; intros docs a x Hdocs Hdir Hden.
  { cbn. rewrite app_nil_r. by destruct x. }
  apply Forall2_cons_inv_l in Hdocs as (d & docs' & Hd & Hdocs & ->).
  cbn [length]. rewrite paths_cons. cbn [zip_with]. rewrite appended_cons.
  cbn [imap for_ fst snd]. cbv zeta. rewrite Nat.add_0_r.
  erewrite prog_bind_Ok.
  2:{ erewrite prog_bind_Ok; [|unfold lift; by rewrite Hd].
      fold (chunk_path self pid dryrun (Z.of_nat a)).
      unfold open_append. cbn [dirs denied opened files].
      rewrite bool_decide_eq_true_2 by done.
      rewrite bool_decide_eq_false_2.
      2:{ specialize (Hden 0%nat ltac:(simpl; lia)).
          by rewrite Nat.add_0_r in Hden. }
      cbn [andb negb]. reflexivity. }
  rewrite (imap_ext _ (λ i c, (Z.of_nat (S a + i), c)))
    by (intros; simpl; do 2 f_equal; lia).
  rewrite IH with (docs := docs'); [|done|done|].
  2:{ intros i Hi. cbn [denied].
      replace (S a + i)%nat with (a + S i)%nat by lia.
      apply Hden. simpl. lia. }
  cbn [dirs denied opened files]. by rewrite <- app_assoc.
Qed.

Lemma enumerate_imap {A} (l : list A) :
  enumerate l = imap (λ i c, (Z.of_nat (0 + i), c)) l.
Proof. done. Qed.

(** [_print] when every file of the worker can be opened. *)
Lemma print_worker_files self shard pid dryrun tpf x docs :
  wf self → 0 < tpf →
  Forall2 (λ c d, Generator.JSONFormat.make self c (Generator.filter self)
                  = Ok d)
    (chunks_of (length shard) (Z.to_nat tpf) shard) docs →
  Generator.folder_path self ∈ dirs x →
  (∀ i : nat, chunk_path self pid dryrun (Z.of_nat i) ∉ denied x) →
  Generator._print self shard pid dryrun tpf x
  = (Ok (),
     {| dirs := dirs x;
        files := appended
                   (zip (chunk_paths self pid dryrun (length docs)) docs)
                   (files x);
        denied := denied x;
        opened := opened x ++ chunk_paths self pid dryrun (length docs) |}).
Proof.
  intros Hwf Htpf Hdocs Hdir Hden. unfold Generator._print.
  erewrite prog_bind_Ok; [|unfold lift; by rewrite ichunked_pos].
  rewrite enumerate_imap.
  rewrite (write_loop_files self pid dryrun _ docs 0 x); [|done..|].
  - by rewrite (Forall2_length _ _ _ Hdocs).
  - intros i _. apply Hden.
Qed.

Lemma length_chunk_paths self pid dryrun n :
  length (chunk_paths self pid dryrun n) = n.
Proof. unfold chunk_paths. by rewrite length_fmap, length_seq. Qed.

Lemma lookup_chunk_paths self pid dryrun n (i : nat) :
  (i < n)%nat →
  chunk_paths self pid dryrun n !! i
  = Some (chunk_path self pid dryrun (Z.of_nat i)).
Proof.
  intros Hi. unfold chunk_paths. by rewrite list_lookup_fmap, lookup_seq_lt.
Qed.

Lemma chunk_path_false_inj self pid i j :
  chunk_path self pid false i = chunk_path self pid false j → i = j.
Proof.
  unfold chunk_path, join. intros [= E].
  apply String.app_inj in E. apply String.app_inj in E.
  by apply pretty_Z_inj in E.
Qed.

Lemma chunk_path_true self pid i j :
  chunk_path self pid true i = chunk_path self pid true j.
Proof. done. Qed.

Lemma NoDup_chunk_paths self pid n : NoDup (chunk_paths self pid false n).
Proof.
  unfold chunk_paths. apply NoDup_fmap_2_strong; [|apply NoDup_seq].
  intros i j _ _ E. apply chunk_path_false_inj in E. lia.
Qed.

Lemma ceil_div_nat (a b : nat) :
  (0 < b)%nat →
  Z.of_nat ((a + b - 1) / b) = (Z.of_nat a + Z.of_nat b - 1) / Z.of_nat b.
Proof.
  intros Hb. rewrite Nat2Z.inj_div. f_equal. lia.
Qed.

End WriterFacts.

(** X13.  A worker whose folder exists and whose files can all be
    opened opens exactly [ceil(len(shard) / testcases_per_file)] files,
    one per chunk and in the order of the chunks, and returns normally;
    it creates no directory. *)
Theorem print_worker_opens self (shard : list testcase) pid dryrun tpf x :
  wf self → 0 < tpf → writable x (Generator.folder_path self) →
  ∃ x',
    Generator._print self shard pid dryrun tpf x = (Ok (), x')
    ∧ opened x'
      = opened x
        ++ chunk_paths self pid dryrun
             (Z.to_nat ((len shard + tpf - 1) / tpf))
    ∧ len (opened x') = len (opened x) + (len shard + tpf - 1) / tpf
    ∧ dirs x' = dirs x.
Proof.
  intros Hwf Htpf [Hdir Hden].
  destruct (WriterFacts.docs_exist self
              (chunks_of (length shard) (Z.to_nat tpf) shard) Hwf)
    as [docs Hdocs].
  rewrite (WriterFacts.print_worker_files self shard pid dryrun tpf x docs);
    [|done..|intros i; apply Hden].
  assert (length docs = Z.to_nat ((len shard + tpf - 1) / tpf)) as ->.
  { rewrite <- (Forall2_length _ _ _ Hdocs).
    rewrite ChunkFacts.chunks_of_count by lia.
    apply Nat2Z.inj. rewrite WriterFacts.ceil_div_nat by lia.
    assert (0 <= (len shard + tpf - 1) / tpf)
      by (apply Z.div_pos; unfold len; lia).
    rewrite !Z2Nat.id by lia. done. }
  eexists. split; [done|]. cbn [opened dirs]. split; [done|]. split; [|done].
  unfold len. rewrite length_app, WriterFacts.length_chunk_paths.
  rewrite Nat2Z.inj_add, Z2Nat.id; [done|].
  apply Z.div_pos; lia.
Qed.

Lemma print_worker_opens_witness :
  ∃ x',
    Generator._print gen (pipeline gen) 1 true 1000 fs0 = (Ok (), x')
    ∧ opened x'
      = opened fs0
        ++ chunk_paths gen 1 true
             (Z.to_nat ((len (pipeline gen) + 1000 - 1) / 1000))
    ∧ len (opened x') = len (opened fs0) + (len (pipeline gen) + 1000 - 1) / 1000
    ∧ dirs x' = dirs fs0.
Proof.
  apply (print_worker_opens gen (pipeline gen) 1 true 1000 fs0).
  - apply InitFacts.gen_wf.
  - lia.
  - apply InitFacts.fs0_writable.
Defined.

(** X14.  In a real run (not a dry run) a worker appends the document
    of chunk [i] to the file [testcase-<machine>-<process>-<i>] of its
    folder: after the call that file holds what it held before followed
    by this one document (a file left by an earlier run is not
    overwritten), and every other file is as it was. *)
Theorem print_worker_real_run self (shard : list testcase) pid tpf x :
  wf self → 0 < tpf → writable x (Generator.folder_path self) →
  ∃ chunks docs x',
    ichunked shard tpf = Ok chunks
    ∧ Forall2 (λ c d, Generator.JSONFormat.make self c (Generator.filter self)
                      = Ok d) chunks docs
    ∧ Generator._print self shard pid false tpf x = (Ok (), x')
    ∧ (∀ (i : nat) d, docs !! i = Some d →
         files x' !! chunk_path self pid false (Z.of_nat i)
         = Some (default [] (files x !! chunk_path self pid false (Z.of_nat i))
                 ++ [d]))
    ∧ (∀ q, (∀ i : nat, (i < length chunks)%nat →
                        q ≠ chunk_path self pid false (Z.of_nat i)) →
            files x' !! q = files x !! q).
Proof.
  intros Hwf Htpf [Hdir Hden].
  destruct (WriterFacts.docs_exist self
              (chunks_of (length shard) (Z.to_nat tpf) shard) Hwf)
    as [docs Hdocs].
  exists (chunks_of (length shard) (Z.to_nat tpf) shard), docs.
  rewrite (WriterFacts.print_worker_files self shard pid false tpf x docs);
    [|done..|intros i; apply Hden].
  eexists. split; [by apply ChunkFacts.ichunked_pos|].
  split; [done|]. split; [done|]. cbn [files].
  pose proof (Forall2_length _ _ _ Hdocs) as Hlen.
  assert ((zip (chunk_paths self pid false (length docs)) docs).*1
          = chunk_paths self pid false (length docs)) as Hfst.
  { apply fst_zip. by rewrite WriterFacts.length_chunk_paths. }
  split.
  - intros i d Hi. apply (WriterFacts.appended_once _ _ i).
    + rewrite Hfst. apply WriterFacts.NoDup_chunk_paths.
    + apply lookup_zip_with_Some. eexists _, _. split; [done|].
      split; [|done]. apply WriterFacts.lookup_chunk_paths.
      by eapply lookup_lt_Some.
  - intros q Hq. apply WriterFacts.appended_lookup_ne. rewrite Hfst.
    intros (i & -> & Hi)%list_elem_of_fmap.
    apply elem_of_seq in Hi. apply (Hq i); [lia|done].
Qed.

Lemma print_worker_real_run_witness :
  ∃ chunks docs x',
    ichunked [[(0, [[0; 1]; [2]])]; [(0, [[0; 2]; [1]])]] 1 = Ok chunks
    ∧ Forall2 (λ c d, Generator.JSONFormat.make gen c (Generator.filter gen)
                      = Ok d) chunks docs
    ∧ Generator._print gen [[(0, [[0; 1]; [2]])]; [(0, [[0; 2]; [1]])]]
        0 false 1 fs0 = (Ok (), x')
    ∧ (∀ (i : nat) d, docs !! i = Some d →
         files x' !! chunk_path gen 0 false (Z.of_nat i)
         = Some (default [] (files fs0 !! chunk_path gen 0 false (Z.of_nat i))
                 ++ [d]))
    ∧ (∀ q, (∀ i : nat, (i < length chunks)%nat →
                        q ≠ chunk_path gen 0 false (Z.of_nat i)) →
            files x' !! q = files fs0 !! q).
Proof.
  apply (print_worker_real_run gen
           [[(0, [[0; 1]; [2]])]; [(0, [[0; 2]; [1]])]] 0 1 fs0).
  - apply InitFacts.gen_wf.
  - lia.
  - apply InitFacts.fs0_writable.
Defined.

(** X15.  In a dry run the file name carries no chunk number: a worker
    appends the documents of all its chunks, in order, to the one file
    [tmp-testcase-<machine>-<process>] of its folder, and touches no
    other file; with an empty shard it writes nothing. *)
Theorem print_worker_dry_run self (shard : list testcase) pid tpf x :
  wf self → 0 < tpf → writable x (Generator.folder_path self) →
  ∃ chunks docs x',
    ichunked shard tpf = Ok chunks
    ∧ Forall2 (λ c d, Generator.JSONFormat.make self c (Generator.filter self)
                      = Ok d) chunks docs
    ∧ Generator._print self shard pid true tpf x = (Ok (), x')
    ∧ (shard ≠ [] →
       files x' !! chunk_path self pid true 0
       = Some (default [] (files x !! chunk_path self pid true 0) ++ docs))
    ∧ (shard = [] → files x' = files x)
    ∧ (∀ q, q ≠ chunk_path self pid true 0 → files x' !! q = files x !! q).
Proof.
  intros Hwf Htpf [Hdir Hden].
  destruct (WriterFacts.docs_exist self
              (chunks_of (length shard) (Z.to_nat tpf) shard) Hwf)
    as [docs Hdocs].
  exists (chunks_of (length shard) (Z.to_nat tpf) shard), docs.
  rewrite (WriterFacts.print_worker_files self shard pid true tpf x docs);
    [|done..|intros i; apply Hden].
  eexists. split; [by apply ChunkFacts.ichunked_pos|].
  split; [done|]. split; [done|]. cbn [files].
  pose proof (Forall2_length _ _ _ Hdocs) as Hlen.
  assert ((zip (chunk_paths self pid true (length docs)) docs).*1
          = chunk_paths self pid true (length docs)) as Hfst.
  { apply fst_zip. by rewrite WriterFacts.length_chunk_paths. }
  assert ((zip (chunk_paths self pid true (length docs)) docs).*2 = docs)
    as Hsnd.
  { apply snd_zip. by rewrite WriterFacts.length_chunk_paths. }
  split; [|split].
  - intros Hne. rewrite WriterFacts.appended_same.
    + by rewrite Hsnd.
    + apply Forall_forall. intros [p d] Hin.
      apply (list_elem_of_fmap_2 fst) in Hin. rewrite Hfst in Hin.
      by apply list_elem_of_fmap in Hin as (i & -> & _).
    + destruct shard as [|t shard]; [done|].
      cbn [length] in Hdocs. rewrite ChunkFacts.chunks_of_cons in Hdocs.
      apply Forall2_cons_inv_l in Hdocs as (d & docs' & _ & _ & ->). done.
  - intros ->. cbn in Hdocs. apply Forall2_nil_inv_l in Hdocs as ->. done.
  - intros q Hq. apply WriterFacts.appended_lookup_ne. rewrite Hfst.
    by intros (i & -> & Hi)%list_elem_of_fmap.
Qed.

Lemma print_worker_dry_run_witness :
  ∃ chunks docs x',
    ichunked [[(0, [[0; 1]; [2]])]; [(0, [[0; 2]; [1]])]] 1 = Ok chunks
    ∧ Forall2 (λ c d, Generator.JSONFormat.make gen c (Generator.filter gen)
                      = Ok d) chunks docs
    ∧ Generator._print gen [[(0, [[0; 1]; [2]])]; [(0, [[0; 2]; [1]])]]
        0 true 1 fs0 = (Ok (), x')
    ∧ ([[(0, [[0; 1]; [2]])]; [(0, [[0; 2]; [1]])]] ≠ [] →
       files x' !! chunk_path gen 0 true 0
       = Some (default [] (files fs0 !! chunk_path gen 0 true 0) ++ docs))
    ∧ ([[(0, [[0; 1]; [2]])]; [(0, [[0; 2]; [1]])]] = [] →
       files x' = files fs0)
    ∧ (∀ q, q ≠ chunk_path gen 0 true 0 → files x' !! q = files fs0 !! q).
Proof.
  apply (print_worker_dry_run gen
           [[(0, [[0; 1]; [2]])]; [(0, [[0; 2]; [1]])]] 0 1 fs0).
  - apply InitFacts.gen_wf.
  - lia.
  - apply InitFacts.fs0_writable.
Defined.

(** ** A worker that cannot open a file; the names of the files *)

Module FailureFacts.
Import LoopFacts InitFacts ChunkFacts WriterFacts.

Lemma for_app_prog {A St S'} (l1 l2 : list A) (body : A → St → prog S' St)
    st s st1 s1 :
  for_ l1 body st s = (Ok st1, s1) →
  for_ (l1 ++ l2) body st s = for_ l2 body st1 s1.
Proof.
  revert st s. induction l1 as [|a l1 IH]; intros st s H.
  { cbn in H. by injection H as <- <-. }
  cbn [for_ app] in *. unfold mbind, prog_bind in *.
  destruct (body a st s) as [[st'| |] s']; [|done..]. by apply IH.
Qed.

Lemma for_cons_raise {A St S'} (a : A) l (body : A → St → prog S' St)
    st s e s' :
  body a st s = (Raise e, s') → for_ (a :: l) body st s = (Raise e, s').
Proof. intros H. cbn [for_]. by apply prog_bind_Raise. Qed.

Lemma open_append_refused path data x :
  ¬ openable x path →
  open_append path data x
  = (Raise OSError,
     {| dirs := dirs x; files := files x; denied := denied x;
        opened := opened x ++ [path] |}).
Proof.
  intros H. unfold open_append. cbn [dirs denied opened files].
  destruct (bool_decide (path.1 ∈ dirs x)) eqn:Ed; [|done].
  destruct (bool_decide (path ∈ denied x)) eqn:En; [done|].
  apply bool_decide_eq_true in Ed. apply bool_decide_eq_false in En.
  destruct H. by split.
Qed.

Lemma imap_middle {A B} (g : nat → A → B) (pre : list A) c suf :
  imap g (pre ++ c :: suf)
  = imap g pre ++ g (length pre) c :: imap (g ∘ (λ i, S (length pre + i))%nat) suf.
Proof.
  rewrite imap_app. f_equal. cbn [imap]. rewrite Nat.add_0_r. f_equal.
  apply imap_ext. intros i y _. simpl. f_equal. lia.
Qed.

Lemma chunk_paths_S self pid dryrun n :
  chunk_paths self pid dryrun (S n)
  = chunk_paths self pid dryrun n ++ [chunk_path self pid dryrun (Z.of_nat n)].
Proof. unfold chunk_paths. by rewrite seq_S, fmap_app. Qed.

(** *** Names *)

Lemma dashless_pretty_N_go (n : N) s :
  dashless (pretty_N_go n s) = dashless s.
Proof.
  revert s. induction (N.lt_wf_0 n) as [n _ IH]; intros s.
  destruct (decide (n = 0)%N) as [->|Hn]; [by rewrite pretty_N_go_0|].
  rewrite pretty_N_go_step by lia.
  rewrite IH by (apply N.div_lt; lia).
  cbn [dashless]. unfold pretty_N_char.
  by repeat case_match.
Qed.

Lemma dashless_pretty (z : Z) : 0 <= z → dashless (pretty z) = true.
Proof.
  intros Hz. destruct z as [|p|p]; [done| |lia].
  unfold pretty, pretty_Z, pretty, pretty_positive, pretty, pretty_N.
  rewrite decide_False by done. by rewrite dashless_pretty_N_go.
Qed.

Lemma string_app_nil (s : string) : "" +:+ s = s.
Proof. done. Qed.

Lemma string_app_cons c (s t : string) : String c s +:+ t = String c (s +:+ t).
Proof. done. Qed.

(** Two strings cut at their first [-]. *)
Lemma dash_split a a' b b' :
  dashless a = true → dashless a' = true →
  a +:+ "-" +:+ b = a' +:+ "-" +:+ b' → a = a' ∧ b = b'.
Proof.
  revert a'. induction a as [|c a IH]; intros a' Ha Ha' E.
  - destruct a' as [|c' a'];
      repeat (first [rewrite string_app_nil in E|rewrite string_app_cons in E]);
      cbn [dashless] in *.
    + by injection E as ->.
    + injection E as <- _. done.
  - destruct a' as [|c' a'];
      repeat (first [rewrite string_app_nil in E|rewrite string_app_cons in E]);
      cbn [dashless] in *.
    + injection E as -> _. done.
    + injection E as -> E.
      apply andb_true_iff in Ha as [_ Ha]. apply andb_true_iff in Ha' as [_ Ha'].
      destruct (IH a' Ha Ha' E) as [-> ->]. done.
Qed.

Lemma string_app_assoc (s t u : string) : (s +:+ t) +:+ u = s +:+ (t +:+ u).
Proof.
  induction s as [|c s IH]; [done|].
  by rewrite !string_app_cons, IH.
Qed.

End FailureFacts.

(** X16.  The first file a worker cannot open (its folder is missing,
    or the file is denied) ends the worker with [OSError]: the chunks
    before it were written, [open] was called for it and for no later
    chunk, and no file other than those of the earlier chunks has
    changed. *)
Theorem print_worker_stops_at_failure self (shard : list testcase) pid
    dryrun tpf x (j : nat) :
  wf self → 0 < tpf →
  Z.of_nat j < (len shard + tpf - 1) / tpf →
  (∀ i : nat, (i < j)%nat →
     openable x (chunk_path self pid dryrun (Z.of_nat i))) →
  ¬ openable x (chunk_path self pid dryrun (Z.of_nat j)) →
  ∃ x',
    Generator._print self shard pid dryrun tpf x = (Raise OSError, x')
    ∧ opened x' = opened x ++ chunk_paths self pid dryrun (S j)
    ∧ dirs x' = dirs x
    ∧ ∀ q, q ∉ chunk_paths self pid dryrun j → files x' !! q = files x !! q.
Proof.
  intros Hwf Htpf Hj Hok Hbad. unfold Generator._print.
  erewrite LoopFacts.prog_bind_Ok;
    [|unfold lift; by rewrite ChunkFacts.ichunked_pos].
  set (chunks := chunks_of (length shard) (Z.to_nat tpf) shard).
  assert (j < length chunks)%nat as Hlt.
  { subst chunks. rewrite ChunkFacts.chunks_of_count by lia.
    apply Nat2Z.inj_lt. rewrite WriterFacts.ceil_div_nat by lia.
    rewrite Z2Nat.id by lia. done. }
  destruct (lookup_lt_is_Some_2 chunks j Hlt) as [c Hc].
  pose proof (take_drop_middle chunks j c Hc) as Hsplit.
  assert (length (take j chunks) = j) as Hpre by (rewrite length_take; lia).
  rewrite <- Hsplit, WriterFacts.enumerate_imap, FailureFacts.imap_middle.
  rewrite Hpre.
  destruct (WriterFacts.docs_exist self (take j chunks) Hwf) as [docs Hdocs].
  pose proof (Forall2_length _ _ _ Hdocs) as Hlen. rewrite Hpre in Hlen.
  destruct (ChunkFacts.make_ok self c (Generator.filter self) Hwf) as [d Hd].
  assert (∀ fl op,
    for_ (imap (λ i c0, (Z.of_nat (0 + i), c0)) (take j chunks))
      (λ '((i, chunk) : Z * list testcase) (_ : unit),
        let basename :=
          "testcase-" +:+ pretty (Generator.machine_index self)
          +:+ "-" +:+ pretty pid in
        let filename :=
          if dryrun then "tmp-" +:+ basename
          else basename +:+ "-" +:+ pretty i in
        data ← lift (Generator.JSONFormat.make self chunk
                       (Generator.filter self));
        open_append (join (Generator.folder_path self) filename) data) () x
    = (Ok (), {| dirs := dirs x; files := fl; denied := denied x;
                 opened := op |}) →
    op = opened x ++ chunk_paths self pid dryrun j →
    (∀ q, q ∉ chunk_paths self pid dryrun j → fl !! q = files x !! q) →
    ∃ x',
      for_ (imap (λ i c0, (Z.of_nat (0 + i), c0)) (take j chunks)
            ++ (Z.of_nat (0 + j), c)
               :: imap ((λ i c0, (Z.of_nat (0 + i), c0))
                        ∘ (λ i, S (j + i))%nat) (drop (S j) chunks))
        (λ '((i, chunk) : Z * list testcase) (_ : unit),
          let basename :=
            "testcase-" +:+ pretty (Generator.machine_index self)
            +:+ "-" +:+ pretty pid in
          let filename :=
            if dryrun then "tmp-" +:+ basename
            else basename +:+ "-" +:+ pretty i in
          data ← lift (Generator.JSONFormat.make self chunk
                         (Generator.filter self));
          open_append (join (Generator.folder_path self) filename) data) () x
      = (Raise OSError, x')
      ∧ opened x' = opened x ++ chunk_paths self pid dryrun (S j)
      ∧ dirs x' = dirs x
      ∧ ∀ q, q ∉ chunk_paths self pid dryrun j →
             files x' !! q = files x !! q) as Hstep.
  { intros fl op Hrun Hop Hfl.
    erewrite FailureFacts.for_app_prog; [|exact Hrun].
    erewrite FailureFacts.for_cons_raise.
    2:{ cbv zeta.
        erewrite LoopFacts.prog_bind_Ok; [|unfold lift; by rewrite Hd].
        fold (chunk_path self pid dryrun (Z.of_nat (0 + j))).
        apply FailureFacts.open_append_refused.
        unfold openable in *. cbn [dirs denied]. exact Hbad. }
    eexists. split; [done|]. cbn [opened dirs files].
    split; [|done]. by rewrite Hop, FailureFacts.chunk_paths_S, app_assoc. }
  destruct (decide (j = 0)%nat) as [->|Hj0].
  - apply (Hstep (files x) (opened x)).
    + rewrite take_0. cbn. by destruct x.
    + cbn. by rewrite app_nil_r.
    + done.
  - destruct (Hok 0%nat ltac:(lia)) as [Hdir _].
    eapply Hstep.
    + rewrite (WriterFacts.write_loop_files self pid dryrun _ docs 0 x);
        [reflexivity|done|done|].
      intros i Hi. rewrite Hpre in Hi. by apply Hok.
    + by rewrite Hpre.
    + intros q Hq. cbn [files]. apply WriterFacts.appended_lookup_ne.
      rewrite Hpre, fst_zip; [exact Hq|].
      rewrite length_fmap, length_seq. lia.
Qed.

Lemma print_worker_stops_at_failure_witness :
  ∃ x',
    Generator._print gen1 (machine_shard gen1) 0 false 4 fs_denied
    = (Raise OSError, x')
    ∧ opened x' = opened fs_denied ++ chunk_paths gen1 0 false 1
    ∧ dirs x' = dirs fs_denied
    ∧ ∀ q, q ∉ chunk_paths gen1 0 false 0 →
           files x' !! q = files fs_denied !! q.
Proof.
  apply (print_worker_stops_at_failure gen1 (machine_shard gen1) 0 false 4
           fs_denied 0).
  - apply InitFacts.gen1_wf.
  - lia.
  - vm_compute. reflexivity.
  - intros i Hi. lia.
  - intros [_ H]. apply H. vm_compute. set_solver.
Defined.

(** X17.  File names do not collide: for non-negative machine indices,
    process ids and chunk numbers, two files of real runs are the same
    file only for the same machine, the same process and the same chunk,
    and two files of dry runs only for the same machine and the same
    process; a file of a dry run is never a file of a real run. *)
Theorem chunk_path_inj self self' (pid pid' i i' : Z) :
  0 <= Generator.machine_index self → 0 <= Generator.machine_index self' →
  0 <= pid → 0 <= pid' → 0 <= i → 0 <= i' →
  (chunk_path self pid false i = chunk_path self' pid' false i' →
   Generator.machine_index self = Generator.machine_index self'
   ∧ pid = pid' ∧ i = i')
  ∧ (chunk_path self pid true i = chunk_path self' pid' true i' →
     Generator.machine_index self = Generator.machine_index self'
     ∧ pid = pid')
  ∧ chunk_path self pid true i ≠ chunk_path self' pid' false i'.
Proof.
  intros Hm Hm' Hp Hp' Hi Hi'.
  pose proof (FailureFacts.dashless_pretty _ Hm) as Dm.
  pose proof (FailureFacts.dashless_pretty _ Hm') as Dm'.
  pose proof (FailureFacts.dashless_pretty _ Hp) as Dp.
  pose proof (FailureFacts.dashless_pretty _ Hp') as Dp'.
  unfold chunk_path, join. split; [|split].
  - intros [= _ E].
    rewrite !FailureFacts.string_app_assoc in E.
    apply String.app_inj in E.
    apply FailureFacts.dash_split in E as [E1 E]; [|done..].
    apply FailureFacts.dash_split in E as [E2 E3]; [|done..].
    apply pretty_Z_inj in E1, E2, E3. done.
  - intros [= _ E].
    apply String.app_inj in E.
    apply FailureFacts.dash_split in E as [E1 E2]; [|done..].
    apply pretty_Z_inj in E1, E2. done.
  - by intros [=].
Qed.

Lemma chunk_path_inj_witness :
  (chunk_path gen 0 false 1 = chunk_path gen1 0 false 1 →
   Generator.machine_index gen = Generator.machine_index gen1
   ∧ 0 = 0 ∧ 1 = 1)
  ∧ (chunk_path gen 0 true 1 = chunk_path gen1 0 true 1 →
     Generator.machine_index gen = Generator.machine_index gen1
     ∧ 0 = 0)
  ∧ chunk_path gen 0 true 1 ≠ chunk_path gen1 0 false 1.
Proof. apply (chunk_path_inj gen gen1 0 0 1 1); done. Defined.

(** ** A dry run and the files *)

Module DryRunFacts.
Import LoopFacts InitFacts ChunkFacts ProcessFacts RunFacts FrameFacts.

Lemma same_outside_refl folder x : same_outside folder x x.
Proof. by intros p _. Qed.

Lemma same_outside_trans folder x1 x2 x3 :
  same_outside folder x1 x2 → same_outside folder x2 x3 →
  same_outside folder x1 x3.
Proof. intros H1 H2 p Hp. by rewrite H2, H1. Qed.

Lemma open_append_outside folder name data x :
  same_outside folder x (open_append (join folder name) data x).2.
Proof.
  unfold open_append, join. cbn [fst dirs denied opened files].
  destruct (_ && _); cbn [snd files]; [|by intros p _].
  intros p Hp. cbn [files]. apply lookup_insert_ne. by intros <-.
Qed.

Lemma write_loop_outside self (pid : Z) (dryrun : bool)
    (cs : list (Z * list testcase)) x :
  same_outside (Generator.folder_path self) x
    (for_ cs (λ '((i, chunk) : Z * list testcase) (_ : unit),
      let basename :=
        "testcase-" +:+ pretty (Generator.machine_index self)
        +:+ "-" +:+ pretty pid in
      let filename :=
        if dryrun then "tmp-" +:+ basename
        else basename +:+ "-" +:+ pretty i in
      data ← lift (Generator.JSONFormat.make self chunk (Generator.filter self));
      open_append (join (Generator.folder_path self) filename) data) () x).2.
Proof.
  revert x. induction cs as [|[i chunk] cs IH]; intros x.
  - apply same_outside_refl.
  - cbn [for_]. cbv zeta. unfold mbind at 1, prog_bind at 1.
    unfold mbind at 1, prog_bind at 1, lift at 1.
    destruct (Generator.JSONFormat.make _ _ _) as [data| |];
      [|apply same_outside_refl..].
    match goal with
    | |- context [open_append (join ?f ?name) ?d ?x] =>
        pose proof (open_append_outside f name d x) as Ht;
        destruct (open_append (join f name) d x) as [[[]| |] x1]
    end; cbn [snd] in *; [|done..].
    eapply same_outside_trans; [apply Ht|apply IH].
Qed.

Lemma print_worker_outside self shard pid dryrun tpf x :
  same_outside (Generator.folder_path self) x
    (Generator._print self shard pid dryrun tpf x).2.
Proof.
  unfold Generator._print. unfold mbind at 1, prog_bind at 1, lift at 1.
  destruct (ichunked shard tpf) as [chunks| |]; [|apply same_outside_refl..].
  apply write_loop_outside.
Qed.

Lemma run_workers_outside self shards dryrun tpf x :
  same_outside (Generator.folder_path self) x
    (run_workers self shards dryrun tpf x).
Proof.
  unfold run_workers. generalize (enumerate shards). intros l.
  revert x. induction l as [|[i shard] l IH]; intros x.
  - apply same_outside_refl.
  - cbn [foldl fst snd]. eapply same_outside_trans; [|apply IH].
    apply print_worker_outside.
Qed.

(** What a dry run leaves of the file system. *)
Lemma run_fs_dry self workers tpf x :
  fs_wf x →
  dirs (run_fs self true workers tpf x) = dirs x
  ∧ denied (run_fs self true workers tpf x) = denied x
  ∧ files (run_fs self true workers tpf x) = files x
  ∧ ∃ new, opened (run_fs self true workers tpf x) = opened x ++ new
           ∧ Forall (λ p, p.1 = fresh (dirs x)) new.
Proof.
  intros Hwf. unfold run_fs.
  set (d := fresh (dirs x)).
  assert (d ∉ dirs x) as Hfresh by apply is_fresh.
  set (x0 := (TemporaryDirectory_enter x).2).
  set (x1 := run_workers (Generator.set_folder_path self d)
               (worker_shards self workers) true tpf x0).
  destruct (run_workers_touches (Generator.set_folder_path self d)
              (worker_shards self workers) true tpf x0)
    as (Hd & Hn & (new & Ho & Hnew) & _).
  pose proof (run_workers_outside (Generator.set_folder_path self d)
                (worker_shards self workers) true tpf x0) as Hout.
  fold x1 in Hd, Hn, Ho, Hout. cbn [Generator.folder_path
    Generator.set_folder_path] in Hout, Hnew.
  unfold TemporaryDirectory_exit. cbn [snd dirs denied files opened].
  split; [|split; [|split]].
  - rewrite Hd. unfold x0, TemporaryDirectory_enter. cbn [snd dirs].
    fold d. set_solver.
  - by rewrite Hn.
  - apply map_eq. intros p. rewrite map_lookup_filter.
    destruct (decide (p.1 = d)) as [Hp|Hp].
    + assert (files x !! p = None) as ->.
      { apply eq_None_not_Some. intros Hs. apply Hwf in Hs. by rewrite Hp in Hs. }
      destruct (files x1 !! p) as [v|]; [|done]. cbn.
      rewrite option_guard_False; [done|]. cbn. by intros ?.
    + rewrite (Hout p Hp). unfold x0, TemporaryDirectory_enter. cbn [snd files].
      destruct (files x !! p) as [v|]; [|done]. cbn.
      by rewrite option_guard_True.
  - exists new. split; [|done]. by rewrite Ho.
Qed.

End DryRunFacts.

(** X18.  A dry run leaves no trace in the file system: on a file system
    where every file lies in an existing directory, after
    [run(dryrun=True)] the directories and the files are exactly what they
    were, whether or not the configured folder exists or is writable;
    every file the run opened was under the temporary directory. *)
Theorem dry_run_leaves_files self w workers tpf n :
  wf self → 0 < workers → 0 < tpf →
  Generator.testcases_length self = Ok n → n < 2 ^ 1024 - 2 ^ 970 →
  fs_wf (fs w) →
  ∃ self' w',
    Generator.run (VBool true) (VInt workers) (VInt tpf) (self, w)
    = (Ok (), (self', w'))
    ∧ dirs (fs w') = dirs (fs w)
    ∧ files (fs w') = files (fs w)
    ∧ ∃ new, opened (fs w') = opened (fs w) ++ new
             ∧ Forall (λ p, p.1 ∉ dirs (fs w)) new.
Proof.
  intros Hwf Hw Htpf Hlen Hn Hfs.
  rewrite (RunFacts.run_spec self w true workers tpf n) by done.
  destruct (DryRunFacts.run_fs_dry self workers tpf (fs w) Hfs)
    as (Hd & _ & Hf & new & Ho & Hnew).
  eexists _, _. split; [done|]. cbn [fs].
  split; [done|]. split; [done|]. exists new. split; [done|].
  eapply Forall_impl; [exact Hnew|]. intros p ->. apply is_fresh.
Qed.

Lemma dry_run_leaves_files_witness :
  ∃ self' w',
    Generator.run (VBool true) (VInt 1) (VInt 1000) (gen, w0)
    = (Ok (), (self', w'))
    ∧ dirs (fs w') = dirs (fs w0)
    ∧ files (fs w') = files (fs w0)
    ∧ ∃ new, opened (fs w') = opened (fs w0) ++ new
             ∧ Forall (λ p, p.1 ∉ dirs (fs w0)) new.
Proof.
  apply (dry_run_leaves_files gen w0 1 1000 3375).
  - apply InitFacts.gen_wf.
  - lia.
  - lia.
  - vm_compute. reflexivity.
  - vm_compute. reflexivity.
  - intros p [v Hv]. unfold w0, fs0 in Hv. cbn [fs files] in Hv.
    by rewrite lookup_empty in Hv.
Defined.

(** ** A forecast too large for a float *)

Module OverflowFacts.
Import LoopFacts InitFacts ChunkFacts RunFacts.

Lemma float_root_overflow n r :
  2 ^ 1024 - 2 ^ 970 <= n → float_root n r = Raise OverflowError.
Proof.
  intros H. unfold float_root.
  by replace (2 ^ 1024 - 2 ^ 970 <=? n) with true
    by (symmetry; apply Z.leb_le; lia).
Qed.

Lemma gen_huge_wf : wf gen_huge.
Proof.
  unfold wf, gen_huge. cbn. repeat split; try lia; try done.
Qed.

(** [run] when the forecast does not fit a float. *)
Lemma run_overflow_state self w (dryrun : bool) workers tpf n :
  wf self → 0 < workers → 0 < tpf →
  Generator.testcases_length self = Ok n → 2 ^ 1024 - 2 ^ 970 <= n →
  Generator.run (VBool dryrun) (VInt workers) (VInt tpf) (self, w)
  = (Raise OverflowError,
     (self,
      {| log := log w ++ [LogInfoGenerating n; LogDebug 1; LogDebug 2;
                          LogDebug 3];
         fs := fs w |})).
Proof.
  intros Hwf Hw Htpf Hlen Hn. unfold Generator.run. cbv zeta.
  cbn [isinstance_bool isinstance_int int_of bool_of andb negb].
  replace (0 <? workers) with true by (symmetry; apply Z.ltb_lt; lia).
  replace (0 <? tpf) with true by (symmetry; apply Z.ltb_lt; lia).
  cbn [andb negb].
  destruct w as [lg x].
  erewrite prog_bind_Ok; [|reflexivity]. cbn [fst snd].
  rewrite Hlen, wf_S by done.
  rewrite StoreFacts.make_partitions_parts by (unfold wf in Hwf; lia).
  rewrite !bind_Ok, float_root_overflow by done.
  do 9 (erewrite prog_bind_Ok; [|reflexivity];
        unfold set_log; cbn [fst snd log fs]).
  erewrite prog_bind_Raise; [|reflexivity].
  by rewrite <- !app_assoc.
Qed.

End OverflowFacts.

(** X19.  When the forecast [testcases_length] is [2^1024 - 2^970] or
    more, [run] raises [OverflowError]: the debug message that prints
    [int(testcases_length ** (1 / number_of_rounds))] converts the
    forecast to a float.  This happens after the partitions were
    enumerated and four records were logged, and before any file is
    opened; the constructor accepts such a configuration. *)
Theorem run_overflow self w (dryrun : bool) workers tpf n :
  wf self → 0 < workers → 0 < tpf →
  Generator.testcases_length self = Ok n → 2 ^ 1024 - 2 ^ 970 <= n →
  ∃ w',
    Generator.run (VBool dryrun) (VInt workers) (VInt tpf) (self, w)
    = (Raise OverflowError, (self, w'))
    ∧ log w' = log w ++ [LogInfoGenerating n; LogDebug 1; LogDebug 2;
                         LogDebug 3]
    ∧ fs w' = fs w.
Proof.
  intros Hwf Hw Htpf Hlen Hn.
  rewrite (OverflowFacts.run_overflow_state self w dryrun workers tpf n)
    by done.
  eexists. split; [reflexivity|]. by split.
Qed.

Lemma run_overflow_witness :
  ∃ w',
    Generator.run (VBool false) (VInt 1) (VInt 1000) (gen_huge, w0)
    = (Raise OverflowError, (gen_huge, w'))
    ∧ log w' = log w0 ++ [LogInfoGenerating (15 ^ 263); LogDebug 1;
                          LogDebug 2; LogDebug 3]
    ∧ fs w' = fs w0.
Proof.
  apply (run_overflow gen_huge w0 false 1 1000 (15 ^ 263)).
  - apply OverflowFacts.gen_huge_wf.
  - lia.
  - lia.
  - vm_compute. reflexivity.
  - apply Z.leb_le. vm_compute. reflexivity.
Defined.

(** ** The partitions returned share no list object *)

Module SharingFacts.
Import LoopFacts EnumerationFacts StoreFacts.

(** [b += more] on block [j] of an entry of a separated shape. *)
Lemma iadd_entry lo (h : heap) done p bl todo (j b : nat) items more :
  separated lo h (done ++ (p, bl) :: todo) →
  bl !! j = Some (b, items) →
  list_iadd b more h = (Ok (), <[b := Block (items ++ more)]> h)
  ∧ separated lo (<[b := Block (items ++ more)]> h)
      (done ++ (p, <[j := (b, items ++ more)]> bl) :: todo).
Proof.
  intros Hsep Hbi. set (h1 := <[b := Block (items ++ more)]> h).
  pose proof Hsep as (Hok & Hnd & Hb).
  assert (entry_ok h (p, bl)) as [Hp Hbl].
  { rewrite Forall_forall in Hok. apply Hok, elem_of_app. right. by left. }
  cbn [fst snd] in Hp, Hbl.
  assert (NoDup (p :: bl.*1)) as Hnde.
  { rewrite locs_middle in Hnd.
    by apply NoDup_app in Hnd as (_ & _ & (Hnd & _)%NoDup_app). }
  apply NoDup_cons in Hnde as [Hpn Hndb].
  assert (bl.*1 !! j = Some b) as Hbj by (by rewrite list_lookup_fmap, Hbi).
  assert (b ≠ p) as Hbp.
  { intros ->. apply Hpn. by eapply list_elem_of_lookup_2. }
  assert (h !! b = Some (Block items)) as Hhb.
  { rewrite Forall_forall in Hbl.
    apply (Hbl (b, items)). by eapply list_elem_of_lookup_2. }
  split.
  { unfold list_iadd. erewrite prog_bind_Ok; [|by apply load_block_ok]. done. }
  apply (separated_update lo h h1 done (p, bl) _ todo); [done|..].
  - intros l0 Hl0. unfold h1.
    pose proof (NoDup_locs_middle _ _ _ _ Hnd Hl0) as Hne.
    apply list_lookup_insert_ne. intros ->. apply Hne. right.
    by eapply list_elem_of_lookup_2.
  - split; cbn [fst snd].
    + unfold h1. rewrite list_lookup_insert_ne by done.
      by rewrite list_fmap_insert, list_insert_id.
    + apply Forall_lookup. intros i bi Hi.
      destruct (decide (i = j)) as [->|Hij].
      * rewrite list_lookup_insert_eq in Hi by (by eapply lookup_lt_Some).
        injection Hi as <-. cbn [fst snd]. unfold h1.
        apply list_lookup_insert_eq. by eapply lookup_lt_Some.
      * rewrite list_lookup_insert_ne in Hi by done. unfold h1.
        rewrite list_lookup_insert_ne.
        -- rewrite Forall_forall in Hbl. apply Hbl.
           by eapply list_elem_of_lookup_2.
        -- intros Heq. apply Hij.
           apply (NoDup_lookup bl.*1 i j bi.1); [done| |by rewrite <- Heq].
           by rewrite list_lookup_fmap, Hi.
  - intros l0. unfold entry_locs; cbn [fst snd].
    rewrite list_fmap_insert, list_insert_id by done. by left.
  - unfold entry_locs; cbn [fst snd].
    rewrite list_fmap_insert, list_insert_id by done.
    by apply NoDup_cons.
  - rewrite locs_middle in Hb.
    apply Forall_app in Hb as [_ [Hb _]%Forall_app].
    unfold entry_locs in Hb |- *; cbn [fst snd] in Hb |- *.
    by rewrite list_fmap_insert, list_insert_id.
Qed.

Lemma vals_middle (done todo : list entry) e :
  vals (done ++ e :: todo) = vals done ++ e.2.*2 :: vals todo.
Proof. unfold vals. by rewrite fmap_app. Qed.

Lemma refs_middle (done todo : list entry) e :
  refs (done ++ e :: todo) = refs done ++ e.1 :: refs todo.
Proof. unfold refs. by rewrite fmap_app. Qed.

Lemma vals_update (done todo : list entry) (p : nat) bl (a b : nat)
    items more :
  bl !! a = Some (b, items) →
  vals (done ++ (p, <[a := (b, items ++ more)]> bl) :: todo)
  = alter (alter (λ x, x ++ more) a) (length done)
      (vals (done ++ (p, bl) :: todo)).
Proof.
  intros Ha. rewrite !vals_middle. cbn [fst snd].
  rewrite alter_app_r_alt by (rewrite length_vals; lia).
  rewrite length_vals, Nat.sub_diag. cbn [alter list_alter]. do 2 f_equal.
  rewrite list_fmap_insert. cbn [snd].
  apply (insert_as_alter (λ x, x ++ more)).
  by rewrite list_lookup_fmap, Ha.
Qed.

Lemma refs_update (done todo : list entry) (p : nat) bl bl' :
  refs (done ++ (p, bl') :: todo) = refs (done ++ (p, bl) :: todo).
Proof. by rewrite !refs_middle. Qed.

End SharingFacts.

(** X20.  The partitions [stirling2] returns share no list object, among
    themselves or with what the store held: they are pairwise distinct
    objects, and appending to block [a] of the [i]-th of them changes,
    when all the partitions are read again, that block of that partition
    and nothing else. *)
Theorem stirling2_result_unshared (n k : Z) (fuel : nat) (h : heap) :
  1 <= k <= n → (Z.to_nat n < fuel)%nat →
  ∃ rs h' ps,
    Generator.stirling2 fuel n k h = (Ok rs, h')
    ∧ read_parts rs h' = (Ok ps, h')
    ∧ NoDup rs
    ∧ Forall (λ p, length h ≤ p)%nat rs
    ∧ ∀ (i a : nat) p b more,
        rs !! i = Some p →
        list_getitem p (Z.of_nat a) h' = (Ok b, h') →
        ∃ h'',
          list_iadd b more h' = (Ok (), h'')
          ∧ read_parts rs h''
            = (Ok (alter (alter (λ items, items ++ more) a) i ps), h'').
Proof.
  intros Hk Hfuel.
  destruct (StoreFacts.stirling2_store fuel (Z.to_nat n) (Z.to_nat k) h)
    as (sh & h' & Hrun & Hfr & Hsep & Hv); [lia..|].
  rewrite !Z2Nat.id in Hrun by lia.
  pose proof Hsep as (Hok & Hnd & Hlo).
  exists (refs sh), h', (vals sh). split; [done|].
  split; [unfold read_parts; by rewrite (StoreFacts.read_parts_ok h' sh [])|].
  split; [|split].
  - unfold refs. clear -Hnd. induction sh as [|e sh IH]; [constructor|].
    rewrite StoreFacts.locs_cons in Hnd.
    apply NoDup_app in Hnd as (Hne & Hdis & Hnd').
    cbn [fmap list_fmap]. constructor; [|by apply IH].
    intros (e' & He' & Hin)%list_elem_of_fmap.
    apply (Hdis e.1); [by left|].
    apply StoreFacts.elem_of_locs. exists e'. split; [done|].
    rewrite He'. by left.
  - apply Forall_forall. intros p (e & -> & He)%list_elem_of_fmap.
    rewrite Forall_forall in Hlo. apply Hlo.
    apply StoreFacts.elem_of_locs. exists e. split; [done|]. by left.
  - intros i a p b more Hi Hget.
    unfold refs in Hi. rewrite list_lookup_fmap in Hi.
    destruct (sh !! i) as [[p' bl]|] eqn:Ei; [|done].
    cbn in Hi. injection Hi as ->.
    pose proof (take_drop_middle sh i (p, bl) Ei) as Hsplit.
    assert (length (take i sh) = i) as Hlen.
    { rewrite length_take. apply lookup_lt_Some in Ei. lia. }
    assert (entry_ok h' (p, bl)) as [Hp Hbl].
    { rewrite Forall_forall in Hok. apply Hok.
      by eapply list_elem_of_lookup_2. }
    cbn [fst snd] in Hp, Hbl.
    unfold list_getitem in Hget.
    erewrite LoopFacts.prog_bind_Ok in Hget;
      [|by apply StoreFacts.load_part_ok].
    unfold lift, getitem in Hget.
    assert (Z.of_nat a <? 0 = false) as Hlt by (apply Z.ltb_ge; lia).
    rewrite !Hlt, Nat2Z.id, list_lookup_fmap in Hget.
    destruct (bl !! a) as [[b' items]|] eqn:Ea; cbn in Hget; [|done].
    injection Hget as ->.
    rewrite <- Hsplit in Hsep.
    destruct (SharingFacts.iadd_entry _ _ _ _ _ _ _ _ _ more Hsep Ea)
      as [Hiadd (Hok' & _)].
    eexists. split; [exact Hiadd|].
    pose proof (SharingFacts.vals_update (take i sh) (drop (S i) sh)
                  p bl a b items more Ea) as Hvals.
    pose proof (SharingFacts.refs_update (take i sh) (drop (S i) sh)
                  p bl (<[a := (b, items ++ more)]> bl)) as Hrefs.
    rewrite Hsplit in Hvals, Hrefs. rewrite Hlen in Hvals.
    unfold read_parts. rewrite <- Hrefs.
    rewrite (StoreFacts.read_parts_ok _ _ []) by done.
    cbn [app]. by rewrite Hvals.
Qed.

Lemma stirling2_result_unshared_witness :
  ∃ rs h' ps,
    Generator.stirling2 6 5 2 [] = (Ok rs, h')
    ∧ read_parts rs h' = (Ok ps, h')
    ∧ NoDup rs
    ∧ Forall (λ p, length (@nil obj) ≤ p)%nat rs
    ∧ ∀ (i a : nat) p b more,
        rs !! i = Some p →
        list_getitem p (Z.of_nat a) h' = (Ok b, h') →
        ∃ h'',
          list_iadd b more h' = (Ok (), h'')
          ∧ read_parts rs h''
            = (Ok (alter (alter (λ items, items ++ more) a) i ps), h'').
Proof. apply (stirling2_result_unshared 5 2 6 []); lia. Defined.

(** ** The command line *)

Module CliFacts.
Import LoopFacts InitFacts ChunkFacts RunFacts ConstructorFacts.

Lemma sanitize_None args :
  cli.sanitize args = None
  ↔ ∃ n k r,
      cli.nodes args = Some n ∧ cli.partitions args = Some k
      ∧ cli.rounds args = Some r
      ∧ 0 < n ∧ 0 < k ∧ 0 < r
      ∧ 0 < cli.testcases_per_file args
      ∧ 0 < cli.index args <= cli.machines args
      ∧ 0 < cli.workers args.
Proof.
  unfold cli.sanitize. split.
  - destruct (cli.nodes args) as [n|]; [|done].
    destruct (cli.partitions args) as [k|]; [|done].
    destruct (cli.rounds args) as [r|]; [|done].
    destruct (Z.leb_spec n 0); [done|].
    destruct (Z.leb_spec k 0); [done|].
    destruct (Z.leb_spec r 0); [done|]. cbn [orb].
    destruct (Z.leb_spec (cli.testcases_per_file args) 0); [done|].
    destruct (Z.leb_spec (cli.index args) 0); [done|].
    destruct (Z.ltb_spec (cli.machines args) (cli.index args)); [done|].
    cbn [orb].
    destruct (Z.leb_spec (cli.workers args) 0); [done|].
    intros _. exists n, k, r. repeat split; (done || lia).
  - intros (n & k & r & -> & -> & -> & Hn & Hk & Hr & Ht & Hi & Hw).
    destruct (Z.leb_spec n 0); [lia|].
    destruct (Z.leb_spec k 0); [lia|].
    destruct (Z.leb_spec r 0); [lia|]. cbn [orb].
    destruct (Z.leb_spec (cli.testcases_per_file args) 0); [lia|].
    destruct (Z.leb_spec (cli.index args) 0); [lia|].
    destruct (Z.ltb_spec (cli.machines args) (cli.index args)); [lia|].
    cbn [orb].
    destruct (Z.leb_spec (cli.workers args) 0); [lia|]. done.
Qed.

Lemma last_run_log (l : list log_record) n :
  last (l ++ run_log n) = Some LogInfoFinished.
Proof.
  unfold run_log.
  replace (l ++ [LogInfoGenerating n; LogDebug 1; LogDebug 2; LogDebug 3;
                 LogDebug 4; LogDebug 5; LogDebug 6; LogDebug 7;
                 LogInfoFinished])
    with ((l ++ [LogInfoGenerating n; LogDebug 1; LogDebug 2; LogDebug 3;
                 LogDebug 4; LogDebug 5; LogDebug 6; LogDebug 7])
          ++ [LogInfoFinished]) by (by rewrite <- app_assoc).
  apply last_snoc.
Qed.

End CliFacts.

(** X21.  The script refuses its arguments, with exit status 2 and
    before any logging or file access, exactly when a count among nodes,
    partitions and rounds is missing or not positive, or
    [testcases_per_file <= 0], or the machine index is not in
    [1..machines], or [workers <= 0]; a missing count is reported before
    anything else. *)
Theorem cli_usage_errors (args : cli.Namespace) (w : world) :
  ((∃ e w', cli.main args w = (cli.Usage e, w'))
   ↔ ¬ ∃ n k r,
         cli.nodes args = Some n ∧ cli.partitions args = Some k
         ∧ cli.rounds args = Some r
         ∧ 0 < n ∧ 0 < k ∧ 0 < r
         ∧ 0 < cli.testcases_per_file args
         ∧ 0 < cli.index args <= cli.machines args
         ∧ 0 < cli.workers args)
  ∧ (∀ e w', cli.main args w = (cli.Usage e, w') → w' = w)
  ∧ (cli.nodes args = None ∨ cli.partitions args = None
     ∨ cli.rounds args = None →
     cli.main args w = (cli.Usage cli.MustBeSupplied, w)).
Proof.
  assert (∀ e w', cli.main args w = (cli.Usage e, w') →
            cli.sanitize args = Some e ∧ w' = w) as Hinv.
  { intros e w'. unfold cli.main.
    destruct (cli.sanitize args) as [e0|]; [by intros [= -> ->]|].
    destruct (Generator.__init__ _ _ _ _ _ _ _ _) as [[g| |] w1]; [|done..].
    by destruct (Generator.run _ _ _ _) as [[[]| |] st]. }
  split; [split|split].
  - intros (e & w' & H). apply Hinv in H as [Hs _].
    intros Hok. apply CliFacts.sanitize_None in Hok. congruence.
  - intros Hno. destruct (cli.sanitize args) as [e|] eqn:Es.
    + exists e, w. unfold cli.main. by rewrite Es.
    + destruct Hno. by apply CliFacts.sanitize_None.
  - intros e w' H. by apply Hinv in H as [_ ->].
  - intros H. unfold cli.main, cli.sanitize.
    destruct H as [-> | [-> | ->]]; [done|..].
    + by destruct (cli.nodes args).
    + by destruct (cli.nodes args), (cli.partitions args).
Qed.

(** X22.  Arguments the script accepts pass every check of the
    constructor and of [run] but one: with more partitions than
    [nodes + (nodes - 1) // 3] the constructor's [ValueError] ends the
    script with a traceback, the error logged and nothing else done.
    Otherwise the generator is built and run: the script ends normally
    with [Finished.] as its last log record when the forecast fits a
    float, and with the [OverflowError] of [run] when it does not. *)
Theorem cli_main_outcomes (args : cli.Namespace) (w : world) n k r :
  cli.nodes args = Some n → cli.partitions args = Some k →
  cli.rounds args = Some r → cli.sanitize args = None →
  (n + (n - 1) / 3 < k →
   ∃ message,
     cli.main args w = (cli.Traceback ValueError, logged ValueError message w))
  ∧ (k <= n + (n - 1) / 3 →
     ∃ self w1 N,
       Generator.__init__ (VInt n) (VInt k) (VInt r) None
         (VStr (cli.path args)) (VInt (cli.index args))
         (VInt (cli.machines args)) w = (Ok self, w1)
       ∧ Generator.testcases_length self = Ok N
       ∧ (N < 2 ^ 1024 - 2 ^ 970 →
          ∃ w2, cli.main args w = (cli.Returned, w2)
                ∧ last (log w2) = Some LogInfoFinished)
       ∧ (2 ^ 1024 - 2 ^ 970 <= N →
          ∃ w2, cli.main args w = (cli.Traceback OverflowError, w2)
                ∧ fs w2 = fs w)).
Proof.
  intros En Ek Er Hs. pose proof Hs as Hok.
  apply CliFacts.sanitize_None in Hok
    as (n' & k' & r' & En' & Ek' & Er' & Hn & Hk & Hr & Ht & Hi & Hw).
  rewrite En in En'. rewrite Ek in Ek'. rewrite Er in Er'.
  injection En' as <-. injection Ek' as <-. injection Er' as <-.
  assert (init_types_ok (VInt n) (VInt k) (VInt r) (VStr (cli.path args))
            (VInt (cli.index args)) (VInt (cli.machines args)) = true)
    as Htypes by done.
  assert (init_values_ok (VInt n) (VInt k) (VInt r)
            (VInt (cli.index args)) (VInt (cli.machines args)) = true)
    as Hvalues.
  { apply ConstructorFacts.init_values_ok_iff. cbn [int_of]. lia. }
  unfold cli.main. rewrite Hs, En, Ek, Er. unfold default. cbn [from_option id].
  split.
  - intros Hmany.
    destruct (InitFacts.init_partitions_error (VInt n) (VInt k) (VInt r) None
                (VStr (cli.path args)) (VInt (cli.index args))
                (VInt (cli.machines args)) w Htypes Hvalues Hmany)
      as [message ->].
    by exists message.
  - intros Hfew.
    destruct (InitFacts.init_ok (VInt n) (VInt k) (VInt r) None
                (VStr (cli.path args)) (VInt (cli.index args))
                (VInt (cli.machines args)) w Htypes Hvalues Hfew)
      as (w1 & Hinit & Hfs).
    pose proof (InitFacts.mk_self_wf (VInt n) (VInt k) (VInt r) None
                  (VStr (cli.path args)) (VInt (cli.index args))
                  (VInt (cli.machines args)) Hvalues Hfew) as Hwf.
    set (self := mk_self _ _ _ _ _ _ _) in *.
    pose proof (InitFacts.wf_testcases_length self Hwf) as Hlen.
    rewrite Hinit. eexists self, w1, _. split; [done|]. split; [exact Hlen|].
    split.
    + intros Hfit.
      rewrite (RunFacts.run_spec self w1 (cli.dryrun args) (cli.workers args)
                 (cli.testcases_per_file args) _ Hwf Hw Ht Hlen Hfit).
      eexists. split; [done|]. cbn [snd log]. apply CliFacts.last_run_log.
    + intros Hbig.
      rewrite (OverflowFacts.run_overflow_state self w1 (cli.dryrun args)
                 (cli.workers args) (cli.testcases_per_file args) _
                 Hwf Hw Ht Hlen Hbig).
      eexists. split; [done|]. done.
Qed.

Lemma cli_main_outcomes_witness :
  (4 + (4 - 1) / 3 < 2 →
   ∃ message,
     cli.main example_args w0
     = (cli.Traceback ValueError, logged ValueError message w0))
  ∧ (2 <= 4 + (4 - 1) / 3 →
     ∃ self w1 N,
       Generator.__init__ (VInt 4) (VInt 2) (VInt 4) None
         (VStr (cli.path example_args)) (VInt (cli.index example_args))
         (VInt (cli.machines example_args)) w0 = (Ok self, w1)
       ∧ Generator.testcases_length self = Ok N
       ∧ (N < 2 ^ 1024 - 2 ^ 970 →
          ∃ w2, cli.main example_args w0 = (cli.Returned, w2)
                ∧ last (log w2) = Some LogInfoFinished)
       ∧ (2 ^ 1024 - 2 ^ 970 <= N →
          ∃ w2, cli.main example_args w0 = (cli.Traceback OverflowError, w2)
                ∧ fs w2 = fs w0)).
Proof. apply (cli_main_outcomes example_args w0 4 2 4); reflexivity. Defined.

(** ** The files of a real run *)

Module OutputFacts.
Import LoopFacts InitFacts ChunkFacts WriterFacts FailureFacts RunFacts.

Lemma document_ok self (chunk : list testcase) :
  wf self →
  Generator.JSONFormat.make self chunk (Generator.filter self)
  = Ok (document self chunk).
Proof.
  intros Hwf. unfold document.
  by destruct (make_ok self chunk (Generator.filter self) Hwf) as [d ->].
Qed.

Lemma documents_ok self (cs : list (list testcase)) :
  wf self →
  Forall2 (λ c d, Generator.JSONFormat.make self c (Generator.filter self)
                  = Ok d) cs (document self <$> cs).
Proof.
  intros Hwf. induction cs as [|c cs IH]; [constructor|].
  cbn [fmap list_fmap]. constructor; [by apply document_ok|done].
Qed.

Lemma appended_app pds1 pds2 fl :
  appended (pds1 ++ pds2) fl = appended pds2 (appended pds1 fl).
Proof. unfold appended. by rewrite foldl_app. Qed.

Lemma appended_elem pds fl p d :
  NoDup pds.*1 → (p, d) ∈ pds →
  appended pds fl !! p = Some (default [] (fl !! p) ++ [d]).
Proof.
  intros Hnd [i Hi]%list_elem_of_lookup. by eapply appended_once.
Qed.

(** One worker after the other, each on the file system the previous one
    left. *)
Lemma run_workers_from self (dryrun : bool) tpf shards : ∀ (a : nat) x,
  wf self → 0 < tpf → writable x (Generator.folder_path self) →
  foldl (λ x (ic : Z * list testcase),
           (Generator._print self ic.2 ic.1 dryrun tpf x).2)
        x (imap (λ i s, (Z.of_nat (a + i), s)) shards)
  = {| dirs := dirs x;
       files := appended (all_written self dryrun tpf a shards) (files x);
       denied := denied x;
       opened := opened x ++ (all_written self dryrun tpf a shards).*1 |}.
Proof.
  induction shards as [|shard shards IH]; intros a x Hwf Htpf [Hdir Hden].
  { cbn. rewrite app_nil_r. by destruct x. }
  cbn [imap foldl fst snd all_written]. rewrite Nat.add_0_r.
  rewrite (print_worker_files self shard (Z.of_nat a) dryrun tpf x
             (document self <$> chunks tpf shard));
    [|done|done|by apply documents_ok|done|intros i; apply Hden].
  cbn [snd]. rewrite length_fmap.
  rewrite (imap_ext _ (λ i s, (Z.of_nat (S a + i), s)))
    by (intros; simpl; do 2 f_equal; lia).
  rewrite IH; [|done|done|by split].
  cbn [dirs files denied opened].
  rewrite appended_app, fmap_app, <- app_assoc.
  assert ((written_by self (Z.of_nat a) dryrun tpf shard).*1
          = chunk_paths self (Z.of_nat a) dryrun (length (chunks tpf shard)))
    as ->; [|done].
  unfold written_by. apply fst_zip.
  by rewrite length_chunk_paths, length_fmap.
Qed.

Lemma elem_of_written_by self pid dryrun tpf shard pd :
  pd ∈ written_by self pid dryrun tpf shard
  ↔ ∃ (c : nat) chunk,
      chunks tpf shard !! c = Some chunk
      ∧ pd = (chunk_path self pid dryrun (Z.of_nat c), document self chunk).
Proof.
  unfold written_by. rewrite list_elem_of_lookup. split.
  - intros (c & Hc). apply lookup_zip_with_Some in Hc
      as (path & d & -> & Hpath & Hd).
    rewrite list_lookup_fmap in Hd.
    destruct (chunks tpf shard !! c) as [chunk|] eqn:Ec; [|done].
    injection Hd as <-.
    rewrite lookup_chunk_paths in Hpath by (by eapply lookup_lt_Some).
    injection Hpath as <-. by exists c, chunk.
  - intros (c & chunk & Hc & ->). exists c. apply lookup_zip_with_Some.
    eexists _, _. split; [done|]. split.
    + apply lookup_chunk_paths. by eapply lookup_lt_Some.
    + by rewrite list_lookup_fmap, Hc.
Qed.

Lemma elem_of_all_written self dryrun tpf shards : ∀ (a : nat) pd,
  pd ∈ all_written self dryrun tpf a shards
  ↔ ∃ (p c : nat) shard chunk,
      shards !! p = Some shard ∧ chunks tpf shard !! c = Some chunk
      ∧ pd = (chunk_path self (Z.of_nat (a + p)) dryrun (Z.of_nat c),
              document self chunk).
Proof.
  induction shards as [|shard shards IH]; intros a pd; cbn [all_written].
  { split; [by intros ?%elem_of_nil|]. by intros (p & c & s & ch & Hp & _). }
  rewrite elem_of_app, elem_of_written_by, IH. split.
  - intros [(c & chunk & Hc & ->)|(p & c & s & chunk & Hp & Hc & ->)].
    + exists 0%nat, c, shard, chunk. by rewrite Nat.add_0_r.
    + exists (S p), c, s, chunk. split; [done|]. split; [done|].
      do 3 f_equal. lia.
  - intros (p & c & s & chunk & Hp & Hc & ->). destruct p as [|p].
    + left. injection Hp as ->. exists c, chunk. by rewrite Nat.add_0_r.
    + right. exists p, c, s, chunk. split; [done|]. split; [done|].
      do 3 f_equal. lia.
Qed.

Lemma chunk_path_nat_inj self (p p' c c' : nat) :
  0 <= Generator.machine_index self →
  chunk_path self (Z.of_nat p) false (Z.of_nat c)
  = chunk_path self (Z.of_nat p') false (Z.of_nat c') →
  p = p' ∧ c = c'.
Proof.
  intros Hm. unfold chunk_path, join. intros [= E].
  rewrite !string_app_assoc in E. apply String.app_inj in E.
  apply dash_split in E as [_ E]; [|by apply dashless_pretty..].
  apply dash_split in E as [E1 E2]; [|apply dashless_pretty; lia..].
  apply pretty_Z_inj in E1, E2. lia.
Qed.

Lemma NoDup_all_written self tpf shards : ∀ a : nat,
  0 <= Generator.machine_index self →
  NoDup (all_written self false tpf a shards).*1.
Proof.
  induction shards as [|shard shards IH]; intros a Hm; cbn [all_written].
  { constructor. }
  rewrite fmap_app. apply NoDup_app. split; [|split; [|by apply IH]].
  - unfold written_by. rewrite fst_zip
      by (by rewrite length_chunk_paths, length_fmap).
    apply NoDup_chunk_paths.
  - intros path ([path1 d1] & -> & H1)%list_elem_of_fmap
      ([path2 d2] & E & H2)%list_elem_of_fmap.
    apply elem_of_written_by in H1 as (c & chunk & _ & [= -> _]).
    apply elem_of_all_written in H2 as (p' & c' & s & chunk' & _ & _ & [= -> _]).
    cbn [fst] in E. apply chunk_path_nat_inj in E as [E _]; [lia|done].
Qed.

Lemma lookup_worker_shards self workers (p : nat) shard :
  wf self → 0 < workers →
  worker_shards self workers !! p = Some shard →
  Z.of_nat p < workers
  ∧ ∀ j : nat,
      shard !! j
      = pipeline self
          !! ((j * Z.to_nat workers + p)
              * Z.to_nat (Generator.number_of_machines self)
              + Z.to_nat (Generator.machine_index self - 1))%nat.
Proof.
  intros Hwf Hw Hp. unfold worker_shards in Hp.
  rewrite list_lookup_fmap in Hp.
  destruct (seq 0 (Z.to_nat workers) !! p) as [p'|] eqn:E; [|done].
  apply lookup_seq in E as [-> Hlt]. injection Hp as <-.
  split; [lia|]. intros j. unfold islice, machine_shard, islice.
  rewrite !ShardFacts.lookup_every_nth.
  assert (0 < Generator.number_of_machines self)
    by (unfold wf in Hwf; lia).
  replace (S (Z.to_nat workers - 1)) with (Z.to_nat workers) by lia.
  replace (S (Z.to_nat (Generator.number_of_machines self) - 1))
    with (Z.to_nat (Generator.number_of_machines self)) by lia.
  f_equal. simpl. lia.
Qed.

End OutputFacts.

(** X23.  What a real run leaves.  For an instance the constructor built
    and a folder in which every file can be opened, [run(dryrun=False)]
    returns normally; for every worker [p] and every chunk [c] of its
    shard, the file [testcase-<machine>-<p>-<c>] holds what it held
    before followed by the document of that chunk, and no other file has
    changed; element [j] of the shard of worker [p] is the testcase at
    position [(j * workers + p) * number_of_machines + machine_index - 1]
    of the pipeline. *)
Theorem run_writes self w workers tpf n :
  wf self → 0 < workers → 0 < tpf →
  Generator.testcases_length self = Ok n → n < 2 ^ 1024 - 2 ^ 970 →
  writable (fs w) (Generator.folder_path self) →
  ∃ w',
    Generator.run (VBool false) (VInt workers) (VInt tpf) (self, w)
    = (Ok (), (self, w'))
    ∧ (∀ (p c : nat) shard chunk,
         worker_shards self workers !! p = Some shard →
         chunks tpf shard !! c = Some chunk →
         ∃ doc,
           Generator.JSONFormat.make self chunk (Generator.filter self)
           = Ok doc
           ∧ files (fs w') !! chunk_path self (Z.of_nat p) false (Z.of_nat c)
             = Some (default []
                       (files (fs w)
                          !! chunk_path self (Z.of_nat p) false (Z.of_nat c))
                     ++ [doc]))
    ∧ (∀ q,
         (∀ (p c : nat) shard,
            worker_shards self workers !! p = Some shard →
            (c < length (chunks tpf shard))%nat →
            q ≠ chunk_path self (Z.of_nat p) false (Z.of_nat c)) →
         files (fs w') !! q = files (fs w) !! q)
    ∧ (∀ (p : nat) shard,
         worker_shards self workers !! p = Some shard →
         Z.of_nat p < workers
         ∧ ∀ j : nat,
             shard !! j
             = pipeline self
                 !! ((j * Z.to_nat workers + p)
                     * Z.to_nat (Generator.number_of_machines self)
                     + Z.to_nat (Generator.machine_index self - 1))%nat).
Proof.
  intros Hwf Hw Htpf Hlen Hn Hwr.
  rewrite (RunFacts.run_spec self w false workers tpf n) by done.
  eexists. split; [reflexivity|]. cbn [fs].
  unfold run_fs, run_workers.
  rewrite WriterFacts.enumerate_imap.
  rewrite (OutputFacts.run_workers_from self false tpf _ 0 (fs w)) by done.
  cbn [files].
  assert (0 <= Generator.machine_index self) as Hm
    by (unfold wf in Hwf; lia).
  pose proof (OutputFacts.NoDup_all_written self tpf
                (worker_shards self workers) 0 Hm) as Hnd.
  split; [|split].
  - intros p c shard chunk Hp Hc. exists (document self chunk).
    split; [by apply OutputFacts.document_ok|].
    apply OutputFacts.appended_elem; [done|].
    apply OutputFacts.elem_of_all_written. by exists p, c, shard, chunk.
  - intros q Hq. apply WriterFacts.appended_lookup_ne.
    intros ([path d] & -> & Hin)%list_elem_of_fmap.
    apply OutputFacts.elem_of_all_written in Hin
      as (p & c & shard & chunk & Hp & Hc & [= -> _]).
    apply (Hq p c shard Hp); [by eapply lookup_lt_Some|done].
  - intros p shard Hp. by apply OutputFacts.lookup_worker_shards.
Qed.

Lemma run_writes_witness :
  ∃ w',
    Generator.run (VBool false) (VInt 2) (VInt 4) (gen1, w0)
    = (Ok (), (gen1, w'))
    ∧ (∀ (p c : nat) shard chunk,
         worker_shards gen1 2 !! p = Some shard →
         chunks 4 shard !! c = Some chunk →
         ∃ doc,
           Generator.JSONFormat.make gen1 chunk (Generator.filter gen1)
           = Ok doc
           ∧ files (fs w') !! chunk_path gen1 (Z.of_nat p) false (Z.of_nat c)
             = Some (default []
                       (files (fs w0)
                          !! chunk_path gen1 (Z.of_nat p) false (Z.of_nat c))
                     ++ [doc]))
    ∧ (∀ q,
         (∀ (p c : nat) shard,
            worker_shards gen1 2 !! p = Some shard →
            (c < length (chunks 4 shard))%nat →
            q ≠ chunk_path gen1 (Z.of_nat p) false (Z.of_nat c)) →
         files (fs w') !! q = files (fs w0) !! q)
    ∧ (∀ (p : nat) shard,
         worker_shards gen1 2 !! p = Some shard →
         Z.of_nat p < 2
         ∧ ∀ j : nat,
             shard !! j
             = pipeline gen1
                 !! ((j * Z.to_nat 2 + p)
                     * Z.to_nat (Generator.number_of_machines gen1)
                     + Z.to_nat (Generator.machine_index gen1 - 1))%nat).
Proof.
  apply (run_writes gen1 w0 2 4 15).
  - apply InitFacts.gen1_wf.
  - lia.
  - lia.
  - vm_compute. reflexivity.
  - vm_compute. reflexivity.
  - apply InitFacts.fs0_writable.
Defined.

(** ** The default filter *)

Module FilterFacts.
Import LoopFacts InitFacts ChunkFacts FormatFacts SpaceFacts.

Lemma pipeline_nonempty self (t : testcase) :
  wf self → t ∈ pipeline self → t ≠ [].
Proof.
  intros Hwf Ht. unfold pipeline in Ht.
  apply elem_of_product_pow in Ht as [Hlen _].
  intros ->. simpl in Hlen. unfold wf in Hwf. lia.
Qed.

Lemma filter_all {A} (P : A → Prop) `{!∀ x, Decision (P x)} (l : list A) :
  (∀ x, x ∈ l → P x) → base.filter P l = l.
Proof.
  induction l as [|x l IH]; intros Hall; [done|].
  rewrite filter_cons, decide_True by (apply Hall; by left).
  f_equal. apply IH. intros y Hy. apply Hall. by right.
Qed.

End FilterFacts.

(** X24.  An instance built without a filter filters nothing: its
    filter (Python's [bool]) keeps every testcase of the pipeline, each
    of which has one scenario per round and so is not empty; the document
    of a chunk of such testcases therefore holds exactly one formatted
    scenario per testcase of the chunk, in order. *)
Theorem default_filter_keeps_all nn k r fp mi nm w self w' :
  Generator.__init__ nn k r None fp mi nm w = (Ok self, w') →
  (∀ t, t ∈ pipeline self → Generator.filter self t = true)
  ∧ Generator.filter self [] = false
  ∧ ∀ chunk : list testcase,
      (∀ t, t ∈ chunk → t ∈ pipeline self) →
      ∃ data,
        Generator.JSONFormat.make self chunk (Generator.filter self) = Ok data
        ∧ length (scenarios data) = length chunk
        ∧ Forall2 (λ t s, Generator.JSONFormat._format_scenario self t
                          = Ok (round_leaders s, round_partitions s))
            chunk (scenarios data).
Proof.
  intros (-> & Hwf & _)%InitFacts.init_inv.
  set (self := mk_self nn k r None fp mi nm) in *.
  assert (∀ t, t ∈ pipeline self → Generator.filter self t = true) as Hkeep.
  { intros t Ht. cbn [self mk_self Generator.filter default from_option].
    apply negb_true_iff, bool_decide_eq_false.
    by apply (FilterFacts.pipeline_nonempty self). }
  split; [done|]. split; [done|].
  intros chunk Hchunk. unfold Generator.JSONFormat.make.
  destruct (FormatFacts.make_loop self (Generator.filter self) chunk Hwf [])
    as (new & -> & Hall).
  rewrite LoopFacts.bind_Ok. eexists. split; [reflexivity|].
  cbn [scenarios app].
  rewrite FilterFacts.filter_all in Hall
    by (intros t Ht; by apply Hkeep, Hchunk).
  split; [|done]. symmetry. by eapply Forall2_length.
Qed.

Lemma default_filter_keeps_all_witness :
  (∀ t, t ∈ pipeline gen → Generator.filter gen t = true)
  ∧ Generator.filter gen [] = false
  ∧ ∀ chunk : list testcase,
      (∀ t, t ∈ chunk → t ∈ pipeline gen) →
      ∃ data,
        Generator.JSONFormat.make gen chunk (Generator.filter gen) = Ok data
        ∧ length (scenarios data) = length chunk
        ∧ Forall2 (λ t s, Generator.JSONFormat._format_scenario gen t
                          = Ok (round_leaders s, round_partitions s))
            chunk (scenarios data).
Proof.
  apply (default_filter_keeps_all (VInt 4) (VInt 2) (VInt 3) (VStr "./")
           (VInt 1) (VInt 1) w0 gen
           {| log := [LogInfoRepr 4 2 3 "./" 1 1]; fs := fs0 |}).
  vm_compute. reflexivity.
Defined.
